(** * JASSv2: the global-array accumulator engine and the fixed-buffer allocator

    A shallow embedding of [query_atire_global] (the revision that keeps
    its accumulators, dirty flags and heap pointers in process-wide static
    arrays), of its predecessor in [source/query_atire_global.h] where the
    two differ, and of [allocator_memory::malloc].

    Conventions.
    - A [uint16_t], [uint32_t], [size_t] or [int] value is a [Z]; every
      assignment to a narrower type is written out with the matching
      wrap-around function.
    - A C++ array is a map [Z -> Z] from index to content.  The static
      arrays of part_000 have declared lengths ([clean_flags_length],
      [accumulators_length], [accumulator_pointers_length]); an access
      beyond them is undefined behaviour, and the model does not say what
      it reads or overwrites.  For every call a function ([rewind_defined],
      [add_rsv_defined], ...) decides whether all its accesses are inside
      the arrays; what the theorems say about the contents of the arrays
      they say of calls that are.
    - A pointer into [accumulators] is the index of the cell it points to
      ([which - accumulators]); pointer comparison and pointer difference
      are comparison and difference of indices. *)

From Stdlib Require Import ZArith List Lia Bool String Permutation Sorted.
Import ListNotations.
Local Open Scope Z_scope.

(** ** Machine integers *)

Definition to_uint16 (x : Z) : Z := x mod 2 ^ 16.
Definition to_uint32 (x : Z) : Z := x mod 2 ^ 32.
Definition to_size_t (x : Z) : Z := x mod 2 ^ 64.

(** Conversion to a 32-bit [int] (two's complement). *)
Definition to_int (x : Z) : Z := (x + 2 ^ 31) mod 2 ^ 32 - 2 ^ 31.

(** ** Arrays as maps *)

Definition array := Z -> Z.

Definition store (a : array) (i v : Z) : array :=
  fun k => if k =? i then v else a k.

(** [memset(a + from, 0, count * sizeof(a[0]))] *)
Definition memset_zero (a : array) (from count : Z) : array :=
  fun k => if (from <=? k) && (k <? from + count) then 0 else a k.

(** ** The comparator *)

(** part_000, line 14:
    [*a > *b ? 1 : *a < *b ? -1 : a - b], returned as an [int]. *)
Definition add_rsv_compare (accumulators : array) (a b : Z) : Z :=
  if accumulators a >? accumulators b then 1
  else if accumulators a <? accumulators b then -1
  else to_int (a - b).

(** source/query_atire_global.h, line 12:
    [*a > *b ? 1 : *a < *b ? -1 : (a > b ? 1 : a < b ? -1 : 0)]. *)
Definition add_rsv_compare_h (accumulators : array) (a b : Z) : Z :=
  if accumulators a >? accumulators b then 1
  else if accumulators a <? accumulators b then -1
  else if a >? b then 1 else if a <? b then -1 else 0.

(** The file-level object [cmp] of part_000, line 25. *)
Definition cmp : array -> Z -> Z -> Z := add_rsv_compare.

(** The order the comparator decides: score first, then address. *)
Definition cell_lt (A : array) (a b : Z) : Prop :=
  A a < A b \/ (A a = A b /\ a < b).

Definition cell_le (A : array) (a b : Z) : Prop :=
  A a < A b \/ (A a = A b /\ a <= b).

(** ** Declared lengths of the static arrays (part_000, lines 17-19, 24) *)

Definition clean_flags_length : Z := 10.
Definition accumulators_length : Z := 200000.
Definition accumulator_pointers_length : Z := 200000.

(** The size given to the heap [top_results] over [accumulator_pointers]
    (part_000, line 24); the predecessor passes [top_k] there
    (query_atire_global.h, line 98). *)
Definition heap_size : Z := 10.

(** ** The heap over [accumulator_pointers] *)

Module heap.

(** Modelled from the spec: heap.h is not among the sources.  The heap is
    an implicit binary min-heap over the first [size] entries of the
    pointer array, root at index 0, children of [i] at [2i+1] and [2i+2],
    ordered by the comparator. *)

Definition swap (P : array) (i j : Z) : array :=
  store (store P i (P j)) j (P i).

(** The position, among [i] and its children inside the heap, of the
    entry that compares lowest. *)
Definition smallest (A P : array) (size i : Z) : Z :=
  let l := 2 * i + 1 in
  let r := 2 * i + 2 in
  let m := if (l <? size) && (cmp A (P l) (P i) <? 0) then l else i in
  if (r <? size) && (cmp A (P r) (P m) <? 0) then r else m.

(** Sift the entry at [i] down until neither child compares below it. *)
Fixpoint heapify (fuel : nat) (A P : array) (size i : Z) : array :=
  match fuel with
  | O => P
  | S fuel' =>
      let m := smallest A P size i in
      if m =? i then P else heapify fuel' A (swap P i m) size m
  end.

Definition sift_down (A P : array) (size i : Z) : array :=
  heapify (Z.to_nat size) A P size i.

(** Positions [k-1], [k-2], ..., [0] in turn. *)
Fixpoint make_heap_from (k : nat) (A P : array) (size : Z) : array :=
  match k with
  | O => P
  | S k' => make_heap_from k' A (sift_down A P size (Z.of_nat k')) size
  end.

(** Modelled from the spec: heapify [P[0..size)] bottom-up. *)
Definition make_heap (A P : array) (size : Z) : array :=
  make_heap_from (Z.to_nat (size / 2)) A P size.

(** Scan [count] entries from [i] for the pointer [x]. *)
Fixpoint find (count : nat) (P : array) (i x : Z) : option Z :=
  match count with
  | O => None
  | S count' => if P i =? x then Some i else find count' P (i + 1) x
  end.

(** Modelled from the spec: locate [x] by pointer equality and sift it
    down from its current index. *)
Definition promote (A P : array) (size x : Z) : array :=
  match find (Z.to_nat size) P 0 x with
  | Some i => sift_down A P size i
  | None => P
  end.

(** Modelled from the spec: replace the root with [x] and sift down. *)
Definition push_back (A P : array) (size x : Z) : array :=
  sift_down A (store P 0 x) size 0.

End heap.

(** ** The partial sort *)

Definition range (n : Z) : list Z := map Z.of_nat (seq 0 (Z.to_nat n)).

(** Write the list [l] into the array from index [from] on. *)
Fixpoint load (P : array) (from : Z) (l : list Z) : array :=
  match l with
  | [] => P
  | x :: rest => load (store P from x) (from + 1) rest
  end.

Definition above (A : array) (pivot x : Z) : bool := cmp A x pivot >? 0.

(** Modelled from the spec: top_k_qsort.h is not among the sources.  A
    quickselect variant: the elements above the pivot are ordered first;
    the elements below it are ordered only while fewer than [k] places
    are filled.  The first [min (length l) k] places end in descending
    order. *)
Fixpoint top_k_sort (fuel : nat) (A : array) (l : list Z) (k : Z) : list Z :=
  match fuel, l with
  | S fuel', pivot :: rest =>
      let hi := filter (above A pivot) rest in
      let lo := filter (fun x => negb (above A pivot x)) rest in
      let filled := Z.of_nat (List.length hi) + 1 in
      top_k_sort fuel' A hi k ++
      pivot :: (if filled <? k then top_k_sort fuel' A lo (k - filled) else lo)
  | _, _ => l
  end.

(** [top_k_qsort(accumulator_pointers, results_list_length, top_k)] *)
Definition top_k_qsort (A P : array) (length_of_list k : Z) : array :=
  let l := map P (range length_of_list) in
  load P 0 (top_k_sort (List.length l) A l k).

(** ** The engine: the globals of part_000 and the members of
    [query_atire_global] that the ranking uses *)

Record engine : Type := mk_engine {
  clean_flags : array;              (* uint8_t clean_flags[10] *)
  accumulators : array;             (* uint16_t accumulators[200000] *)
  accumulator_pointers : array;     (* uint16_t *accumulator_pointers[200000] *)
  accumulators_shift : Z;           (* uint32_t *)
  accumulators_width : Z;           (* uint32_t *)
  accumulators_height : Z;          (* uint32_t, a member of the class *)
  results_list_length : Z;          (* uint32_t *)
  top_k : Z;                        (* uint32_t *)
  primary_keys : list string        (* const std::vector<std::string> * *)
}.

Definition with_clean_flags (e : engine) (f : array) : engine :=
  mk_engine f (accumulators e) (accumulator_pointers e) (accumulators_shift e)
    (accumulators_width e) (accumulators_height e) (results_list_length e)
    (top_k e) (primary_keys e).

Definition with_accumulators (e : engine) (a : array) : engine :=
  mk_engine (clean_flags e) a (accumulator_pointers e) (accumulators_shift e)
    (accumulators_width e) (accumulators_height e) (results_list_length e)
    (top_k e) (primary_keys e).

Definition with_accumulator_pointers (e : engine) (p : array) : engine :=
  mk_engine (clean_flags e) (accumulators e) p (accumulators_shift e)
    (accumulators_width e) (accumulators_height e) (results_list_length e)
    (top_k e) (primary_keys e).

Definition with_results_list_length (e : engine) (n : Z) : engine :=
  mk_engine (clean_flags e) (accumulators e) (accumulator_pointers e)
    (accumulators_shift e) (accumulators_width e) (accumulators_height e) n
    (top_k e) (primary_keys e).

(** part_000, lines 153-159.  The parsed query that [rewind] also
    replaces belongs to the query parser and is not modelled.  The
    [memset] covers [accumulators_height] flags; it is inside
    [clean_flags] when [rewind_defined] holds, and only then is this the
    whole effect of the call. *)
Definition rewind (e : engine) : engine :=
  with_clean_flags (with_results_list_length e 0)
    (memset_zero (clean_flags e) 0 (accumulators_height e)).

(** [log2(sqrt((double)documents))] truncated towards zero on assignment
    to an unsigned integer, written as the integer part of the exact
    binary logarithm of the exact square root.  The computation in
    [double] yields that value when [documents] converts to [double]
    without rounding and the exact logarithm is not within the rounding
    error of [log2] (about 1e-15) below an integer.  Both hold for every
    [documents] below [2 ^ 31], where the logarithm is an integer or at
    least 6e-10 below the next one, and at [2 ^ 62 - 2 ^ 30], which has
    32 significant bits, a square root that rounds to [2 ^ 31 - 1/4] and a
    logarithm of 31 - 1.7e-10.  At other large values the code can
    compute one more than this function (at [2 ^ 54 - 1], which the
    conversion rounds to [2 ^ 54], it computes 27); no theorem uses the
    function there. *)
Definition log2_sqrt (documents : Z) : Z := Z.log2 (Z.sqrt documents).

(** The three quantities of part_000, lines 90-92, as numbers, before
    they are narrowed to the width of the variables that hold them.  The
    fields that the constructor assigns are these for [documents] below
    [2 ^ 31] ([constructor_fields]); the theorems are about the fields. *)
Definition strip_shift (documents : Z) : Z := log2_sqrt documents.
Definition strip_width (documents : Z) : Z := Z.shiftl 1 (strip_shift documents).
Definition strip_count (documents : Z) : Z :=
  (documents + strip_width documents) / strip_width documents.

(** part_000, lines 88-99: the constructor assigns the globals and calls
    [rewind]; it has no other path.  [g] is the state of the globals
    when the constructor runs. *)
Definition query_atire_global
    (g : engine) (keys : list string) (documents top_k : Z) : engine :=
  let shift := to_uint32 (log2_sqrt documents) in
  let width := to_uint32 (Z.shiftl 1 shift) in
  let height := to_uint32 (to_size_t (documents + width) / width) in
  rewind
    (mk_engine (clean_flags g) (accumulators g) (accumulator_pointers g)
       shift width height (results_list_length g) (to_uint32 top_k) keys).

(** The outcome of a construction: an engine, or the rejection of the
    arguments.  The source has no statement that produces the second. *)
Inductive construction : Type :=
| constructed (e : engine)
| invalid_argument.

Definition construct
    (g : engine) (keys : list string) (documents top_k : Z) : construction :=
  constructed (query_atire_global g keys documents top_k).

(** The lazy clearing at the head of [add_rsv], part_000, lines 168-172.
    The flag is inside [clean_flags] and the strip inside [accumulators]
    when [touch_defined] holds, and only then is this the whole effect of
    the lines. *)
Definition touch (e : engine) (docid : Z) : engine :=
  let strip := Z.shiftr docid (accumulators_shift e) in
  if clean_flags e strip =? 0 then
    with_accumulators
      (with_clean_flags e (store (clean_flags e) strip 1))
      (memset_zero (accumulators e)
         (to_uint32 (accumulators_width e * strip)) (accumulators_width e))
  else e.

(** [*which += score] on a [uint16_t] cell. *)
Definition add_score (e : engine) (which score : Z) : engine :=
  with_accumulators e
    (store (accumulators e) which (to_uint16 (accumulators e which + score))).

(** The block of [add_rsv] under the comment "Maintain a heap",
    part_000, lines 177-207. *)
Definition maintain_heap (e : engine) (which score : Z) : engine :=
  if results_list_length e <? top_k e then
    let old_value := accumulators e which in
    let e := add_score e which score in
    let e :=
      if old_value =? 0 then
        with_results_list_length
          (with_accumulator_pointers e
             (store (accumulator_pointers e) (results_list_length e) which))
          (to_uint32 (results_list_length e + 1))
      else e in
    if results_list_length e =? top_k e then
      with_accumulator_pointers e
        (heap.make_heap (accumulators e) (accumulator_pointers e) heap_size)
    else e
  else if cmp (accumulators e) which (accumulator_pointers e 0) >=? 0 then
    let e := add_score e which score in
    with_accumulator_pointers e
      (heap.promote (accumulators e) (accumulator_pointers e) heap_size which)
  else
    let e := add_score e which score in
    if cmp (accumulators e) which (accumulator_pointers e 0) >? 0 then
      with_accumulator_pointers e
        (heap.push_back (accumulators e) (accumulator_pointers e) heap_size which)
    else e.

(** part_000, lines 161-208: [which = accumulators + docid], the lazy
    clearing, then the heap. *)
Definition add_rsv (e : engine) (docid score : Z) : engine :=
  let which := docid in
  maintain_heap (touch e docid) which score.

(** The value [add_rsv] finds in the cell before it adds the score. *)
Definition old_value_read (e : engine) (docid : Z) : Z :=
  accumulators (touch e docid) docid.

(** part_000, lines 107-110. *)
Definition sort (e : engine) : engine :=
  with_accumulator_pointers e
    (top_k_qsort (accumulators e) (accumulator_pointers e)
       (results_list_length e) (top_k e)).

(** [iterator::operator*], part_000, lines 72-76. *)
Definition dereference (e : engine) (position : Z) : Z * string * Z :=
  let id := accumulator_pointers e position in
  (id, nth (Z.to_nat id) (primary_keys e) EmptyString, accumulators e id).

(** [for (auto it = begin(); it != end(); ++it)]: [begin] sorts and
    starts at 0, [end] is at [results_list_length]. *)
Definition results (e : engine) : list (Z * string * Z) :=
  let e := sort e in
  map (dereference e) (range (results_list_length e)).

(** A sequence of [add_rsv] calls. *)
Definition call := (Z * Z)%type.

Definition run (e : engine) (calls : list call) : engine :=
  fold_left (fun e c => add_rsv e (fst c) (snd c)) calls e.

(** The globals as static initialisation leaves them: all zero.  The
    null pointers of the pointer array are written 0 here; an entry that
    [add_rsv] has not assigned is read only by the calls that
    [maintain_heap_defined] excludes. *)
Definition startup : engine :=
  mk_engine (fun _ => 0) (fun _ => 0) (fun _ => 0) 0 0 0 0 0 [].

(** ** The brute-force reference *)

(** The sum of all scores supplied for [d]. *)
Definition total (calls : list call) (d : Z) : Z :=
  fold_right (fun c acc => if fst c =? d then snd c + acc else acc) 0 calls.

(** [x] ranks above [y]: greater total, or equal total and greater id. *)
Definition ranks_above (x y : Z * Z) : bool :=
  (snd y <? snd x) || ((snd x =? snd y) && (fst y <? fst x)).

Fixpoint insert_desc (x : Z * Z) (l : list (Z * Z)) : list (Z * Z) :=
  match l with
  | [] => [x]
  | y :: rest => if ranks_above x y then x :: l else y :: insert_desc x rest
  end.

Definition sort_desc (l : list (Z * Z)) : list (Z * Z) :=
  fold_right insert_desc [] l.

(** The documents with a positive total, each with its total. *)
Definition scored (documents : Z) (calls : list call) : list (Z * Z) :=
  filter (fun p => 0 <? snd p)
    (map (fun d => (d, total calls d)) (range documents)).

(** The [top_k] greatest of them, greatest first, as result triples. *)
Definition brute_force
    (keys : list string) (documents top_k : Z) (calls : list call)
    : list (Z * string * Z) :=
  map (fun p => (fst p, nth (Z.to_nat (fst p)) keys EmptyString, snd p))
    (firstn (Z.to_nat top_k) (sort_desc (scored documents calls))).

(** ** The fixed-buffer allocator (unnamed/part_001) *)

Record allocator_memory : Type := mk_allocator {
  buffer : Z;        (* uint8_t *, the address of the first byte *)
  used : Z;          (* std::atomic<size_t> *)
  allocated : Z      (* size_t, the capacity *)
}.

(** Modelled from the spec: the two-argument [realign] is declared in
    allocator_memory.h, which is not among the sources.  It is the number
    of leading bytes needed to bring [address] to a multiple of
    [boundary], as [allocator_memory::realign] of the earlier revision
    computes it for [used]. *)
Definition realign (address boundary : Z) : Z :=
  if address mod boundary =? 0 then 0 else boundary - address mod boundary.

(** What a call of [malloc] does: it returns a pointer ([None] for
    [nullptr]) and leaves the allocator in a new state, or it ends the
    process through [exit]. *)
Inductive malloc_outcome : Type :=
| returned (answer : option Z) (a : allocator_memory)
| exited.

(** part_001, lines 18-62.  With one thread the compare-exchange that
    closes the loop succeeds at once, so the body runs once.  The
    [exit(printf(...))] in the failing branch is live code (the
    preprocessor lines around it are commented out); the [return nullptr]
    that follows it is not reached. *)
Definition malloc (a : allocator_memory) (bytes alignment : Z) : malloc_outcome :=
  let already_used := used a in
  let padding := if alignment =? 1 then 0 else realign already_used alignment in
  if to_size_t (to_size_t (already_used + bytes) + padding) >? allocated a then
    exited
  else
    let answer := buffer a + already_used + padding in
    let new_used := to_size_t (to_size_t (already_used + bytes) + padding) in
    returned (Some answer) (mk_allocator (buffer a) new_used (allocated a)).

Definition size (a : allocator_memory) : Z := used a.
Definition capacity (a : allocator_memory) : Z := allocated a.

(** ** Sequences of calls on one engine *)

Inductive operation : Type :=
| op_add_rsv (docid score : Z)
| op_rewind.

Definition apply_operation (e : engine) (o : operation) : engine :=
  match o with
  | op_add_rsv docid score => add_rsv e docid score
  | op_rewind => rewind e
  end.

Definition after (e : engine) (ops : list operation) : engine :=
  fold_left apply_operation ops e.

(** ** Well-formed geometry *)

(** What the constructor establishes about the strips: the width is two
    to the shift.  [add_rsv] and [rewind] leave both untouched. *)
Definition geometry (e : engine) : Prop :=
  0 <= accumulators_shift e /\
  accumulators_width e = 2 ^ accumulators_shift e.

(** The strip that [add_rsv] computes for a document. *)
Definition strip_of (e : engine) (docid : Z) : Z :=
  Z.shiftr docid (accumulators_shift e).

(** The cell of [d] still reads as zero: its strip is clean or the cell
    holds zero. *)
Definition reads_zero (e : engine) (d : Z) : Prop :=
  clean_flags e (strip_of e d) = 0 \/ accumulators e d = 0.

(** ** Predicates on the pointer array *)

(** [x] is one of the first [n] pointers. *)
Definition tracked (P : array) (n x : Z) : Prop :=
  exists i, 0 <= i < n /\ P i = x.

(** No pointer occurs twice among the first [n]. *)
Definition distinct (P : array) (n : Z) : Prop :=
  forall i j, 0 <= i < n -> 0 <= j < n -> P i = P j -> i = j.

(** Every one of the first [n] pointers is a cell below [bound]. *)
Definition cells_below (P : array) (n bound : Z) : Prop :=
  forall i, 0 <= i < n -> 0 <= P i < bound.

Definition child (c i : Z) : Prop := c = 2 * i + 1 \/ c = 2 * i + 2.

(** The min-heap property at every parent from [k] on. *)
Definition heap_ok (A P : array) (n k : Z) : Prop :=
  forall i c, k <= i -> child c i -> c < n -> cell_le A (P i) (P c).

(** The heap property everywhere from [k] on except below the entry at
    [h], whose children are nevertheless not below its parent. *)
Definition heap_hole (A P : array) (n k h : Z) : Prop :=
  (forall i c, k <= i -> i <> h -> child c i -> c < n ->
     cell_le A (P i) (P c)) /\
  (forall p c, k <= p -> child h p -> child c h -> c < n ->
     cell_le A (P p) (P c)).

(** [P'] holds the same pointers as [P] among the first [n], in some
    order, and agrees with [P] elsewhere. *)
Definition rearranged (P P' : array) (n : Z) : Prop :=
  (forall i, ~ 0 <= i < n -> P' i = P i) /\
  (forall x, tracked P n x <-> tracked P' n x) /\
  (distinct P n -> distinct P' n).

(** The index that [swap] reads at [k]. *)
Definition source (i j k : Z) : Z :=
  if k =? j then i else if k =? i then j else k.

(** ** The invariant of a query *)

(** The accumulators hold the totals: a document whose strip is clean
    has received nothing since the rewind, and the cell of a document
    whose strip is dirty holds the sum of what it received. *)
Definition memory_ok (documents : Z) (calls : list call) (e : engine) : Prop :=
  geometry e /\
  (forall d, 0 <= total calls d) /\
  (forall d, 0 <= d < documents ->
     clean_flags e (strip_of e d) = 0 -> total calls d = 0) /\
  (forall d, 0 <= d < documents ->
     clean_flags e (strip_of e d) <> 0 -> accumulators e d = total calls d).

(** The pointer list against the totals [T]: it tracks distinct
    documents with positive totals; while it is not full it tracks all
    of them; once it is full it is a min-heap and every other document
    with a positive total ranks below every tracked one. *)
Definition list_ok (documents : Z) (T P : array) (L K : Z) : Prop :=
  K = heap_size /\
  0 <= L <= K /\
  (forall x, tracked P L x -> 0 <= x < documents /\ 0 < T x) /\
  distinct P L /\
  (L < K -> forall d, 0 <= d < documents -> 0 < T d -> tracked P L d) /\
  (L = K -> heap_ok T P K 0) /\
  (L = K -> forall d x, 0 <= d < documents -> 0 < T d ->
     ~ tracked P L d -> tracked P L x -> cell_lt T d x).

Definition invariant (documents : Z) (calls : list call) (e : engine) : Prop :=
  memory_ok documents calls e /\
  list_ok documents (total calls) (accumulator_pointers e)
    (results_list_length e) (top_k e).

(** Two engine states with the same flags, cells and geometry. *)
Definition same_memory (e e' : engine) : Prop :=
  clean_flags e' = clean_flags e /\
  accumulators e' = accumulators e /\
  accumulators_shift e' = accumulators_shift e /\
  accumulators_width e' = accumulators_width e.

(** ** Well-formed queries *)

(** Every call names a document below [documents] and carries a
    positive score. *)
Definition valid_calls (documents : Z) (calls : list call) : Prop :=
  Forall (fun c => 0 <= fst c < documents /\ 0 < snd c) calls.

(** No total leaves the range of a [uint16_t] cell. *)
Definition no_overflow (calls : list call) : Prop :=
  forall d, total calls d < 2 ^ 16.

(** An engine set up for [documents] documents with the list length the
    heap is built for. *)
Definition configured (documents : Z) (e : engine) : Prop :=
  geometry e /\
  top_k e = heap_size /\
  (forall d, 0 <= d < documents -> strip_of e d < accumulators_height e).

(** ** Orders on lists *)

(** [x] does not rank below [y] among cells scored by [A]. *)
Definition cell_ge (A : array) (x y : Z) : Prop := cell_le A y x.

(** [x] does not rank below [y] among (document, total) pairs. *)
Definition pair_ge (x y : Z * Z) : Prop := ranks_above y x = false.

(** The engine after construction with [top_k] equal to the size of the
    heap, some earlier calls, a [rewind] and the calls of one query. *)
Definition query_state
    (g : engine) (keys : list string) (documents : Z)
    (ops : list operation) (calls : list call) : engine :=
  run (rewind (after (query_atire_global g keys documents heap_size) ops)) calls.


(** ** The other operations of the fixed-buffer allocator *)

Module fixed_buffer.

(** [allocator_memory::rewind], part_001, lines 68-71. *)
Definition rewind (a : allocator_memory) : allocator_memory :=
  mk_allocator (buffer a) 0 (allocated a).

End fixed_buffer.

(** The earlier revision, source/allocator_memory.cpp. *)
Module fixed_buffer_earlier.

(** Lines 17-40: [malloc(bytes)], without alignment.  As in the later
    revision the [exit] of the failing branch is live. *)
Definition malloc (a : allocator_memory) (bytes : Z) : malloc_outcome :=
  if to_size_t (used a + bytes) >? allocated a then exited
  else
    returned (Some (buffer a + used a))
      (mk_allocator (buffer a) (to_size_t (used a + bytes)) (allocated a)).

(** Lines 46-57: [realign()].  [alignment_boundary] is a constant of
    allocator_memory.h, which is not among the sources (the comment gives
    it as [sizeof(void * )]); it is taken as an argument. *)
Definition realign (alignment_boundary : Z) (a : allocator_memory)
    : allocator_memory :=
  let padding :=
    if used a mod alignment_boundary =? 0 then 0
    else alignment_boundary - used a mod alignment_boundary in
  mk_allocator (buffer a) (to_size_t (used a + padding)) (allocated a).

(** Lines 63-66. *)
Definition rewind (a : allocator_memory) : allocator_memory :=
  mk_allocator (buffer a) 0 (allocated a).

End fixed_buffer_earlier.

(** ** The chained allocator (source/allocator.h) *)

Module chained.

Record allocator : Type := mk_allocator {
  current_chunk : Z;     (* chunk *, the address of the newest chunk *)
  chunk_at : Z;          (* uint8_t *, the next byte to hand out *)
  chunk_end : Z;         (* uint8_t *, the end of the current chunk *)
  used : Z;              (* size_t *)
  allocated : Z;         (* size_t *)
  block_size : Z         (* size_t *)
}.

Inductive malloc_outcome : Type :=
| returned (answer : Z) (a : allocator)
| exited.

(** Lines 215-251, compiled for a machine other than ARM.  [add_chunk]
    is declared in the class and defined in a file that is not among the
    sources; it is taken as an argument that yields [None] for [NULL]
    and otherwise the allocator as [add_chunk] leaves it.  The pointer
    sum [chunk_at + bytes] is written without wrap-around: a sum beyond
    the address space is undefined for pointers, and the property proved
    of this function assumes requests that fit the chunk. *)
Definition malloc (add_chunk : allocator -> Z -> option allocator)
    (a : allocator) (bytes : Z) : malloc_outcome :=
  let grown :=
    if chunk_at a + bytes >? chunk_end a then add_chunk a bytes else Some a in
  match grown with
  | None => exited
  | Some a =>
      returned (chunk_at a)
        (mk_allocator (current_chunk a) (chunk_at a + bytes) (chunk_end a)
           (to_size_t (used a + bytes)) (allocated a) (block_size a))
  end.

(** Lines 160-176. *)
Definition capacity (a : allocator) : Z := allocated a.
Definition size (a : allocator) : Z := used a.

End chained.

(** ** The accumulators with their wrap-around *)

(** The strips of the engine cover the documents. *)
Definition covers (documents : Z) (e : engine) : Prop :=
  geometry e /\
  (forall d, 0 <= d < documents -> strip_of e d < accumulators_height e).

(** The cells hold the totals as 16-bit values: a document whose strip
    is clean has received nothing since the rewind, and the cell of a
    document whose strip is dirty holds the sum of what it received,
    reduced to 16 bits. *)
Definition memory_wraps (documents : Z) (calls : list call) (e : engine) : Prop :=
  geometry e /\
  (forall d, 0 <= d < documents ->
     clean_flags e (strip_of e d) = 0 -> total calls d = 0) /\
  (forall d, 0 <= d < documents ->
     clean_flags e (strip_of e d) <> 0 ->
     accumulators e d = to_uint16 (total calls d)).

(** One result ranks strictly above another: greater score, or equal
    score and greater document identifier. *)
Definition result_above (x y : Z * string * Z) : Prop :=
  snd y < snd x \/ (snd x = snd y /\ fst (fst y) < fst (fst x)).

(** ** The predecessor: source/query_atire_global.h *)

Module ANT_heap.

(** Modelled from the spec: the class [ANT_heap] is not among the
    sources.  [build_min_heap], [min_update] and [min_insert] are taken
    to be the [make_heap], [promote] and [push_back] of the spec's
    bounded min-heap, over the comparator of this file. *)

Definition smallest (A P : array) (size i : Z) : Z :=
  let l := 2 * i + 1 in
  let r := 2 * i + 2 in
  let m :=
    if (l <? size) && (add_rsv_compare_h A (P l) (P i) <? 0) then l else i in
  if (r <? size) && (add_rsv_compare_h A (P r) (P m) <? 0) then r else m.

Fixpoint heapify (fuel : nat) (A P : array) (size i : Z) : array :=
  match fuel with
  | O => P
  | S fuel' =>
      let m := smallest A P size i in
      if m =? i then P else heapify fuel' A (heap.swap P i m) size m
  end.

Definition sift_down (A P : array) (size i : Z) : array :=
  heapify (Z.to_nat size) A P size i.

Fixpoint build_from (k : nat) (A P : array) (size : Z) : array :=
  match k with
  | O => P
  | S k' => build_from k' A (sift_down A P size (Z.of_nat k')) size
  end.

Definition build_min_heap (A P : array) (size : Z) : array :=
  build_from (Z.to_nat (size / 2)) A P size.

Definition min_update (A P : array) (size x : Z) : array :=
  match heap.find (Z.to_nat size) P 0 x with
  | Some i => sift_down A P size i
  | None => P
  end.

Definition min_insert (A P : array) (size x : Z) : array :=
  sift_down A (store P 0 x) size 0.

End ANT_heap.

Module predecessor.

(** Lines 90-106.  The three arrays come from [new] and hold whatever
    the store holds ([new_accumulator_pointers], [new_accumulators],
    [new_clean_flags]); only the flags are cleared.  The heap is built
    over the pointer array with size [top_k].  [results_list_length] is
    not assigned.  The parser, the parsed query and [JASS::documents],
    which nothing in the file reads, are not modelled. *)
Definition query_atire_global
    (g : engine)
    (new_accumulator_pointers new_accumulators new_clean_flags : array)
    (keys : list string) (documents top_k : Z) : engine :=
  let shift := to_size_t (log2_sqrt documents) in
  let width := to_size_t (to_int (Z.shiftl 1 shift)) in
  let height := to_size_t (documents + width) / width in
  mk_engine (memset_zero new_clean_flags 0 height) new_accumulators
    new_accumulator_pointers shift width height (results_list_length g)
    (to_size_t top_k) keys.

(** Lines 157-161. *)
Definition rewind (e : engine) : engine :=
  with_clean_flags (with_results_list_length e 0)
    (memset_zero (clean_flags e) 0 (accumulators_height e)).

(** Lines 174-178. *)
Definition touch (e : engine) (docid : Z) : engine :=
  let strip := Z.shiftr docid (accumulators_shift e) in
  if clean_flags e strip =? 0 then
    with_accumulators
      (with_clean_flags e (store (clean_flags e) strip 1))
      (memset_zero (accumulators e)
         (to_size_t (accumulators_width e * strip)) (accumulators_width e))
  else e.

(** Lines 183-213. *)
Definition maintain_heap (e : engine) (which score : Z) : engine :=
  if results_list_length e <? top_k e then
    let old_value := accumulators e which in
    let e := add_score e which score in
    let e :=
      if old_value =? 0 then
        with_results_list_length
          (with_accumulator_pointers e
             (store (accumulator_pointers e) (results_list_length e) which))
          (to_size_t (results_list_length e + 1))
      else e in
    if results_list_length e =? top_k e then
      with_accumulator_pointers e
        (ANT_heap.build_min_heap (accumulators e) (accumulator_pointers e)
           (top_k e))
    else e
  else if add_rsv_compare_h (accumulators e) which (accumulator_pointers e 0)
            >=? 0 then
    let e := add_score e which score in
    with_accumulator_pointers e
      (ANT_heap.min_update (accumulators e) (accumulator_pointers e)
         (top_k e) which)
  else
    let e := add_score e which score in
    if add_rsv_compare_h (accumulators e) which (accumulator_pointers e 0)
         >? 0 then
      with_accumulator_pointers e
        (ANT_heap.min_insert (accumulators e) (accumulator_pointers e)
           (top_k e) which)
    else e.

(** Lines 165-214. *)
Definition add_rsv (e : engine) (docid score : Z) : engine :=
  let which := docid in
  maintain_heap (touch e docid) which score.

(** Lines 108-111. *)
Definition sort (e : engine) : engine :=
  with_accumulator_pointers e
    (top_k_qsort (accumulators e) (accumulator_pointers e)
       (results_list_length e) (top_k e)).

Definition run (e : engine) (calls : list call) : engine :=
  fold_left (fun e c => add_rsv e (fst c) (snd c)) calls e.

(** The sorted pointer list with the scores it points to: the document
    and score that the iterator computes at each position
    ([accumulator_pointers[where] - accumulators] and
    [accumulators[id]]).  The key expression of the iterator,
    [parent->primary_keys[id]], indexes the pointer to the vector rather
    than the vector and is left out. *)
Definition ranking (e : engine) : list (Z * Z) :=
  let e := sort e in
  map (fun position =>
         let id := accumulator_pointers e position in
         (id, accumulators e id))
    (range (results_list_length e)).

End predecessor.

(** The pointer list against the totals for a heap over the whole list
    of [K] pointers. *)
Definition list_ok_sized (documents : Z) (T P : array) (L K : Z) : Prop :=
  0 < K /\
  0 <= L <= K /\
  (forall x, tracked P L x -> 0 <= x < documents /\ 0 < T x) /\
  distinct P L /\
  (L < K -> forall d, 0 <= d < documents -> 0 < T d -> tracked P L d) /\
  (L = K -> heap_ok T P K 0) /\
  (L = K -> forall d x, 0 <= d < documents -> 0 < T d ->
     ~ tracked P L d -> tracked P L x -> cell_lt T d x).

Definition invariant_sized (documents : Z) (calls : list call) (e : engine)
    : Prop :=
  memory_ok documents calls e /\
  list_ok_sized documents (total calls) (accumulator_pointers e)
    (results_list_length e) (top_k e).

(** The top [k] of the scored documents as (document, total) pairs. *)
Definition top_scored (documents k : Z) (calls : list call) : list (Z * Z) :=
  firstn (Z.to_nat k) (sort_desc (scored documents calls)).

(** An engine of the predecessor set up for [documents] documents. *)
Definition configured_sized (documents : Z) (e : engine) : Prop :=
  geometry e /\
  0 < top_k e < 2 ^ 64 /\
  (forall d, 0 <= d < documents -> strip_of e d < accumulators_height e).

(** Calls on one engine of the predecessor. *)
Definition predecessor_after (e : engine) (ops : list operation) : engine :=
  fold_left
    (fun e o =>
       match o with
       | op_add_rsv docid score => predecessor.add_rsv e docid score
       | op_rewind => predecessor.rewind e
       end) ops e.

(** The predecessor after construction, some earlier calls, a [rewind]
    and the calls of one query. *)
Definition predecessor_query
    (g : engine) (np na nf : array) (keys : list string) (documents k : Z)
    (ops : list operation) (calls : list call) : engine :=
  predecessor.run
    (predecessor.rewind
       (predecessor_after
          (predecessor.query_atire_global g np na nf keys documents k) ops))
    calls.

(** ** Accesses inside the static arrays *)

(** The functions above say what each line does to the cells it names.
    The program is defined only while those cells exist: [clean_flags]
    has 10 entries, [accumulators] and [accumulator_pointers] have 200000
    each (part_000, lines 17-19); an access outside them is undefined
    behaviour, which on a real machine reads or overwrites whatever lies
    next to the array.  The functions below decide, call by call, whether
    every access of the call is inside the declared arrays.  The theorems
    about the contents of the static arrays are stated for the calls for
    which they answer [true], and say nothing about the others. *)

(** [rewind]: the [memset] writes [clean_flags[0 .. accumulators_height)]. *)
Definition rewind_defined (e : engine) : bool :=
  accumulators_height e <=? clean_flags_length.

(** The constructor: [log2(sqrt(0))] has no unsigned value, [1 << shift]
    shifts an [int], and the last statement is a [rewind]. *)
Definition query_atire_global_defined
    (g : engine) (keys : list string) (documents top_k : Z) : bool :=
  (1 <=? documents) && (log2_sqrt documents <? 31) &&
  rewind_defined (query_atire_global g keys documents top_k).

(** Lines 168-172 of [add_rsv]: [docid] is shifted as a 32-bit value; the
    flag read (and written) is [clean_flags[docid >> accumulators_shift]],
    and for a clean strip the [memset] writes [accumulators_width] cells
    from the start of the strip. *)
Definition touch_defined (e : engine) (docid : Z) : bool :=
  let strip := Z.shiftr docid (accumulators_shift e) in
  (accumulators_shift e <? 32) &&
  (0 <=? strip) && (strip <? clean_flags_length) &&
  (if clean_flags e strip =? 0 then
     to_uint32 (accumulators_width e * strip) + accumulators_width e
       <=? accumulators_length
   else true).

(** Modelled from the spec: heap.h is not among the sources.  The spec
    gives [promote] a pointer that is known to be in the heap already;
    what the function does with any other pointer is not described, and
    such a call is not counted as defined. *)
Definition promote_defined (P : array) (size x : Z) : bool :=
  match heap.find (Z.to_nat size) P 0 x with
  | Some _ => true
  | None => false
  end.

(** Lines 177-207 of [add_rsv]: the cell [*which] is read and written; a
    new pointer is written at [accumulator_pointers[results_list_length]];
    the heap of line 24 spans the first [heap_size] pointers whatever
    [top_k] is, and its operations read and dereference all of them.
    Those have been assigned once the list is full only when [top_k] is
    at least [heap_size]; with [top_k = 0] the comparison of line 191
    already dereferences the null pointer in [accumulator_pointers[0]].
    The call of [promote] in line 197 has to respect [promote_defined]. *)
Definition maintain_heap_defined (e : engine) (which : Z) : bool :=
  (0 <=? which) && (which <? accumulators_length) &&
  (if results_list_length e <? top_k e then
     if accumulators e which =? 0 then
       (results_list_length e <? accumulator_pointers_length) &&
       (if to_uint32 (results_list_length e + 1) =? top_k e
        then heap_size <=? top_k e else true)
     else true
   else if cmp (accumulators e) which (accumulator_pointers e 0) >=? 0 then
     (heap_size <=? top_k e) &&
     promote_defined (accumulator_pointers e) heap_size which
   else heap_size <=? top_k e).

Definition add_rsv_defined (e : engine) (docid : Z) : bool :=
  touch_defined e docid && maintain_heap_defined (touch e docid) docid.

(** [iterator::operator*] at one position: the pointer read, the cell it
    points to and the key of that document are all there. *)
Definition dereference_defined (e : engine) (position : Z) : bool :=
  let id := accumulator_pointers e position in
  (0 <=? position) && (position <? accumulator_pointers_length) &&
  (0 <=? id) && (id <? accumulators_length) &&
  (id <? Z.of_nat (List.length (primary_keys e))).

(** The iteration from [begin()] to [end()]: the sort works on the first
    [results_list_length] pointers and every position is dereferenced. *)
Definition results_defined (e : engine) : bool :=
  (results_list_length e <=? accumulator_pointers_length) &&
  forallb (dereference_defined (sort e)) (range (results_list_length e)).

Definition operation_defined (e : engine) (o : operation) : bool :=
  match o with
  | op_add_rsv docid _ => add_rsv_defined e docid
  | op_rewind => rewind_defined e
  end.

Fixpoint after_defined (e : engine) (ops : list operation) : bool :=
  match ops with
  | [] => true
  | o :: rest =>
      operation_defined e o && after_defined (apply_operation e o) rest
  end.

Fixpoint run_defined (e : engine) (calls : list call) : bool :=
  match calls with
  | [] => true
  | c :: rest =>
      add_rsv_defined e (fst c) && run_defined (add_rsv e (fst c) (snd c)) rest
  end.

(** Construction, the calls [ops] that came before, a [rewind] and the
    calls of one query: every access is inside the arrays. *)
Definition calls_defined
    (g : engine) (keys : list string) (documents top_k : Z)
    (ops : list operation) (calls : list call) : bool :=
  let e := query_atire_global g keys documents top_k in
  query_atire_global_defined g keys documents top_k &&
  after_defined e ops &&
  rewind_defined (after e ops) &&
  run_defined (rewind (after e ops)) calls.

(** The same and the iteration that follows. *)
Definition query_defined
    (g : engine) (keys : list string) (documents top_k : Z)
    (ops : list operation) (calls : list call) : bool :=
  calls_defined g keys documents top_k ops calls &&
  results_defined
    (run (rewind (after (query_atire_global g keys documents top_k) ops)) calls).

(** An engine whose strips, cells and list lie inside the static arrays. *)
Definition inside_arrays (documents : Z) (e : engine) : Prop :=
  geometry e /\
  accumulators_shift e < 32 /\
  documents <= 2 ^ 31 /\
  accumulators_height e <= clean_flags_length /\
  accumulators_width e * accumulators_height e <= accumulators_length /\
  (forall d, 0 <= d < documents -> strip_of e d < accumulators_height e) /\
  heap_size <= top_k e <= accumulator_pointers_length /\
  0 <= results_list_length e <= top_k e.

(** * Properties *)

(** ** Machine integers *)

Lemma to_uint16_small (x : Z) : 0 <= x < 2 ^ 16 -> to_uint16 x = x.
Proof. intros H. unfold to_uint16. now apply Z.mod_small. Qed.

Lemma to_uint32_small (x : Z) : 0 <= x < 2 ^ 32 -> to_uint32 x = x.
Proof. intros H. unfold to_uint32. now apply Z.mod_small. Qed.

Lemma to_size_t_small (x : Z) : 0 <= x < 2 ^ 64 -> to_size_t x = x.
Proof. intros H. unfold to_size_t. now apply Z.mod_small. Qed.

Lemma to_int_small (x : Z) : - 2 ^ 31 <= x < 2 ^ 31 -> to_int x = x.
Proof.
  intros H. unfold to_int. rewrite Z.mod_small; lia.
Qed.

(** ** The comparator *)

Section Comparator.

Variable A : array.
Variables a b : Z.
Hypothesis near : - 2 ^ 31 <= a - b < 2 ^ 31.

Lemma cmp_unfold :
  cmp A a b =
  if A a >? A b then 1 else if A a <? A b then -1 else a - b.
Proof.
  unfold cmp, add_rsv_compare. now rewrite to_int_small.
Qed.

Lemma cmp_positive : 0 < cmp A a b <-> cell_lt A b a.
Proof.
  rewrite cmp_unfold. unfold cell_lt.
  destruct (Z.gtb_spec (A a) (A b)); [lia|].
  destruct (Z.ltb_spec (A a) (A b)); lia.
Qed.

Lemma cmp_negative : cmp A a b < 0 <-> cell_lt A a b.
Proof.
  rewrite cmp_unfold. unfold cell_lt.
  destruct (Z.gtb_spec (A a) (A b)); [lia|].
  destruct (Z.ltb_spec (A a) (A b)); lia.
Qed.

Lemma cmp_zero : cmp A a b = 0 <-> a = b.
Proof.
  rewrite cmp_unfold.
  destruct (Z.gtb_spec (A a) (A b));
    [split; intro E; [lia | rewrite E in *; lia]|].
  destruct (Z.ltb_spec (A a) (A b));
    [split; intro E; [lia | rewrite E in *; lia]|].
  lia.
Qed.

Lemma cmp_nonnegative : 0 <= cmp A a b <-> cell_le A b a.
Proof.
  rewrite cmp_unfold. unfold cell_le.
  destruct (Z.gtb_spec (A a) (A b)); [lia|].
  destruct (Z.ltb_spec (A a) (A b)); lia.
Qed.

End Comparator.

(** C6, as the claim states it, fails on the comparator of part_000: two
    cells with equal scores three places apart compare as [3]. *)
Lemma add_rsv_compare_returns_difference :
  add_rsv_compare (fun _ => 7) 5 2 = 3 /\
  ~ (add_rsv_compare (fun _ => 7) 5 2 = 1 \/
     add_rsv_compare (fun _ => 7) 5 2 = -1 \/
     add_rsv_compare (fun _ => 7) 5 2 = 0).
Proof.
  assert (E : add_rsv_compare (fun _ => 7) 5 2 = 3) by reflexivity.
  split; [exact E|]. rewrite E. lia.
Qed.

(** C6, amended.  For two cells of the accumulator array the comparator
    of part_000 returns [1] when the first score is greater, [-1] when it
    is smaller, and on equal scores the difference of the two addresses:
    its sign decides the lexicographic order on (score, address), higher
    addresses rank higher on ties, and it is [0] only when the pointers
    are equal. *)
Theorem add_rsv_compare_sign (A : array) (a b : Z)
    (Ha : 0 <= a < accumulators_length) (Hb : 0 <= b < accumulators_length) :
  (A a > A b -> add_rsv_compare A a b = 1) /\
  (A a < A b -> add_rsv_compare A a b = -1) /\
  (A a = A b -> add_rsv_compare A a b = a - b) /\
  (0 < add_rsv_compare A a b <-> cell_lt A b a) /\
  (add_rsv_compare A a b < 0 <-> cell_lt A a b) /\
  (add_rsv_compare A a b = 0 <-> a = b).
Proof.
  unfold accumulators_length in *.
  assert (P31 : 2 ^ 31 = 2147483648) by reflexivity.
  assert (near : - 2 ^ 31 <= a - b < 2 ^ 31) by lia.
  pose proof (cmp_unfold A a b near) as U. unfold cmp in U.
  repeat split; try intros H.
  - rewrite U. destruct (Z.gtb_spec (A a) (A b)); lia.
  - rewrite U. destruct (Z.gtb_spec (A a) (A b)); [lia|].
    destruct (Z.ltb_spec (A a) (A b)); lia.
  - rewrite U. destruct (Z.gtb_spec (A a) (A b)); [lia|].
    destruct (Z.ltb_spec (A a) (A b)); lia.
  - now apply (cmp_positive A a b near).
  - now apply (cmp_positive A a b near).
  - now apply (cmp_negative A a b near).
  - now apply (cmp_negative A a b near).
  - now apply (cmp_zero A a b near).
  - now apply (cmp_zero A a b near).
Qed.

Lemma add_rsv_compare_sign_witness :
  add_rsv_compare (fun _ => 7) 5 2 = 5 - 2.
Proof.
  apply (add_rsv_compare_sign (fun _ => 7) 5 2);
    unfold accumulators_length; try lia; reflexivity.
Defined.

(** The comparator of the predecessor (query_atire_global.h) does return
    one of [1], [-1] and [0]. *)
Lemma add_rsv_compare_h_unit (A : array) (a b : Z) :
  add_rsv_compare_h A a b = 1 \/ add_rsv_compare_h A a b = -1 \/
  (add_rsv_compare_h A a b = 0 /\ a = b).
Proof.
  unfold add_rsv_compare_h.
  destruct (Z.gtb_spec (A a) (A b)); [now left|].
  destruct (Z.ltb_spec (A a) (A b)); [now right; left|].
  destruct (Z.gtb_spec a b); [now left|].
  destruct (Z.ltb_spec a b); [now right; left|].
  right; right. split; [reflexivity | lia].
Qed.

(** ** Strips *)

Lemma strip_shift_nonneg (documents : Z) : 0 <= strip_shift documents.
Proof. apply Z.log2_nonneg. Qed.

(** The shift is the integer part of the binary logarithm of the square
    root: four to the shift is at most [documents], four to the shift
    plus one is above it. *)
Lemma strip_shift_spec (documents : Z) :
  1 <= documents ->
  4 ^ strip_shift documents <= documents < 4 ^ (strip_shift documents + 1).
Proof.
  intros H. pose proof (strip_shift_nonneg documents) as S0.
  unfold strip_shift, log2_sqrt in *.
  assert (R : 0 < Z.sqrt documents) by (apply Z.sqrt_pos; lia).
  pose proof (Z.log2_spec _ R) as [L1 L2].
  pose proof (Z.sqrt_spec documents ltac:(lia)) as [Q1 Q2].
  set (r := Z.sqrt documents) in *. set (k := Z.log2 r) in *.
  change 4 with (2 ^ 2). rewrite <- !Z.pow_mul_r by lia.
  replace (2 * k) with (k + k) by lia.
  replace (2 * (k + 1)) with ((k + 1) + (k + 1)) by lia.
  rewrite !Z.pow_add_r by lia.
  assert (P : 0 < 2 ^ k) by (apply Z.pow_pos_nonneg; lia).
  unfold Z.succ in *. split.
  - apply (Z.le_trans _ (r * r)); [|exact Q1].
    apply Z.mul_le_mono_nonneg; lia.
  - apply (Z.lt_le_trans _ ((r + 1) * (r + 1))); [exact Q2|].
    rewrite Z.pow_add_r in L2 by lia.
    apply Z.mul_le_mono_nonneg; lia.
Qed.

Lemma strip_width_pow2 (documents : Z) :
  strip_width documents = 2 ^ strip_shift documents.
Proof.
  unfold strip_width. rewrite Z.shiftl_mul_pow2 by apply strip_shift_nonneg.
  lia.
Qed.

Lemma strip_width_pos (documents : Z) : 0 < strip_width documents.
Proof.
  rewrite strip_width_pow2. apply Z.pow_pos_nonneg; [lia|].
  apply strip_shift_nonneg.
Qed.

Lemma strip_count_eq (documents : Z) :
  strip_count documents = documents / strip_width documents + 1.
Proof.
  unfold strip_count. pose proof (strip_width_pos documents) as W.
  replace (documents + strip_width documents)
    with (documents + 1 * strip_width documents) by lia.
  rewrite Z.div_add by lia. reflexivity.
Qed.

Lemma strip_index_bound (documents doc_id : Z) :
  1 <= documents -> 0 <= doc_id < documents ->
  Z.shiftr doc_id (strip_shift documents) < strip_count documents /\
  doc_id < strip_width documents * strip_count documents.
Proof.
  intros Hdocuments Hdoc.
  pose proof (strip_width_pos documents) as W.
  rewrite Z.shiftr_div_pow2 by apply strip_shift_nonneg.
  rewrite <- strip_width_pow2, strip_count_eq.
  set (w := strip_width documents) in *.
  assert (doc_id / w <= documents / w) by (apply Z.div_le_mono; lia).
  pose proof (Z.mod_pos_bound documents w W).
  pose proof (Z.div_mod documents w ltac:(lia)).
  split; nia.
Qed.

(** ** What the operations leave unchanged *)

Lemma touch_frame (e : engine) (d : Z) :
  accumulator_pointers (touch e d) = accumulator_pointers e /\
  accumulators_shift (touch e d) = accumulators_shift e /\
  accumulators_width (touch e d) = accumulators_width e /\
  accumulators_height (touch e d) = accumulators_height e /\
  results_list_length (touch e d) = results_list_length e /\
  top_k (touch e d) = top_k e /\
  primary_keys (touch e d) = primary_keys e.
Proof.
  unfold touch. destruct (_ =? 0); simpl; repeat split; reflexivity.
Qed.

Lemma add_rsv_frame (e : engine) (d s : Z) :
  accumulators_shift (add_rsv e d s) = accumulators_shift e /\
  accumulators_width (add_rsv e d s) = accumulators_width e /\
  accumulators_height (add_rsv e d s) = accumulators_height e /\
  top_k (add_rsv e d s) = top_k e /\
  primary_keys (add_rsv e d s) = primary_keys e.
Proof.
  destruct (touch_frame e d) as (_ & F1 & F2 & F3 & _ & F5 & F6).
  unfold add_rsv, maintain_heap.
  repeat match goal with
  | |- context [if ?c then _ else _] => destruct c; simpl
  end; repeat split; assumption.
Qed.

Lemma add_rsv_length (e : engine) (d s : Z) :
  results_list_length (add_rsv e d s) = results_list_length e \/
  (results_list_length e < top_k e /\
   results_list_length (add_rsv e d s) = to_uint32 (results_list_length e + 1)).
Proof.
  destruct (touch_frame e d) as (_ & _ & _ & _ & F4 & F5 & _).
  unfold add_rsv, maintain_heap. rewrite F4, F5.
  destruct (Z.ltb_spec (results_list_length e) (top_k e)) as [Hlt|Hge].
  - destruct (_ =? 0); simpl.
    + rewrite F4, F5. right. split; [assumption|].
      destruct (_ =? _); reflexivity.
    + rewrite F4, F5. left. destruct (_ =? _); simpl; assumption.
  - left. repeat match goal with
    | |- context [if ?c then _ else _] => destruct c; simpl
    end; assumption.
Qed.

(** ** Bounded size *)





Lemma range_length (n : Z) : List.length (range n) = Z.to_nat n.
Proof. unfold range. now rewrite length_map, length_seq. Qed.



(** ** Lazy clearing *)

Lemma add_rsv_memory (e : engine) (d s : Z) :
  clean_flags (add_rsv e d s) = clean_flags (touch e d) /\
  accumulators (add_rsv e d s) =
    store (accumulators (touch e d)) d
      (to_uint16 (accumulators (touch e d) d + s)).
Proof.
  unfold add_rsv, maintain_heap.
  repeat match goal with
  | |- context [if ?c then _ else _] => destruct c; simpl
  end; split; reflexivity.
Qed.

Section Strips.

Variable e : engine.
Hypothesis G : geometry e.

Lemma width_pos : 0 < accumulators_width e.
Proof. destruct G as [S W]. rewrite W. now apply Z.pow_pos_nonneg. Qed.

Lemma strip_bounds (d : Z) :
  accumulators_width e * strip_of e d <= d <
  accumulators_width e * strip_of e d + accumulators_width e.
Proof.
  pose proof width_pos as P. destruct G as [S W]. unfold strip_of.
  rewrite Z.shiftr_div_pow2, <- W by assumption.
  pose proof (Z.mod_pos_bound d _ P).
  pose proof (Z.div_mod d (accumulators_width e) ltac:(lia)). lia.
Qed.

Lemma strip_unique (d s : Z) :
  accumulators_width e * s <= d < accumulators_width e * s + accumulators_width e ->
  strip_of e d = s.
Proof.
  intros H. pose proof width_pos as P. destruct G as [S W]. unfold strip_of.
  rewrite Z.shiftr_div_pow2, <- W by assumption.
  symmetry. apply (Z.div_unique _ _ _ (d - accumulators_width e * s)); lia.
Qed.

Lemma strip_nonneg (d : Z) : 0 <= d -> 0 <= strip_of e d.
Proof.
  intros H. destruct G as [S W]. unfold strip_of.
  now apply Z.shiftr_nonneg.
Qed.

Lemma strip_start_small (d : Z) :
  0 <= d < 2 ^ 32 ->
  to_uint32 (accumulators_width e * strip_of e d) =
  accumulators_width e * strip_of e d.
Proof.
  intros H. apply to_uint32_small.
  pose proof (strip_bounds d). pose proof (strip_nonneg d ltac:(lia)).
  pose proof width_pos. nia.
Qed.

(** The memory after the lazy clearing for [d], cell by cell. *)
Lemma touch_accumulators (d k : Z) :
  0 <= d < 2 ^ 32 -> 0 <= k ->
  accumulators (touch e d) k =
  if (clean_flags e (strip_of e d) =? 0) && (strip_of e k =? strip_of e d)
  then 0 else accumulators e k.
Proof.
  intros Hd Hk. unfold touch. fold (strip_of e d).
  destruct (clean_flags e (strip_of e d) =? 0); simpl; [|reflexivity].
  rewrite strip_start_small by assumption. unfold memset_zero.
  pose proof (strip_bounds k) as Bk.
  destruct (Z.eqb_spec (strip_of e k) (strip_of e d)) as [E|N].
  - rewrite E in Bk.
    destruct (Z.leb_spec (accumulators_width e * strip_of e d) k); [|lia].
    destruct (Z.ltb_spec k
      (accumulators_width e * strip_of e d + accumulators_width e)); [|lia].
    reflexivity.
  - destruct (Z.leb_spec (accumulators_width e * strip_of e d) k);
      [|reflexivity].
    destruct (Z.ltb_spec k
      (accumulators_width e * strip_of e d + accumulators_width e));
      [|reflexivity].
    exfalso. apply N. apply strip_unique. lia.
Qed.

Lemma touch_clean_flags (d s : Z) :
  clean_flags (touch e d) s =
  if s =? strip_of e d then
    (if clean_flags e s =? 0 then 1 else clean_flags e s)
  else clean_flags e s.
Proof.
  unfold touch. fold (strip_of e d).
  destruct (Z.eqb_spec s (strip_of e d)) as [E|N].
  - subst s. destruct (clean_flags e (strip_of e d) =? 0); simpl;
      [unfold store; now rewrite Z.eqb_refl | reflexivity].
  - destruct (clean_flags e (strip_of e d) =? 0); simpl; [|reflexivity].
    unfold store. destruct (Z.eqb_spec s (strip_of e d)); [contradiction|].
    reflexivity.
Qed.

End Strips.

Lemma strip_of_add_rsv (e : engine) (d s k : Z) :
  strip_of (add_rsv e d s) k = strip_of e k.
Proof.
  unfold strip_of. destruct (add_rsv_frame e d s) as (F & _). now rewrite F.
Qed.

Lemma geometry_add_rsv (e : engine) (d s : Z) :
  geometry e -> geometry (add_rsv e d s).
Proof.
  unfold geometry. destruct (add_rsv_frame e d s) as (F1 & F2 & _).
  now rewrite F1, F2.
Qed.

Lemma geometry_rewind (e : engine) : geometry e -> geometry (rewind e).
Proof. intros H. exact H. Qed.

Lemma reads_zero_add_rsv (e : engine) (d d' s : Z) :
  geometry e -> 0 <= d -> 0 <= d' < 2 ^ 32 -> d' <> d ->
  reads_zero e d -> reads_zero (add_rsv e d' s) d.
Proof.
  intros G Hd Hd' N R. unfold reads_zero.
  destruct (add_rsv_memory e d' s) as [F A]. rewrite F, A.
  rewrite strip_of_add_rsv. unfold store.
  destruct (Z.eqb_spec d d'); [congruence|].
  rewrite touch_clean_flags, touch_accumulators by (assumption || lia).
  destruct (Z.eqb_spec (strip_of e d) (strip_of e d')) as [E|NE].
  - rewrite andb_true_r. unfold reads_zero in R. rewrite <- E.
    destruct (Z.eqb_spec (clean_flags e (strip_of e d)) 0).
    + now right.
    + destruct R; [contradiction | now right].
  - rewrite andb_false_r. exact R.
Qed.

Lemma reads_zero_run (calls : list call) (e : engine) (d : Z) :
  geometry e -> 0 <= d ->
  Forall (fun c => fst c <> d /\ 0 <= fst c < 2 ^ 32) calls ->
  reads_zero e d -> reads_zero (run e calls) d.
Proof.
  revert e. induction calls as [|c calls IH]; intros e G Hd F R; [exact R|].
  inversion F as [|? ? [N B] F']; subst. simpl. apply IH; try assumption.
  - now apply geometry_add_rsv.
  - now apply reads_zero_add_rsv.
Qed.

Lemma reads_zero_old_value (e : engine) (d : Z) :
  geometry e -> 0 <= d < 2 ^ 32 -> reads_zero e d -> old_value_read e d = 0.
Proof.
  intros G Hd R. unfold old_value_read.
  rewrite touch_accumulators by (assumption || lia).
  rewrite Z.eqb_refl, andb_true_r.
  destruct (Z.eqb_spec (clean_flags e (strip_of e d)) 0); [reflexivity|].
  destruct R; [contradiction | assumption].
Qed.

Lemma rewind_clean_flags (e : engine) (s : Z) :
  0 <= s < accumulators_height e -> clean_flags (rewind e) s = 0.
Proof.
  intros H. unfold rewind. simpl. unfold memset_zero.
  destruct (Z.leb_spec 0 s); [|lia].
  destruct (Z.ltb_spec s (0 + accumulators_height e)); [|lia]. reflexivity.
Qed.

(** ** The constructor *)

Lemma strip_shift_small (documents : Z) :
  1 <= documents < 2 ^ 32 -> strip_shift documents < 16.
Proof.
  intros H. unfold strip_shift, log2_sqrt.
  assert (S : 0 < Z.sqrt documents) by (apply Z.sqrt_pos; lia).
  apply Z.log2_lt_pow2; [assumption|].
  apply Z.sqrt_lt_square; [lia | lia |].
  change (2 ^ 16 * 2 ^ 16) with (2 ^ 32). lia.
Qed.

Lemma constructor_fields (g : engine) keys (documents k : Z) :
  1 <= documents < 2 ^ 31 ->
  let e := query_atire_global g keys documents k in
  accumulators_shift e = strip_shift documents /\
  accumulators_width e = strip_width documents /\
  accumulators_height e = strip_count documents /\
  top_k e = to_uint32 k /\
  primary_keys e = keys /\
  results_list_length e = 0.
Proof.
  intros H e. unfold e, query_atire_global, rewind. simpl.
  assert (P31 : 2 ^ 31 = 2147483648) by reflexivity.
  assert (P32 : 2 ^ 32 = 4294967296) by reflexivity.
  assert (P64 : 2 ^ 64 = 18446744073709551616) by reflexivity.
  pose proof (strip_shift_nonneg documents) as S0.
  pose proof (strip_shift_small documents ltac:(lia)) as S1.
  fold (strip_shift documents).
  rewrite (to_uint32_small (strip_shift documents)) by lia.
  fold (strip_width documents).
  assert (W : 0 < strip_width documents <= 2 ^ 15).
  { split; [apply strip_width_pos|]. rewrite strip_width_pow2.
    apply Z.pow_le_mono_r; lia. }
  assert (P15 : 2 ^ 15 = 32768) by reflexivity.
  rewrite (to_uint32_small (strip_width documents)) by lia.
  rewrite to_size_t_small by lia.
  fold (strip_count documents).
  assert (C : 0 <= strip_count documents <= documents + 1).
  { rewrite strip_count_eq.
    pose proof (Z.div_pos documents (strip_width documents) ltac:(lia) ltac:(lia)).
    pose proof (Z.div_le_upper_bound documents (strip_width documents) documents
                  ltac:(lia) ltac:(nia)). lia. }
  rewrite to_uint32_small by lia.
  repeat split; reflexivity.
Qed.

Lemma constructor_geometry (g : engine) keys (documents k : Z) :
  1 <= documents < 2 ^ 31 ->
  geometry (query_atire_global g keys documents k).
Proof.
  intros H. destruct (constructor_fields g keys documents k H)
    as (F1 & F2 & _). unfold geometry. rewrite F1, F2.
  split; [apply strip_shift_nonneg | apply strip_width_pow2].
Qed.

(** C8, as the claim states it, fails: the constructor has no rejecting
    path, and constructs an engine for [top_k == 0] and for
    [top_k > documents]. *)
Lemma construct_does_not_reject :
  construct startup [] 10 0 <> invalid_argument /\
  construct startup [] 3 5 <> invalid_argument.
Proof. split; discriminate. Qed.

(** C8, amended.  The constructor validates nothing: for every
    collection whose strips fit the ten flags of [clean_flags] and every
    [top_k], zero and values above [documents] included, it runs inside
    the static arrays and returns an engine that holds [top_k] reduced to
    the 32 bits of the global ([top_k] itself when that is below
    [2 ^ 32]), the strip geometry computed from [documents], an empty
    result list and clean flags. *)
Theorem construct_accepts (g : engine) (keys : list string) (documents k : Z)
    (Hdocuments : 1 <= documents < 2 ^ 31)
    (Hflags : accumulators_height (query_atire_global g keys documents k)
              <= clean_flags_length) :
  exists e,
    construct g keys documents k = constructed e /\
    query_atire_global_defined g keys documents k = true /\
    top_k e = to_uint32 k /\
    (0 <= k < 2 ^ 32 -> top_k e = k) /\
    accumulators_shift e = strip_shift documents /\
    accumulators_width e = strip_width documents /\
    accumulators_height e = strip_count documents /\
    results_list_length e = 0 /\
    (forall s, 0 <= s < accumulators_height e -> clean_flags e s = 0).
Proof.
  exists (query_atire_global g keys documents k).
  destruct (constructor_fields g keys documents k Hdocuments)
    as (F1 & F2 & F3 & F4 & F5 & F6).
  split; [reflexivity|]. split.
  { unfold query_atire_global_defined, rewind_defined.
    apply Z.leb_le in Hflags. rewrite Hflags, andb_true_r.
    apply andb_true_iff. split; [apply Z.leb_le; lia|].
    apply Z.ltb_lt. pose proof (strip_shift_small documents) as S.
    assert (P31 : 2 ^ 31 = 2147483648) by reflexivity.
    assert (P32 : 2 ^ 32 = 4294967296) by reflexivity.
    unfold strip_shift in S. lia. }
  split; [exact F4|].
  split; [intros Hk; rewrite F4; now apply to_uint32_small|].
  split; [exact F1|]. split; [exact F2|]. split; [exact F3|].
  split; [exact F6|].
  intros s Hs. unfold query_atire_global.
  apply rewind_clean_flags. exact Hs.
Qed.

Lemma construct_accepts_witness :
  exists e, construct startup [] 3 5 = constructed e /\
    query_atire_global_defined startup [] 3 5 = true /\
    top_k e = to_uint32 5 /\
    (0 <= 5 < 2 ^ 32 -> top_k e = 5) /\
    accumulators_shift e = strip_shift 3 /\
    accumulators_width e = strip_width 3 /\
    accumulators_height e = strip_count 3 /\
    results_list_length e = 0 /\
    (forall s, 0 <= s < accumulators_height e -> clean_flags e s = 0).
Proof.
  apply (construct_accepts startup [] 3 5).
  - split; [lia | reflexivity].
  - vm_compute. discriminate.
Defined.

(** ** Static bounds *)

(** C10 (the code departs from the claim).  With the default
    [documents = 1024] the constructor computes 33 strips, so [rewind]
    clears 33 flags of an array declared with 10, and the last document
    has strip index 31. *)
Theorem default_documents_overrun_clean_flags :
  let e := query_atire_global startup [] 1024 10 in
  accumulators_height e = 33 /\
  clean_flags_length < accumulators_height e /\
  clean_flags_length <= strip_of e 1023.
Proof. vm_compute. repeat split; discriminate. Qed.

(** For 200000 documents the strips cover more cells than
    [accumulators] has. *)
Lemma full_collection_overruns_accumulators :
  let e := query_atire_global startup [] accumulators_length 10 in
  accumulators_length < accumulators_width e * accumulators_height e.
Proof. vm_compute. reflexivity. Qed.

(** Where the array ends: with 44 documents the strips are 4 cells
    wide; document 39 has the last flag of [clean_flags], document 40 has
    none. *)
Lemma first_strip_outside_clean_flags :
  let e := query_atire_global startup [] 44 10 in
  accumulators_width e = 4 /\
  strip_of e 39 = 9 /\ touch_defined e 39 = true /\
  strip_of e 40 = 10 /\ touch_defined e 40 = false.
Proof. vm_compute. repeat split. Qed.

(** C5 (the code departs from the claim).  With [documents = 2048] the
    constructor computes 65 strips.  [rewind] then clears 65 bytes from
    the start of an array declared with 10 entries, and the flag that
    [add_rsv(1024, ...)] tests and sets is [clean_flags[32]].  Neither
    access is inside [clean_flags]: in the run of the constructor, an
    earlier [add_rsv(1024, 7)], [rewind], [add_rsv(0, 3)] and
    [add_rsv(1024, 5)], the flag that the last call tests for document
    1024 is not an entry of the array that [rewind] cleared. *)
Theorem lazy_clear_leaves_clean_flags :
  let e0 := query_atire_global startup [] 2048 10 in
  let e := run (rewind (after e0 [op_add_rsv 1024 7])) [(0, 3)] in
  accumulators_height e = 65 /\
  strip_of e 1024 = 32 /\
  clean_flags_length <= strip_of e 1024 /\
  query_atire_global_defined startup [] 2048 10 = false /\
  rewind_defined e = false /\
  touch_defined e 1024 = false.
Proof. vm_compute. repeat split; discriminate. Qed.

(** ** The allocator *)

(** [malloc] never returns [nullptr]. *)
Lemma malloc_never_null (a a' : allocator_memory) (bytes alignment : Z) :
  malloc a bytes alignment <> returned None a'.
Proof. unfold malloc. destruct (_ >? _); discriminate. Qed.

(** C9 (the code departs from the claim).  A request beyond the capacity
    ends the process instead of returning [nullptr]. *)
Theorem malloc_out_of_memory_exits :
  malloc (mk_allocator 4096 0 1024) 2000 1 = exited.
Proof. reflexivity. Qed.

(** Where the request fits, [malloc] returns the padded address inside
    the buffer and moves the watermark by padding plus bytes; the
    capacity is unchanged. *)
Lemma malloc_success (a : allocator_memory) (bytes alignment : Z) :
  0 <= used a -> 0 <= bytes -> 1 <= alignment ->
  let padding := if alignment =? 1 then 0 else realign (used a) alignment in
  used a + padding + bytes <= allocated a -> allocated a < 2 ^ 64 ->
  malloc a bytes alignment =
    returned (Some (buffer a + used a + padding))
      (mk_allocator (buffer a) (used a + padding + bytes) (allocated a)) /\
  (used a + padding) mod alignment = 0.
Proof.
  intros Hu Hb Ha padding Hfit Hcap.
  assert (P : 0 <= padding /\ (used a + padding) mod alignment = 0).
  { unfold padding. destruct (Z.eqb_spec alignment 1) as [->|N].
    - split; [lia | apply Z.mod_1_r].
    - unfold realign.
      pose proof (Z.mod_pos_bound (used a) alignment ltac:(lia)) as B.
      destruct (Z.eqb_spec (used a mod alignment) 0) as [E|E].
      + split; [lia|]. now rewrite Z.add_0_r.
      + split; [lia|].
        pose proof (Z.div_mod (used a) alignment ltac:(lia)) as D.
        replace (used a + (alignment - used a mod alignment))
          with ((used a / alignment + 1) * alignment) by lia.
        apply Z.mod_mul. lia. }
  destruct P as [P0 P1]. split; [|exact P1].
  unfold malloc. fold padding.
  rewrite (to_size_t_small (used a + bytes)) by lia.
  rewrite to_size_t_small by lia.
  replace (used a + bytes + padding) with (used a + padding + bytes) by lia.
  destruct (Z.gtb_spec (used a + padding + bytes) (allocated a)); [lia|].
  reflexivity.
Qed.

(** ** The order on cells *)

Ltac order := unfold cell_le, cell_lt in *; lia.

Lemma cell_le_refl (A : array) (a : Z) : cell_le A a a.
Proof. order. Qed.

Lemma cell_le_trans (A : array) (a b c : Z) :
  cell_le A a b -> cell_le A b c -> cell_le A a c.
Proof. order. Qed.

Lemma cell_lt_le (A : array) (a b : Z) : cell_lt A a b -> cell_le A a b.
Proof. order. Qed.

Lemma cell_le_lt (A : array) (a b : Z) :
  cell_le A a b -> a <> b -> cell_lt A a b.
Proof. order. Qed.

Lemma cell_le_or_lt (A : array) (a b : Z) : cell_le A a b \/ cell_lt A b a.
Proof. order. Qed.

Lemma cell_lt_not_le (A : array) (a b : Z) :
  cell_lt A a b -> ~ cell_le A b a.
Proof. order. Qed.

(** ** The heap *)

Section Heap.

Variable A : array.
Variable n : Z.

Lemma rearranged_refl (P : array) : rearranged P P n.
Proof. repeat split; auto. Qed.

Lemma rearranged_trans (P Q R : array) :
  rearranged P Q n -> rearranged Q R n -> rearranged P R n.
Proof.
  intros (F1 & S1 & D1) (F2 & S2 & D2). repeat split.
  - intros i H. rewrite F2, F1 by assumption. reflexivity.
  - intros H. apply S2, S1, H.
  - intros H. apply S1, S2, H.
  - auto.
Qed.

Lemma swap_at (P : array) (i j k : Z) :
  heap.swap P i j k = if k =? j then P i else if k =? i then P j else P k.
Proof. reflexivity. Qed.

Lemma swap_source (P : array) (i j k : Z) :
  heap.swap P i j k = P (source i j k).
Proof.
  rewrite swap_at. unfold source.
  destruct (k =? j); [reflexivity|]. destruct (k =? i); reflexivity.
Qed.

Lemma source_involutive (i j k : Z) : source i j (source i j k) = k.
Proof.
  unfold source.
  destruct (Z.eqb_spec k j); destruct (Z.eqb_spec k i);
  repeat match goal with
  | |- context [?a =? ?b] => destruct (Z.eqb_spec a b)
  end; lia.
Qed.

Lemma source_range (i j k : Z) :
  0 <= i < n -> 0 <= j < n -> (0 <= source i j k < n <-> 0 <= k < n).
Proof.
  intros Hi Hj. unfold source.
  destruct (Z.eqb_spec k j); [lia|]. destruct (Z.eqb_spec k i); lia.
Qed.

Lemma rearranged_swap (P : array) (i j : Z) :
  0 <= i < n -> 0 <= j < n -> rearranged P (heap.swap P i j) n.
Proof.
  intros Hi Hj. repeat split.
  - intros k Hk. rewrite swap_at.
    destruct (Z.eqb_spec k j); [lia|]. destruct (Z.eqb_spec k i); [lia|].
    reflexivity.
  - intros (k & Hk & E). exists (source i j k). split.
    + now apply source_range.
    + now rewrite swap_source, source_involutive.
  - intros (k & Hk & E). exists (source i j k). split.
    + now apply source_range.
    + now rewrite <- swap_source.
  - intros D a b Ha Hb E. rewrite !swap_source in E.
    apply D in E; try now apply source_range.
    rewrite <- (source_involutive i j a), E. apply source_involutive.
Qed.

End Heap.

Section Sifting.

Variable A : array.
Variable n : Z.
Variable bound : Z.
Hypothesis bound_int : bound <= 2 ^ 31.

Lemma cmp_ltb_true (a b : Z) :
  0 <= a < bound -> 0 <= b < bound ->
  (cmp A a b <? 0) = true -> cell_lt A a b.
Proof.
  intros Ha Hb H. apply Z.ltb_lt in H. apply cmp_negative in H; [exact H|].
  assert (P31 : 2 ^ 31 = 2147483648) by reflexivity. lia.
Qed.

Lemma cmp_ltb_false (a b : Z) :
  0 <= a < bound -> 0 <= b < bound ->
  (cmp A a b <? 0) = false -> cell_le A b a.
Proof.
  intros Ha Hb H. apply Z.ltb_ge in H. apply cmp_nonnegative in H; [exact H|].
  assert (P31 : 2 ^ 31 = 2147483648) by reflexivity. lia.
Qed.

Lemma smallest_spec (P : array) (i : Z) :
  cells_below P n bound -> 0 <= i < n ->
  let m := heap.smallest A P n i in
  (m = i /\ forall c, child c i -> c < n -> cell_le A (P i) (P c)) \/
  (child m i /\ m < n /\ cell_lt A (P m) (P i) /\
   forall c, child c i -> c < n -> cell_le A (P m) (P c)).
Proof.
  intros B Hi m. unfold m, heap.smallest. cbv zeta.
  pose proof (B i Hi) as Bi.
  destruct (Z.ltb_spec (2 * i + 1) n) as [Hl|Hl];
  destruct (Z.ltb_spec (2 * i + 2) n) as [Hr|Hr]; cbn [andb]; try lia.
  - pose proof (B (2 * i + 1) ltac:(lia)) as Bl.
    pose proof (B (2 * i + 2) ltac:(lia)) as Br.
    destruct (cmp A (P (2 * i + 1)) (P i) <? 0) eqn:E1.
    + apply cmp_ltb_true in E1; try assumption.
      destruct (cmp A (P (2 * i + 2)) (P (2 * i + 1)) <? 0) eqn:E2.
      * apply cmp_ltb_true in E2; try assumption. right.
        split; [right; reflexivity|]. split; [assumption|].
        split; [order|]. intros c [-> | ->] Hc; order.
      * apply cmp_ltb_false in E2; try assumption. right.
        split; [left; reflexivity|]. split; [assumption|].
        split; [order|]. intros c [-> | ->] Hc; order.
    + apply cmp_ltb_false in E1; try assumption.
      destruct (cmp A (P (2 * i + 2)) (P i) <? 0) eqn:E2.
      * apply cmp_ltb_true in E2; try assumption. right.
        split; [right; reflexivity|]. split; [assumption|].
        split; [order|]. intros c [-> | ->] Hc; order.
      * apply cmp_ltb_false in E2; try assumption. left.
        split; [reflexivity|]. intros c [-> | ->] Hc; order.
  - pose proof (B (2 * i + 1) ltac:(lia)) as Bl.
    destruct (cmp A (P (2 * i + 1)) (P i) <? 0) eqn:E1.
    + apply cmp_ltb_true in E1; try assumption. right.
      split; [left; reflexivity|]. split; [assumption|].
      split; [order|]. intros c [-> | ->] Hc; [order | lia].
    + apply cmp_ltb_false in E1; try assumption. left.
      split; [reflexivity|]. intros c [-> | ->] Hc; [order | lia].
  - left. split; [reflexivity|]. intros c [-> | ->] Hc; lia.
Qed.

Lemma cells_below_rearranged (P P' : array) :
  rearranged P P' n -> cells_below P n bound -> cells_below P' n bound.
Proof.
  intros (_ & S & _) B i Hi.
  destruct (proj2 (S (P' i))) as (j & Hj & E); [now exists i|].
  rewrite <- E. now apply B.
Qed.

Lemma heap_hole_swap (P : array) (k h m : Z) :
  0 <= k <= h -> child m h -> m < n ->
  heap_hole A P n k h ->
  cell_lt A (P m) (P h) ->
  (forall c, child c h -> c < n -> cell_le A (P m) (P c)) ->
  heap_hole A (heap.swap P h m) n k m.
Proof.
  intros Hk Hm Hmn [H1 H2] Hlt Hmin. unfold child in *. split.
  - intros i c Hi Him Hc Hcn. unfold child in Hc. rewrite !swap_at.
    destruct (Z.eqb_spec i m); [lia|].
    destruct (Z.eqb_spec i h) as [->|Nih].
    + destruct (Z.eqb_spec c m); [order|].
      destruct (Z.eqb_spec c h); [lia|]. apply Hmin; assumption.
    + destruct (Z.eqb_spec c m); [lia|].
      destruct (Z.eqb_spec c h) as [->|Nch].
      * apply H2; unfold child; lia.
      * apply H1; unfold child; assumption.
  - intros p c Hp Hmp Hc Hcn. unfold child in Hmp, Hc. rewrite !swap_at.
    assert (p = h) by lia. subst p.
    destruct (Z.eqb_spec h m); [lia|]. rewrite Z.eqb_refl.
    destruct (Z.eqb_spec c m); [lia|].
    destruct (Z.eqb_spec c h); [lia|].
    apply H1; unfold child; lia.
Qed.

Lemma heapify_correct (fuel : nat) :
  forall (P : array) (k h : Z),
  0 <= k <= h -> h < n -> n - h <= Z.of_nat fuel ->
  cells_below P n bound -> heap_hole A P n k h ->
  heap_ok A (heap.heapify fuel A P n h) n k /\
  rearranged P (heap.heapify fuel A P n h) n.
Proof.
  induction fuel as [|fuel IH]; intros P k h Hk Hh Hfuel B Hole; [lia|].
  cbn [heap.heapify]. cbv zeta.
  destruct (smallest_spec P h B ltac:(lia)) as [[E Hmin] | (Hc & Hmn & Hlt & Hmin)].
  - rewrite E, Z.eqb_refl. split; [|apply rearranged_refl].
    intros i c Hi Hci Hcn. destruct (Z.eq_dec i h) as [->|N].
    + now apply Hmin.
    + destruct Hole as [H1 _]. now apply H1.
  - set (m := heap.smallest A P n h) in *.
    assert (Hm : h < m) by (unfold child in Hc; lia).
    destruct (Z.eqb_spec m h); [lia|].
    assert (R : rearranged P (heap.swap P h m) n)
      by (apply rearranged_swap; lia).
    destruct (IH (heap.swap P h m) k m) as [Ok R'];
      try lia.
    + now apply (cells_below_rearranged P).
    + apply heap_hole_swap; assumption.
    + split; [exact Ok|]. now apply (rearranged_trans n P (heap.swap P h m)).
Qed.

Lemma sift_down_correct (P : array) (k h : Z) :
  0 <= k <= h -> h < n ->
  cells_below P n bound -> heap_hole A P n k h ->
  heap_ok A (heap.sift_down A P n h) n k /\
  rearranged P (heap.sift_down A P n h) n.
Proof.
  intros Hk Hh B Hole. unfold heap.sift_down.
  apply heapify_correct; try assumption. lia.
Qed.

End Sifting.

Section HeapOperations.

Variable A : array.
Variable n : Z.
Variable bound : Z.
Hypothesis bound_int : bound <= 2 ^ 31.

Lemma heap_hole_of_heap_ok (P : array) (k : Z) :
  0 <= k -> heap_ok A P n (k + 1) -> heap_hole A P n k k.
Proof.
  intros Hk H. split.
  - intros i c Hi N Hc Hcn. apply H; [lia | assumption | assumption].
  - intros p c Hp Hkp. unfold child in Hkp. lia.
Qed.

Lemma make_heap_from_correct (k : nat) :
  forall P : array,
  Z.of_nat k <= n -> cells_below P n bound ->
  heap_ok A P n (Z.of_nat k) ->
  heap_ok A (heap.make_heap_from k A P n) n 0 /\
  rearranged P (heap.make_heap_from k A P n) n.
Proof.
  induction k as [|k IH]; intros P Hk B H.
  - split; [exact H | apply rearranged_refl].
  - cbn [heap.make_heap_from].
    destruct (sift_down_correct A n bound bound_int P (Z.of_nat k) (Z.of_nat k))
      as [Ok R]; try lia; try assumption.
    { apply heap_hole_of_heap_ok; [lia|].
      replace (Z.of_nat k + 1) with (Z.of_nat (S k)) by lia. exact H. }
    destruct (IH (heap.sift_down A P n (Z.of_nat k))) as [Ok' R'];
      try lia; try assumption.
    { now apply (cells_below_rearranged n bound P). }
    split; [exact Ok'|].
    now apply (rearranged_trans n P (heap.sift_down A P n (Z.of_nat k))).
Qed.

Lemma make_heap_correct (P : array) :
  0 <= n -> cells_below P n bound ->
  heap_ok A (heap.make_heap A P n) n 0 /\
  rearranged P (heap.make_heap A P n) n.
Proof.
  intros Hn B. unfold heap.make_heap.
  assert (Hhalf : Z.of_nat (Z.to_nat (n / 2)) = n / 2).
  { apply Z2Nat.id. apply Z.div_pos; lia. }
  pose proof (Z.div_mod n 2 ltac:(lia)) as D.
  pose proof (Z.mod_pos_bound n 2 ltac:(lia)) as M.
  apply make_heap_from_correct; try assumption; [lia|].
  rewrite Hhalf. intros i c Hi Hc Hcn. unfold child in Hc. lia.
Qed.

(** The root of a heap is not above any of its entries. *)
Lemma root_minimal (P : array) :
  heap_ok A P n 0 -> forall i, 0 <= i < n -> cell_le A (P 0) (P i).
Proof.
  intros H.
  assert (G : forall m : nat, forall i, 0 <= i <= Z.of_nat m -> i < n ->
                cell_le A (P 0) (P i)).
  { induction m as [|m IH]; intros i Hi Hin.
    - replace i with 0 by lia. apply cell_le_refl.
    - destruct (Z.eq_dec i 0) as [->|N]; [apply cell_le_refl|].
      pose proof (Z.div_mod (i - 1) 2 ltac:(lia)) as D.
      pose proof (Z.mod_pos_bound (i - 1) 2 ltac:(lia)) as M.
      apply (cell_le_trans A _ (P ((i - 1) / 2))).
      + apply IH; lia.
      + apply H; [lia | unfold child; lia | assumption]. }
  intros i Hi. apply (G (Z.to_nat i)); lia.
Qed.

Lemma find_some (count : nat) :
  forall (P : array) (i x j : Z),
  heap.find count P i x = Some j ->
  i <= j < i + Z.of_nat count /\ P j = x.
Proof.
  induction count as [|count IH]; intros P i x j H; [discriminate|].
  cbn [heap.find] in H. destruct (Z.eqb_spec (P i) x) as [E|N].
  - inversion H; subst. split; [lia | reflexivity].
  - apply IH in H. split; [lia | tauto].
Qed.

Lemma find_none (count : nat) :
  forall (P : array) (i x : Z),
  heap.find count P i x = None ->
  forall j, i <= j < i + Z.of_nat count -> P j <> x.
Proof.
  induction count as [|count IH]; intros P i x H j Hj; [lia|].
  cbn [heap.find] in H. destruct (Z.eqb_spec (P i) x) as [E|N];
    [discriminate|].
  destruct (Z.eq_dec j i) as [->|Nj]; [exact N|].
  apply (IH P (i + 1) x H). lia.
Qed.

(** Whether a cell is tracked can be decided by the scan. *)
Lemma tracked_find (P : array) (x : Z) :
  0 <= n ->
  (tracked P n x <-> heap.find (Z.to_nat n) P 0 x <> None).
Proof.
  intros Hn. split.
  - intros (i & Hi & E) F. apply (find_none _ P 0 x F i); [lia | exact E].
  - intros F. destruct (heap.find (Z.to_nat n) P 0 x) as [j|] eqn:Ej;
      [|congruence].
    apply find_some in Ej. exists j. split; [lia | tauto].
Qed.

Lemma tracked_dec (P : array) (x : Z) :
  0 <= n -> tracked P n x \/ ~ tracked P n x.
Proof.
  intros Hn. destruct (heap.find (Z.to_nat n) P 0 x) as [j|] eqn:Ej.
  - left. apply tracked_find; [assumption | congruence].
  - right. intros T. apply tracked_find in T; [congruence | assumption].
Qed.

(** [promote] after the score of a tracked cell has grown. *)
Lemma promote_correct (P : array) (x : Z) :
  0 <= n -> cells_below P n bound -> tracked P n x ->
  (forall i, 0 <= i < n -> P i = x -> heap_hole A P n 0 i) ->
  heap_ok A (heap.promote A P n x) n 0 /\
  rearranged P (heap.promote A P n x) n.
Proof.
  intros Hn B T Hole. unfold heap.promote.
  destruct (heap.find (Z.to_nat n) P 0 x) as [j|] eqn:Ej.
  - apply find_some in Ej. destruct Ej as [Hj E].
    apply (sift_down_correct A n bound bound_int); try lia; try assumption.
    apply Hole; [lia | exact E].
  - apply tracked_find in T; [congruence | assumption].
Qed.

(** [push_back] of an untracked cell over the root. *)
Lemma push_back_correct (P : array) (x : Z) :
  0 < n -> cells_below (store P 0 x) n bound ->
  heap_hole A (store P 0 x) n 0 0 ->
  heap_ok A (heap.push_back A P n x) n 0 /\
  rearranged (store P 0 x) (heap.push_back A P n x) n.
Proof.
  intros Hn B Hole. unfold heap.push_back.
  apply (sift_down_correct A n bound bound_int); try lia; assumption.
Qed.

End HeapOperations.

(** ** Totals *)

Lemma total_app (calls : list call) (d s x : Z) :
  total (calls ++ [(d, s)]) x = total calls x + (if d =? x then s else 0).
Proof.
  induction calls as [|c calls IH]; simpl.
  - destruct (d =? x); lia.
  - rewrite IH. destruct (fst c =? x); lia.
Qed.

Lemma total_nonneg (calls : list call) (x : Z) :
  Forall (fun c => 0 < snd c) calls -> 0 <= total calls x.
Proof.
  induction 1 as [|c calls Hc _ IH]; simpl; [lia|].
  destruct (fst c =? x); lia.
Qed.

(** ** Agreement of two score maps on the tracked cells *)

Lemma cell_le_ext (A A' : array) (a b : Z) :
  A' a = A a -> A' b = A b -> cell_le A a b -> cell_le A' a b.
Proof. intros Ea Eb. unfold cell_le. rewrite Ea, Eb. tauto. Qed.

Lemma cell_lt_ext (A A' : array) (a b : Z) :
  A' a = A a -> A' b = A b -> cell_lt A a b -> cell_lt A' a b.
Proof. intros Ea Eb. unfold cell_lt. rewrite Ea, Eb. tauto. Qed.

Lemma heap_ok_ext (A A' P : array) (n : Z) :
  (forall i, 0 <= i < n -> A' (P i) = A (P i)) ->
  heap_ok A P n 0 -> heap_ok A' P n 0.
Proof.
  intros E H i c Hi Hc Hcn. unfold child in Hc.
  apply (cell_le_ext A); [apply E; lia | apply E; lia |].
  apply H; [assumption | exact Hc | assumption].
Qed.

Lemma heap_hole_ext (A A' P : array) (n h : Z) :
  (forall i, 0 <= i < n -> A' (P i) = A (P i)) ->
  heap_hole A P n 0 h -> heap_hole A' P n 0 h.
Proof.
  intros E [H1 H2]. split.
  - intros i c Hi N Hc Hcn. unfold child in Hc.
    apply (cell_le_ext A); [apply E; lia | apply E; lia |].
    apply H1; [assumption | assumption | exact Hc | assumption].
  - intros p c Hp Hhp Hc Hcn. unfold child in Hhp, Hc.
    apply (cell_le_ext A); [apply E; lia | apply E; lia |].
    apply H2; [assumption | exact Hhp | exact Hc | assumption].
Qed.

(** ** Appending to the pointer list *)

Lemma tracked_append (P : array) (L d x : Z) :
  0 <= L ->
  (tracked (store P L d) (L + 1) x <-> tracked P L x \/ x = d).
Proof.
  intros HL. unfold tracked, store. split.
  - intros (i & Hi & E). destruct (Z.eqb_spec i L).
    + right. congruence.
    + left. exists i. split; [lia | exact E].
  - intros [(i & Hi & E) | ->].
    + exists i. split; [lia|]. destruct (Z.eqb_spec i L); [lia | exact E].
    + exists L. split; [lia|]. now rewrite Z.eqb_refl.
Qed.

Lemma distinct_append (P : array) (L d : Z) :
  0 <= L -> distinct P L -> ~ tracked P L d ->
  distinct (store P L d) (L + 1).
Proof.
  intros HL D N i j Hi Hj. unfold store.
  destruct (Z.eqb_spec i L); destruct (Z.eqb_spec j L); intros E.
  - lia.
  - exfalso. apply N. exists j. split; [lia | congruence].
  - exfalso. apply N. exists i. split; [lia | congruence].
  - apply D; [lia | lia | exact E].
Qed.

(** ** One call against the pointer list *)

Lemma list_ok_intro (documents : Z) (T P : array) (L K : Z) :
  K = heap_size -> 0 <= L <= K ->
  (forall x, tracked P L x -> 0 <= x < documents) ->
  (forall x, tracked P L x -> 0 < T x) ->
  distinct P L ->
  (L < K -> forall d, 0 <= d < documents -> 0 < T d -> tracked P L d) ->
  (L = K -> heap_ok T P K 0) ->
  (L = K -> forall d x, 0 <= d < documents -> 0 < T d ->
     ~ tracked P L d -> tracked P L x -> cell_lt T d x) ->
  list_ok documents T P L K.
Proof.
  intros H1 H2 H3 H4 H5 H6 H7 H8. unfold list_ok.
  split; [exact H1|]. split; [exact H2|].
  split; [intros x Hx; split; [now apply H3 | now apply H4]|].
  split; [exact H5|]. split; [exact H6|]. split; [exact H7 | exact H8].
Qed.

Section Step.

Variable documents : Z.
Variables T T' : array.
Variables d s : Z.
Hypothesis Hd : 0 <= d < documents.
Hypothesis Hs : 0 < s.
Hypothesis HT' : forall x, T' x = T x + (if d =? x then s else 0).
Hypothesis Hnonneg : forall x, 0 <= T x.

Lemma T'_here : T' d = T d + s.
Proof. rewrite HT', Z.eqb_refl. reflexivity. Qed.

Lemma T'_elsewhere (x : Z) : x <> d -> T' x = T x.
Proof. intros N. rewrite HT'. destruct (Z.eqb_spec d x); lia. Qed.

Lemma T'_grows (x : Z) : T x <= T' x.
Proof. rewrite HT'. destruct (d =? x); lia. Qed.

Lemma T'_positive (x : Z) : 0 < T' x -> x = d \/ 0 < T x.
Proof. rewrite HT'. destruct (Z.eqb_spec d x); [left; lia | right; lia]. Qed.

(** The list is not full and the document is already in it. *)
Lemma step_accumulate (P : array) (L K : Z) :
  list_ok documents T P L K -> L < K -> T d <> 0 ->
  list_ok documents T' P L K.
Proof.
  intros (HK & HL & Htr & Hdis & Hfill & _ & _) Hlt Hold.
  apply list_ok_intro; try assumption; try lia.
  - intros x H. now apply Htr.
  - intros x H. pose proof (T'_grows x). apply Htr in H. lia.
  - intros _ x Hx Hpos. destruct (T'_positive x Hpos) as [-> | Hp].
    + apply Hfill; try assumption. pose proof (Hnonneg d). lia.
    + now apply Hfill.
Qed.

(** The list is not full and the document is new. *)
Lemma step_append (P : array) (L K : Z) :
  list_ok documents T P L K -> L < K -> T d = 0 -> L + 1 < K ->
  list_ok documents T' (store P L d) (L + 1) K.
Proof.
  intros (HK & HL & Htr & Hdis & Hfill & _ & _) Hlt Hold Hnext.
  assert (Nd : ~ tracked P L d) by (intros H; apply Htr in H; lia).
  apply list_ok_intro; try assumption; try lia.
  - intros x H. apply tracked_append in H; [|lia].
    destruct H as [H | ->]; [|lia]. now apply Htr.
  - intros x H. apply tracked_append in H; [|lia]. destruct H as [H | ->].
    + pose proof (T'_grows x). apply Htr in H. lia.
    + rewrite T'_here. lia.
  - apply distinct_append; [lia | assumption | assumption].
  - intros _ x Hx Hpos. apply tracked_append; [lia|].
    destruct (T'_positive x Hpos) as [-> | Hp]; [now right | left].
    now apply Hfill.
Qed.

(** The new document fills the list, and the heap is built. *)
Lemma step_fill (P P3 : array) (L K : Z) :
  list_ok documents T P L K -> L < K -> T d = 0 -> L + 1 = K ->
  heap_ok T' P3 K 0 -> rearranged (store P L d) P3 K ->
  list_ok documents T' P3 K K.
Proof.
  intros (HK & HL & Htr & Hdis & Hfill & _ & _) Hlt Hold Hnext Hheap
    (_ & Hset & Hdis3).
  assert (Nd : ~ tracked P L d) by (intros H; apply Htr in H; lia).
  assert (Tr : forall x, tracked P3 K x <-> tracked P L x \/ x = d).
  { intros x. rewrite <- Hset, <- Hnext. apply tracked_append. lia. }
  apply list_ok_intro; try assumption; try lia.
  - intros x H. apply Tr in H. destruct H as [H | ->]; [|lia].
    now apply Htr.
  - intros x H. apply Tr in H. destruct H as [H | ->].
    + pose proof (T'_grows x). apply Htr in H. lia.
    + rewrite T'_here. lia.
  - apply Hdis3. rewrite <- Hnext.
    apply distinct_append; [lia | assumption | assumption].
  - intros _. exact Hheap.
  - intros _ x y Hx Hpos Nx _. exfalso. apply Nx, Tr.
    destruct (T'_positive x Hpos) as [-> | Hp]; [now right | left].
    now apply Hfill.
Qed.

(** From here on the list is full. *)

Lemma full_root_tracked (P : array) (K : Z) :
  list_ok documents T P K K -> tracked P K (P 0).
Proof.
  intros (HK & _). exists 0. unfold heap_size in HK. split; [lia | reflexivity].
Qed.

Lemma full_root_minimal (P : array) (K x : Z) :
  list_ok documents T P K K -> tracked P K x -> cell_le T (P 0) x.
Proof.
  intros (HK & HL & Htr & Hdis & _ & Hheap & _) (i & Hi & <-).
  apply (root_minimal T K); [now apply Hheap | assumption].
Qed.

Lemma full_untracked (P : array) (K : Z) :
  list_ok documents T P K K -> cell_lt T d (P 0) -> ~ tracked P K d.
Proof.
  intros Ok Hlt Tr. pose proof (full_root_minimal P K d Ok Tr). order.
Qed.

Lemma full_tracked (P : array) (K : Z) :
  list_ok documents T P K K -> cell_le T (P 0) d -> tracked P K d.
Proof.
  intros Ok Hle.
  destruct (full_root_tracked P K Ok) as (i0 & Hi0 & E0).
  destruct Ok as (HK & HL & Htr & Hdis & _ & Hheap & Hbelow).
  assert (R : 0 < T (P 0)) by (apply Htr; now exists i0).
  destruct (tracked_dec K P d ltac:(lia)) as [Tr | N]; [exact Tr | exfalso].
  assert (cell_lt T d (P 0)).
  { apply Hbelow; try assumption; try reflexivity; [order | now exists i0]. }
  order.
Qed.

(** The document is not in the full list and stays below the root. *)
Lemma step_skip (P : array) (K : Z) :
  list_ok documents T P K K -> cell_lt T d (P 0) -> cell_le T' d (P 0) ->
  list_ok documents T' P K K.
Proof.
  intros Ok Hlt Hle.
  pose proof (full_untracked P K Ok Hlt) as Nd.
  pose proof (full_root_tracked P K Ok) as R.
  destruct Ok as (HK & HL & Htr & Hdis & _ & Hheap & Hbelow).
  assert (Same : forall x, tracked P K x -> T' x = T x).
  { intros x Hx. apply T'_elsewhere. intros ->. contradiction. }
  assert (Hheap' : heap_ok T' P K 0).
  { apply (heap_ok_ext T); [|now apply Hheap].
    intros i Hi. apply Same. now exists i. }
  apply list_ok_intro; try assumption; try lia.
  - intros x H. now apply Htr.
  - intros x H. pose proof (T'_grows x). apply Htr in H. lia.
  - intros _. exact Hheap'.
  - intros _ x y Hx Hpos Nx Hy.
    destruct (Z.eq_dec x d) as [-> | N].
    + destruct Hy as (i & Hi & <-).
      pose proof (root_minimal T' K P Hheap' i Hi) as M.
      assert (d <> P i) by (intros E; apply Nd; exists i; now split).
      order.
    + destruct (T'_positive x Hpos) as [-> | Hp]; [contradiction|].
      pose proof (Hbelow eq_refl x y Hx Hp Nx Hy) as B.
      pose proof (Same y Hy). pose proof (T'_elsewhere x N). order.
Qed.

(** The document is in the full list: its entry becomes a hole for
    [promote], and any heap over the same pointers satisfies the
    invariant again. *)
Lemma step_promote_hole (P : array) (K i : Z) :
  list_ok documents T P K K -> 0 <= i < K -> P i = d ->
  heap_hole T' P K 0 i.
Proof.
  intros (HK & HL & Htr & Hdis & _ & Hheap & _) Hi E.
  specialize (Hheap eq_refl).
  assert (Other : forall j, 0 <= j < K -> j <> i -> T' (P j) = T (P j)).
  { intros j Hj N. apply T'_elsewhere. intros E'. apply N.
    apply Hdis; [assumption | assumption | congruence]. }
  pose proof T'_here as Here. split.
  - intros j c Hj N Hc Hcn. pose proof Hc as Hc'. unfold child in Hc'.
    pose proof (Hheap j c Hj Hc Hcn) as Le.
    pose proof (Other j ltac:(lia) N) as Ej.
    destruct (Z.eq_dec c i) as [-> | Nc].
    + rewrite E in *. order.
    + pose proof (Other c ltac:(lia) Nc). order.
  - intros p c Hp Hip Hc Hcn. pose proof Hc as Hc'. unfold child in Hc'.
    pose proof Hip as Hip'. unfold child in Hip'.
    pose proof (Hheap p i Hp Hip ltac:(lia)) as Le1.
    pose proof (Hheap i c ltac:(lia) Hc Hcn) as Le2.
    pose proof (Other p ltac:(lia) ltac:(lia)).
    pose proof (Other c ltac:(lia) ltac:(lia)). order.
Qed.

Lemma step_promote (P P3 : array) (K : Z) :
  list_ok documents T P K K -> tracked P K d ->
  heap_ok T' P3 K 0 -> rearranged P P3 K ->
  list_ok documents T' P3 K K.
Proof.
  intros (HK & HL & Htr & Hdis & _ & _ & Hbelow) Trd Hheap3
    (_ & Hset & Hdis3).
  pose proof T'_here as Here.
  apply list_ok_intro; try assumption; try lia.
  - intros x H. apply Hset in H. now apply Htr.
  - intros x H. apply Hset in H. pose proof (T'_grows x).
    apply Htr in H. lia.
  - now apply Hdis3.
  - intros _. exact Hheap3.
  - intros _ x y Hx Hpos Nx Hy.
    assert (Nx' : ~ tracked P K x) by (intros H; apply Nx, Hset, H).
    assert (N : x <> d) by (intros ->; contradiction).
    destruct (T'_positive x Hpos) as [-> | Hp]; [contradiction|].
    apply Hset in Hy.
    pose proof (Hbelow eq_refl x y Hx Hp Nx' Hy) as B.
    pose proof (T'_elsewhere x N).
    destruct (Z.eq_dec y d) as [-> | Ny]; [order|].
    pose proof (T'_elsewhere y Ny). order.
Qed.

(** The document replaces the root of the full list. *)

Lemma tracked_replace_root (P : array) (K x : Z) :
  0 < K ->
  (tracked (store P 0 d) K x <->
   x = d \/ exists i, 0 < i < K /\ P i = x).
Proof.
  intros HK. unfold tracked, store. split.
  - intros (i & Hi & E). destruct (Z.eqb_spec i 0).
    + left. congruence.
    + right. exists i. split; [lia | exact E].
  - intros [-> | (i & Hi & E)].
    + exists 0. split; [lia | reflexivity].
    + exists i. split; [lia|]. destruct (Z.eqb_spec i 0); [lia | exact E].
Qed.

Lemma step_push_hole (P : array) (K : Z) :
  list_ok documents T P K K -> ~ tracked P K d ->
  heap_hole T' (store P 0 d) K 0 0.
Proof.
  intros (HK & HL & Htr & Hdis & _ & Hheap & _) Nd.
  specialize (Hheap eq_refl).
  assert (Same : forall j, 0 <= j < K -> T' (P j) = T (P j)).
  { intros j Hj. apply T'_elsewhere. intros E. apply Nd. now exists j. }
  split.
  - intros i c Hi N Hc Hcn. pose proof Hc as Hc'. unfold child in Hc'.
    unfold store.
    destruct (Z.eqb_spec i 0); [lia|]. destruct (Z.eqb_spec c 0); [lia|].
    apply (cell_le_ext T); [apply Same; lia | apply Same; lia |].
    now apply Hheap.
  - intros p c Hp H0p. unfold child in H0p. lia.
Qed.

Lemma step_push (P P3 : array) (K : Z) :
  list_ok documents T P K K ->
  cell_lt T d (P 0) -> cell_lt T' (P 0) d ->
  heap_ok T' P3 K 0 -> rearranged (store P 0 d) P3 K ->
  list_ok documents T' P3 K K.
Proof.
  intros Ok Hlt Hgt Hheap3 (_ & Hset & Hdis3).
  pose proof (full_untracked P K Ok Hlt) as Nd.
  pose proof (full_root_tracked P K Ok) as R.
  pose proof (full_root_minimal P K) as Min. specialize (fun x => Min x Ok).
  destruct Ok as (HK & HL & Htr & Hdis & _ & _ & Hbelow).
  assert (K0 : 0 < K) by (unfold heap_size in HK; lia).
  assert (Same : forall x, tracked P K x -> T' x = T x).
  { intros x Hx. apply T'_elsewhere. intros ->. contradiction. }
  assert (Tr : forall x, tracked P3 K x <->
                 x = d \/ exists i, 0 < i < K /\ P i = x).
  { intros x. rewrite <- Hset. now apply tracked_replace_root. }
  assert (Old : forall x, (exists i, 0 < i < K /\ P i = x) -> tracked P K x).
  { intros x (i & Hi & E). exists i. split; [lia | exact E]. }
  pose proof T'_here as Here.
  apply list_ok_intro; try assumption; try lia.
  - intros x H. apply Tr in H. destruct H as [-> | H]; [lia|].
    now apply Htr, Old.
  - intros x H. apply Tr in H. destruct H as [-> | H].
    + pose proof (Hnonneg d). lia.
    + pose proof (T'_grows x). apply Old, Htr in H. lia.
  - apply Hdis3. intros i j Hi Hj. unfold store.
    destruct (Z.eqb_spec i 0); destruct (Z.eqb_spec j 0); intros E.
    + lia.
    + exfalso. apply Nd. exists j. split; [lia | congruence].
    + exfalso. apply Nd. exists i. split; [lia | congruence].
    + apply Hdis; [lia | lia | exact E].
  - intros _. exact Hheap3.
  - intros _ x y Hx Hpos Nx Hy.
    assert (N : x <> d) by (intros ->; apply Nx, Tr; now left).
    destruct (T'_positive x Hpos) as [-> | Hp]; [contradiction|].
    pose proof (T'_elsewhere x N) as Ex.
    pose proof (Same (P 0) R) as Er.
    apply Tr in Hy.
    destruct (Z.eq_dec x (P 0)) as [-> | Nr].
    + destruct Hy as [-> | (i & Hi & <-)]; [exact Hgt|].
      assert (Ti : tracked P K (P i)) by (exists i; split; [lia | reflexivity]).
      pose proof (Min (P i) Ti) as M. pose proof (Same (P i) Ti).
      assert (P 0 <> P i).
      { intros E. apply Hdis in E; lia. }
      order.
    + assert (Nx' : ~ tracked P K x).
      { intros (i & Hi & E). destruct (Z.eq_dec i 0) as [-> | Ni].
        - congruence.
        - apply Nx, Tr. right. exists i. split; [lia | exact E]. }
      pose proof (Hbelow eq_refl x (P 0) Hx Hp Nx' R) as B0.
      destruct Hy as [-> | Hy]; [order|].
      apply Old in Hy.
      pose proof (Hbelow eq_refl x y Hx Hp Nx' Hy) as B.
      pose proof (Same y Hy). order.
Qed.

End Step.

(** ** One call against the memory *)

Lemma memory_ok_same (documents : Z) (calls : list call) (e e' : engine) :
  same_memory e e' -> memory_ok documents calls e ->
  memory_ok documents calls e'.
Proof.
  intros (F & A & S & W) (G & N & C & D).
  unfold memory_ok, geometry, strip_of. rewrite F, A, S, W.
  split; [exact G|]. split; [exact N|]. split; [exact C | exact D].
Qed.

Lemma strip_of_touch (e : engine) (d x : Z) :
  strip_of (touch e d) x = strip_of e x.
Proof.
  unfold strip_of. destruct (touch_frame e d) as (_ & F & _). now rewrite F.
Qed.

Lemma memory_ok_touch (documents : Z) (calls : list call) (e : engine) (d : Z) :
  documents <= 2 ^ 32 ->
  memory_ok documents calls e -> 0 <= d < documents ->
  memory_ok documents calls (touch e d) /\
  clean_flags (touch e d) (strip_of (touch e d) d) <> 0.
Proof.
  intros Hdoc (G & N & C & D) Hd.
  assert (G' : geometry (touch e d)).
  { unfold geometry. destruct (touch_frame e d) as (_ & F1 & F2 & _).
    now rewrite F1, F2. }
  split; [split; [exact G'|]; split; [exact N|]; split|].
  - intros x Hx. rewrite strip_of_touch, touch_clean_flags by assumption.
    destruct (Z.eqb_spec (strip_of e x) (strip_of e d)) as [E|NE].
    + destruct (Z.eqb_spec (clean_flags e (strip_of e x)) 0); [lia|].
      intros H. contradiction.
    + now apply C.
  - intros x Hx. rewrite strip_of_touch, touch_clean_flags by assumption.
    rewrite touch_accumulators by (assumption || lia).
    destruct (Z.eqb_spec (strip_of e x) (strip_of e d)) as [E|NE].
    + rewrite andb_true_r, <- E.
      destruct (Z.eqb_spec (clean_flags e (strip_of e x)) 0) as [Z0|NZ].
      * intros _. symmetry. now apply C.
      * intros _. now apply D.
    + rewrite andb_false_r. now apply D.
  - rewrite strip_of_touch, touch_clean_flags by assumption.
    rewrite Z.eqb_refl.
    destruct (Z.eqb_spec (clean_flags e (strip_of e d)) 0); lia.
Qed.

Lemma memory_ok_add_score
    (documents : Z) (calls : list call) (e : engine) (d s : Z) :
  memory_ok documents calls e -> 0 <= d < documents ->
  clean_flags e (strip_of e d) <> 0 ->
  0 < s -> total calls d + s < 2 ^ 16 ->
  memory_ok documents (calls ++ [(d, s)]) (add_score e d s).
Proof.
  intros (G & N & C & D) Hd Hdirty Hs Hfit.
  split; [exact G|]. split; [|split].
  - intros x. rewrite total_app. pose proof (N x). destruct (d =? x); lia.
  - intros x Hx Hclean. rewrite total_app.
    change (strip_of (add_score e d s) x) with (strip_of e x) in Hclean.
    change (clean_flags (add_score e d s)) with (clean_flags e) in Hclean.
    destruct (Z.eqb_spec d x) as [->|_]; [contradiction|].
    rewrite (C x Hx Hclean). reflexivity.
  - intros x Hx Hflag. rewrite total_app.
    change (strip_of (add_score e d s) x) with (strip_of e x) in Hflag.
    change (clean_flags (add_score e d s)) with (clean_flags e) in Hflag.
    unfold add_score. simpl. unfold store.
    rewrite (Z.eqb_sym x d).
    destruct (Z.eqb_spec d x) as [<-|_].
    + rewrite (D d Hd Hdirty). apply to_uint16_small.
      pose proof (N d). lia.
    + rewrite (D x Hx Hflag). lia.
Qed.

Lemma near_cells (documents x y : Z) :
  documents <= 2 ^ 31 ->
  0 <= x < documents -> 0 <= y < documents -> - 2 ^ 31 <= x - y < 2 ^ 31.
Proof.
  assert (P31 : 2 ^ 31 = 2147483648) by reflexivity. lia.
Qed.

(** ** One call of [add_rsv] *)

Section Maintain.

Variable documents : Z.
Variable calls : list call.
Variable e : engine.
Variables d s : Z.
Hypothesis Hdoc : documents <= 2 ^ 31.
Hypothesis Hinv : invariant documents calls e.
Hypothesis Hd : 0 <= d < documents.
Hypothesis Hdirty : clean_flags e (strip_of e d) <> 0.
Hypothesis Hs : 0 < s.
Hypothesis Hfit : total calls d + s < 2 ^ 16.

Let T : array := total calls.
Let T' : array := total (calls ++ [(d, s)]).
Let A : array := accumulators e.
Let A2 : array := accumulators (add_score e d s).
Let P : array := accumulator_pointers e.
Let L : Z := results_list_length e.
Let K : Z := top_k e.

Lemma step_totals : forall x, T' x = T x + (if d =? x then s else 0).
Proof. intros x. apply total_app. Qed.

Lemma step_nonneg : forall x, 0 <= T x.
Proof. destruct Hinv as ((_ & N & _) & _). exact N. Qed.

Lemma step_list : list_ok documents T P L K.
Proof. destruct Hinv as (_ & H). exact H. Qed.

Lemma step_memory : memory_ok documents (calls ++ [(d, s)]) (add_score e d s).
Proof.
  destruct Hinv as (M & _). now apply memory_ok_add_score.
Qed.

(** Before the addition the cell of the document and the tracked cells
    hold their totals. *)
Lemma before_here : A d = T d.
Proof. destruct Hinv as ((_ & _ & _ & D) & _). now apply D. Qed.

Lemma before_tracked (x : Z) : tracked P L x -> A x = T x.
Proof.
  intros H. destruct Hinv as ((_ & _ & C & D) & (_ & _ & Htr & _)).
  apply Htr in H. destruct H as [Hx Hpos]. apply D; [assumption|].
  intros Hc. apply C in Hc; [|assumption]. unfold T in *. lia.
Qed.

(** After the addition they hold the new totals. *)
Lemma after_here : A2 d = T' d.
Proof.
  destruct step_memory as (_ & _ & _ & D). apply D; assumption.
Qed.

Lemma after_tracked (x : Z) : tracked P L x -> A2 x = T' x.
Proof.
  intros H. destruct step_memory as (_ & _ & _ & D).
  destruct Hinv as ((_ & _ & C & _) & (_ & _ & Htr & _)).
  apply Htr in H. destruct H as [Hx Hpos]. apply D; [assumption|].
  intros Hc. apply C in Hc; [|assumption]. unfold T in *. lia.
Qed.

Lemma tracked_cell (x : Z) : tracked P L x -> 0 <= x < documents.
Proof.
  intros H. destruct Hinv as (_ & (_ & _ & Htr & _)). now apply Htr.
Qed.

Lemma cells_below_list : cells_below P L documents.
Proof. intros i Hi. apply tracked_cell. now exists i. Qed.

Lemma finish (e' : engine) :
  same_memory (add_score e d s) e' ->
  list_ok documents T' (accumulator_pointers e') (results_list_length e')
    (top_k e') ->
  invariant documents (calls ++ [(d, s)]) e'.
Proof.
  intros Same Ok. split; [|exact Ok].
  apply (memory_ok_same _ _ (add_score e d s)); [exact Same|].
  exact step_memory.
Qed.

Lemma K_is_heap_size : K = heap_size.
Proof. destruct step_list as (H & _). exact H. Qed.

Lemma L_range : 0 <= L <= K.
Proof. destruct step_list as (_ & H & _). exact H. Qed.

Lemma after_relevant (Q : array) (n : Z) :
  (forall x, tracked Q n x -> x = d \/ tracked P L x) ->
  forall i, 0 <= i < n -> T' (Q i) = A2 (Q i).
Proof.
  intros H i Hi. destruct (H (Q i)) as [-> | Tr]; [now exists i | |].
  - symmetry. exact after_here.
  - symmetry. now apply after_tracked.
Qed.

Lemma cells_below_relevant (Q : array) (n : Z) :
  (forall x, tracked Q n x -> x = d \/ tracked P L x) ->
  cells_below Q n documents.
Proof.
  intros H i Hi. destruct (H (Q i)) as [-> | Tr]; [now exists i | |].
  - exact Hd.
  - now apply tracked_cell.
Qed.

Lemma maintain_invariant :
  invariant documents (calls ++ [(d, s)]) (maintain_heap e d s).
Proof.
  pose proof step_list as Ok. pose proof K_is_heap_size as HK.
  pose proof L_range as HL. pose proof before_here as Bd.
  pose proof after_here as Ad.
  pose proof step_totals as Tot. pose proof step_nonneg as Nn.
  assert (K10 : K = 10) by exact HK.
  assert (P32 : 2 ^ 32 = 4294967296) by reflexivity.
  unfold maintain_heap. fold L K A P.
  destruct (Z.ltb_spec L K) as [Hlt | Hge].
  - destruct (Z.eqb_spec (A d) 0) as [Hz | Hnz].
    + cbn [results_list_length top_k with_results_list_length
           with_accumulator_pointers add_score with_accumulators].
      fold L K. rewrite to_uint32_small by lia.
      assert (Rel : forall x, tracked (store P L d) (L + 1) x ->
                      x = d \/ tracked P L x).
      { intros x H. apply tracked_append in H; [tauto | lia]. }
      destruct (Z.eqb_spec (L + 1) K) as [Hfull | Hnot].
      * apply finish; [repeat split; reflexivity|]. simpl. fold A2 P L K.
        rewrite Hfull in *. rewrite <- HK.
        destruct (make_heap_correct A2 K documents Hdoc (store P L d))
          as [Hheap R]; [lia | |].
        { now apply cells_below_relevant. }
        apply (step_fill documents T T' d s Hd Hs Tot P _ L K);
          try assumption; try lia.
        apply (heap_ok_ext A2); [|exact Hheap].
        apply after_relevant. intros x H. apply Rel.
        destruct R as (_ & Hset & _). now apply Hset.
      * apply finish; [repeat split; reflexivity|]. simpl. fold P L K.
        apply (step_append documents T T' d s Hd Hs Tot); try assumption; lia.
    + change (results_list_length (add_score e d s)) with L.
      change (top_k (add_score e d s)) with K.
      destruct (Z.eqb_spec L K); [lia|].
      apply finish; [repeat split; reflexivity|]. simpl. fold P L K.
      apply (step_accumulate documents T T' d s Hs Tot Nn);
        try assumption; lia.
  - assert (HLK : L = K) by lia. rewrite HLK in Ok.
    pose proof (full_root_tracked documents T P K Ok) as Root.
    rewrite <- HLK in Root.
    pose proof (tracked_cell _ Root) as Hroot.
    pose proof (before_tracked _ Root) as Broot.
    pose proof (after_tracked _ Root) as Aroot.
    pose proof (near_cells documents d (P 0) Hdoc Hd Hroot) as Near.
    rewrite Z.geb_leb.
    destruct (Z.leb_spec 0 (cmp A d (P 0))) as [Hin | Hout].
    + apply cmp_nonnegative in Hin; [|exact Near].
      assert (Hin' : cell_le T (P 0) d)
        by (apply (cell_le_ext A); [now symmetry | now symmetry | exact Hin]).
      pose proof (full_tracked documents T d Hd P K Ok Hin') as Trd.
      apply finish; [repeat split; reflexivity|]. simpl. fold A2 P L K.
      rewrite HLK, <- HK.
      assert (Rel : forall x, tracked P K x -> x = d \/ tracked P L x)
        by (intros x H; right; now rewrite HLK).
      destruct (promote_correct A2 K documents Hdoc P d) as [Hheap R];
        try lia; try assumption.
      { rewrite <- HLK. exact cells_below_list. }
      { intros i Hi E. apply (heap_hole_ext T').
        - intros j Hj. symmetry. now apply (after_relevant P K).
        - now apply (step_promote_hole documents T T' d s Hs Tot). }
      apply (step_promote documents T T' d s Hs Tot P); try assumption.
      apply (heap_ok_ext A2); [|exact Hheap].
      apply after_relevant. intros x H. apply Rel.
      destruct R as (_ & Hset & _). now apply Hset.
    + apply cmp_negative in Hout; [|exact Near].
      assert (Hout' : cell_lt T d (P 0))
        by (apply (cell_lt_ext A); [now symmetry | now symmetry | exact Hout]).
      change (accumulator_pointers (add_score e d s) 0) with (P 0).
      fold A2. rewrite Z.gtb_ltb.
      destruct (Z.ltb_spec 0 (cmp A2 d (P 0))) as [Hup | Hlow].
      * apply cmp_positive in Hup; [|exact Near].
        assert (Hup' : cell_lt T' (P 0) d)
          by (apply (cell_lt_ext A2); [now symmetry | now symmetry | exact Hup]).
        pose proof (full_untracked documents T d P K Ok Hout') as Nd.
        apply finish; [repeat split; reflexivity|]. simpl. fold A2 P L K.
        rewrite HLK, <- HK.
        assert (Rel : forall x, tracked (store P 0 d) K x ->
                        x = d \/ tracked P L x).
        { intros x H. apply tracked_replace_root in H; [|lia].
          destruct H as [-> | (i & Hi & E)]; [now left | right].
          exists i. split; [lia | exact E]. }
        destruct (push_back_correct A2 K documents Hdoc P d) as [Hheap R];
          try lia.
        { now apply cells_below_relevant. }
        { apply (heap_hole_ext T').
          - intros j Hj. symmetry. now apply (after_relevant _ K).
          - now apply (step_push_hole documents T T' d s Hd Hs Tot). }
        apply (step_push documents T T' d s Hd Hs Tot Nn P); try assumption.
        apply (heap_ok_ext A2); [|exact Hheap].
        apply after_relevant. intros x H. apply Rel.
        destruct R as (_ & Hset & _). now apply Hset.
      * assert (Hlow' : cell_le T' d (P 0)).
        { apply (cell_le_ext A2); [now symmetry | now symmetry |].
          apply cmp_nonnegative.
          - pose proof (near_cells documents (P 0) d Hdoc Hroot Hd). lia.
          - destruct (cell_le_or_lt A2 d (P 0)) as [H | H]; [|exfalso].
            + apply cmp_nonnegative; [|exact H].
              pose proof (near_cells documents (P 0) d Hdoc Hroot Hd). lia.
            + apply cmp_positive in H; [lia | exact Near]. }
        apply finish; [repeat split; reflexivity|]. simpl. fold P L K.
        rewrite HLK.
        apply (step_skip documents T T' d s Hd Hs Tot P K); assumption.
Qed.

End Maintain.

(** ** A whole query *)

Lemma total_concat (l1 l2 : list call) (x : Z) :
  total (l1 ++ l2) x = total l1 x + total l2 x.
Proof.
  induction l1 as [|c l1 IH]; simpl; [lia|].
  rewrite IH. destruct (fst c =? x); lia.
Qed.

Lemma valid_calls_nonneg (documents : Z) (calls : list call) (x : Z) :
  valid_calls documents calls -> 0 <= total calls x.
Proof.
  intros H. apply total_nonneg.
  apply (Forall_impl _ (P := fun c => 0 <= fst c < documents /\ 0 < snd c));
    [tauto | exact H].
Qed.

Lemma invariant_add_rsv
    (documents : Z) (calls : list call) (e : engine) (d s : Z) :
  documents <= 2 ^ 31 ->
  invariant documents calls e ->
  0 <= d < documents -> 0 < s -> total calls d + s < 2 ^ 16 ->
  invariant documents (calls ++ [(d, s)]) (add_rsv e d s).
Proof.
  intros Hdoc (M & Ok) Hd Hs Hfit. unfold add_rsv.
  assert (P32 : 2 ^ 31 <= 2 ^ 32) by (apply Z.pow_le_mono_r; lia).
  destruct (memory_ok_touch documents calls e d ltac:(lia) M Hd) as [M' Dirty].
  apply maintain_invariant; try assumption.
  split; [exact M'|].
  destruct (touch_frame e d) as (F1 & _ & _ & _ & F2 & F3 & _).
  rewrite F1, F2, F3. exact Ok.
Qed.

Lemma invariant_rewind (documents : Z) (e : engine) :
  configured documents e -> invariant documents [] (rewind e).
Proof.
  intros (G & HK & Hcover). split.
  - split; [exact G|]. split; [intros d; simpl; lia|]. split.
    + intros d Hd _. reflexivity.
    + intros d Hd Hflag. exfalso. apply Hflag.
      change (strip_of (rewind e) d) with (strip_of e d).
      apply rewind_clean_flags. split; [|now apply Hcover].
      apply strip_nonneg; [exact G | lia].
  - apply list_ok_intro.
    + exact HK.
    + simpl. rewrite HK. unfold heap_size. lia.
    + intros x (i & Hi & _). simpl in Hi. lia.
    + intros x (i & Hi & _). simpl in Hi. lia.
    + intros i j Hi. simpl in Hi. lia.
    + intros _ d Hd Hpos. simpl in Hpos. lia.
    + simpl. rewrite HK. unfold heap_size. lia.
    + simpl. rewrite HK. unfold heap_size. lia.
Qed.

Lemma invariant_run (documents : Z) (rest : list call) :
  forall (calls : list call) (e : engine),
  documents <= 2 ^ 31 ->
  invariant documents calls e ->
  valid_calls documents rest -> no_overflow (calls ++ rest) ->
  invariant documents (calls ++ rest) (run e rest).
Proof.
  induction rest as [|c rest IH]; intros calls e Hdoc Hinv Hvalid Hfit.
  - rewrite app_nil_r. exact Hinv.
  - inversion Hvalid as [|? ? [Hd Hs] Hvalid']; subst.
    destruct c as [d s]. simpl in Hd, Hs. simpl.
    pose proof (app_assoc calls [(d, s)] rest) as E. simpl in E.
    rewrite E in Hfit. rewrite E.
    apply IH; try assumption.
    apply invariant_add_rsv; try assumption.
    pose proof (Hfit d) as F. rewrite total_concat, total_app in F.
    rewrite Z.eqb_refl in F.
    pose proof (valid_calls_nonneg documents rest d Hvalid'). lia.
Qed.

(** ** Sorted lists *)

Lemma StronglySorted_app {X : Type} (R : X -> X -> Prop) (l1 l2 : list X) :
  StronglySorted R l1 -> StronglySorted R l2 ->
  (forall x y, In x l1 -> In y l2 -> R x y) ->
  StronglySorted R (l1 ++ l2).
Proof.
  intros S1 S2 H. induction S1 as [|a l1 S1 IH Ha]; simpl; [exact S2|].
  constructor.
  - apply IH. intros x y Hx Hy. apply H; [now right | exact Hy].
  - apply Forall_app. split; [exact Ha|].
    apply Forall_forall. intros y Hy. apply H; [now left | exact Hy].
Qed.

Lemma StronglySorted_filter {X : Type} (R : X -> X -> Prop) (f : X -> bool)
    (l : list X) :
  StronglySorted R l -> StronglySorted R (filter f l).
Proof.
  induction 1 as [|a l S IH Ha]; simpl; [constructor|].
  destruct (f a); [|exact IH]. constructor; [exact IH|].
  apply Forall_forall. intros y Hy. apply filter_In in Hy.
  rewrite Forall_forall in Ha. apply Ha. tauto.
Qed.

(** A list sorted by an antisymmetric order is determined by its
    elements. *)
Lemma sorted_unique {X : Type} (R : X -> X -> Prop) :
  (forall x y, R x y -> R y x -> x = y) ->
  forall l1 l2 : list X,
  StronglySorted R l1 -> StronglySorted R l2 ->
  Permutation l1 l2 -> l1 = l2.
Proof.
  intros Anti l1. induction l1 as [|a l1 IH]; intros l2 S1 S2 Perm.
  - apply Permutation_nil in Perm. now subst.
  - destruct l2 as [|b l2].
    + apply Permutation_sym, Permutation_nil in Perm. discriminate.
    + inversion S1 as [|? ? S1' Fa]; subst.
      inversion S2 as [|? ? S2' Fb]; subst.
      rewrite Forall_forall in Fa, Fb.
      assert (E : a = b).
      { assert (Ia : In a (b :: l2))
          by (apply (Permutation_in _ Perm); now left).
        assert (Ib : In b (a :: l1))
          by (apply (Permutation_in _ (Permutation_sym Perm)); now left).
        destruct Ia as [-> | Ia]; [reflexivity|].
        destruct Ib as [-> | Ib]; [reflexivity|].
        apply Anti; [now apply Fa | now apply Fb]. }
      subst b. f_equal. apply IH; try assumption.
      now apply Permutation_cons_inv in Perm.
Qed.

Lemma filter_split {X : Type} (f : X -> bool) (l : list X) :
  Permutation (filter f l ++ filter (fun x => negb (f x)) l) l.
Proof.
  induction l as [|a l IH]; simpl; [constructor|].
  destruct (f a); simpl.
  - now constructor.
  - apply Permutation_sym, Permutation_cons_app, Permutation_sym, IH.
Qed.

Lemma filter_split_length {X : Type} (f : X -> bool) (l : list X) :
  (List.length (filter f l) +
   List.length (filter (fun x => negb (f x)) l))%nat = List.length l.
Proof.
  rewrite <- length_app. apply Permutation_length, filter_split.
Qed.

(** ** The partial sort orders a list no longer than [k] completely *)

Section PartialSort.

Variable A : array.
Variable bound : Z.
Hypothesis bound_int : bound <= 2 ^ 31.

Lemma above_true (pivot x : Z) :
  0 <= pivot < bound -> 0 <= x < bound ->
  above A pivot x = true -> cell_ge A x pivot.
Proof.
  intros Hp Hx H. unfold above in H. rewrite Z.gtb_ltb in H.
  apply Z.ltb_lt in H. apply cmp_positive in H.
  - unfold cell_ge. now apply cell_lt_le.
  - assert (P31 : 2 ^ 31 = 2147483648) by reflexivity. lia.
Qed.

Lemma above_false (pivot x : Z) :
  0 <= pivot < bound -> 0 <= x < bound ->
  above A pivot x = false -> cell_ge A pivot x.
Proof.
  intros Hp Hx H. unfold above in H. rewrite Z.gtb_ltb in H.
  apply Z.ltb_ge in H. unfold cell_ge.
  destruct (cell_le_or_lt A x pivot) as [Le | Lt]; [exact Le | exfalso].
  apply cmp_positive in Lt; [lia|].
  assert (P31 : 2 ^ 31 = 2147483648) by reflexivity. lia.
Qed.

Lemma top_k_sort_correct (fuel : nat) :
  forall (l : list Z) (k : Z),
  (List.length l <= fuel)%nat -> Z.of_nat (List.length l) <= k ->
  Forall (fun x => 0 <= x < bound) l ->
  Permutation (top_k_sort fuel A l k) l /\
  StronglySorted (cell_ge A) (top_k_sort fuel A l k).
Proof.
  induction fuel as [|fuel IH]; intros l k Hfuel Hk B.
  - destruct l; [|simpl in Hfuel; lia]. split; constructor.
  - destruct l as [|pivot rest]; [split; constructor|].
    cbn [top_k_sort]. cbv zeta.
    set (hi := filter (above A pivot) rest).
    set (lo := filter (fun x => negb (above A pivot x)) rest).
    pose proof (filter_split_length (above A pivot) rest) as Len.
    fold hi lo in Len. simpl in Hfuel, Hk.
    inversion B as [|? ? Bp Brest]; subst.
    rewrite Forall_forall in Brest.
    assert (Bhi : Forall (fun x => 0 <= x < bound) hi).
    { apply Forall_forall. intros x Hx. apply filter_In in Hx.
      apply Brest. tauto. }
    assert (Blo : Forall (fun x => 0 <= x < bound) lo).
    { apply Forall_forall. intros x Hx. apply filter_In in Hx.
      apply Brest. tauto. }
    destruct (IH hi k) as [Phi Shi]; [lia | lia | exact Bhi |].
    assert (Low : exists lo', Permutation lo' lo /\
                    StronglySorted (cell_ge A) lo' /\
                    (if Z.of_nat (List.length hi) + 1 <? k
                     then top_k_sort fuel A lo (k - (Z.of_nat (List.length hi) + 1))
                     else lo) = lo').
    { destruct (Z.ltb_spec (Z.of_nat (List.length hi) + 1) k).
      - destruct (IH lo (k - (Z.of_nat (List.length hi) + 1)))
          as [Plo Slo]; [lia | lia | exact Blo |].
        eexists. split; [exact Plo|]. split; [exact Slo | reflexivity].
      - exists lo. split; [apply Permutation_refl|].
        split; [|reflexivity].
        destruct lo; [constructor | simpl in Len; lia]. }
    destruct Low as (lo' & Plo & Slo & ->).
    split.
    + apply Permutation_sym, Permutation_cons_app, Permutation_sym.
      apply (Permutation_trans (l' := hi ++ lo)).
      * now apply Permutation_app.
      * apply filter_split.
    + apply StronglySorted_app; [exact Shi | |].
      * constructor; [exact Slo|]. apply Forall_forall. intros y Hy.
        apply (Permutation_in _ Plo), filter_In in Hy.
        destruct Hy as [Hy Hf]. apply negb_true_iff in Hf.
        apply above_false; [exact Bp | now apply Brest | exact Hf].
      * intros x y Hx Hy.
        apply (Permutation_in _ Phi), filter_In in Hx.
        destruct Hx as [Hx Hf].
        assert (Gx : cell_ge A x pivot)
          by (apply above_true; [exact Bp | now apply Brest | exact Hf]).
        destruct Hy as [<- | Hy]; [exact Gx|].
        apply (Permutation_in _ Plo), filter_In in Hy.
        destruct Hy as [Hy Hg]. apply negb_true_iff in Hg.
        assert (Gy : cell_ge A pivot y)
          by (apply above_false; [exact Bp | now apply Brest | exact Hg]).
        unfold cell_ge in *. now apply (cell_le_trans A y pivot x).
Qed.

End PartialSort.

(** ** Reading back what [load] wrote *)

Lemma load_outside (l : list Z) :
  forall (P : array) (from i : Z),
  i < from -> load P from l i = P i.
Proof.
  induction l as [|x l IH]; intros P from i Hi; [reflexivity|].
  simpl. rewrite IH by lia. unfold store.
  destruct (Z.eqb_spec i from); [lia | reflexivity].
Qed.

Lemma load_read (l : list Z) :
  forall (P : array) (from : Z),
  map (load P from l)
    (map (fun i => from + Z.of_nat i) (seq 0 (List.length l))) = l.
Proof.
  induction l as [|x l IH]; intros P from; [reflexivity|].
  cbn [List.length seq map load]. f_equal.
  - rewrite load_outside by lia. unfold store.
    replace (from + Z.of_nat 0) with from by lia. now rewrite Z.eqb_refl.
  - rewrite <- seq_shift.
    rewrite (map_map S (fun i => from + Z.of_nat i)).
    transitivity
      (map (load (store P from x) (from + 1) l)
         (map (fun i => from + 1 + Z.of_nat i) (seq 0 (List.length l))));
      [|apply IH].
    f_equal. apply map_ext. intros i. lia.
Qed.

Lemma load_range (l : list Z) (P : array) :
  map (load P 0 l) (range (Z.of_nat (List.length l))) = l.
Proof.
  unfold range. rewrite Nat2Z.id.
  pose proof (load_read l P 0) as H.
  rewrite (map_ext _ Z.of_nat) in H by (intros i; lia). exact H.
Qed.

(** ** The brute-force reference *)

Lemma ranks_above_iff (x y : Z * Z) :
  ranks_above x y = true <->
  snd y < snd x \/ (snd x = snd y /\ fst y < fst x).
Proof.
  unfold ranks_above. rewrite orb_true_iff, andb_true_iff.
  rewrite !Z.ltb_lt, Z.eqb_eq. reflexivity.
Qed.

Lemma pair_ge_iff (x y : Z * Z) :
  pair_ge x y <-> snd y < snd x \/ (snd x = snd y /\ fst y <= fst x).
Proof.
  unfold pair_ge. rewrite <- not_true_iff_false, ranks_above_iff. lia.
Qed.

Lemma pair_ge_antisym (x y : Z * Z) : pair_ge x y -> pair_ge y x -> x = y.
Proof.
  rewrite !pair_ge_iff. destruct x, y. simpl. intros H1 H2.
  f_equal; lia.
Qed.

Lemma pair_ge_trans (x y z : Z * Z) :
  pair_ge x y -> pair_ge y z -> pair_ge x z.
Proof. rewrite !pair_ge_iff. lia. Qed.

Lemma insert_desc_perm (x : Z * Z) (l : list (Z * Z)) :
  Permutation (insert_desc x l) (x :: l).
Proof.
  induction l as [|y l IH]; simpl; [apply Permutation_refl|].
  destruct (ranks_above x y); [apply Permutation_refl|].
  apply (Permutation_trans (l' := y :: x :: l));
    [now constructor | constructor].
Qed.

Lemma insert_desc_sorted (x : Z * Z) (l : list (Z * Z)) :
  StronglySorted pair_ge l -> StronglySorted pair_ge (insert_desc x l).
Proof.
  induction 1 as [|y l S IH Hy]; simpl.
  - constructor; constructor.
  - destruct (ranks_above x y) eqn:E.
    + assert (Gxy : pair_ge x y).
      { apply pair_ge_iff. apply ranks_above_iff in E. lia. }
      constructor; [now constructor|]. constructor; [exact Gxy|].
      rewrite Forall_forall in *. intros z Hz.
      apply (pair_ge_trans x y z); [exact Gxy | now apply Hy].
    + constructor; [exact IH|]. rewrite Forall_forall in *. intros z Hz.
      apply (Permutation_in _ (insert_desc_perm x l)) in Hz.
      destruct Hz as [<- | Hz]; [exact E | now apply Hy].
Qed.

Lemma sort_desc_perm (l : list (Z * Z)) : Permutation (sort_desc l) l.
Proof.
  induction l as [|x l IH]; simpl; [constructor|].
  apply (Permutation_trans (insert_desc_perm _ _)). now constructor.
Qed.

Lemma sort_desc_sorted (l : list (Z * Z)) :
  StronglySorted pair_ge (sort_desc l).
Proof.
  induction l as [|x l IH]; simpl; [constructor|].
  now apply insert_desc_sorted.
Qed.

Lemma in_range (n i : Z) : In i (range n) <-> 0 <= i < n.
Proof.
  unfold range. rewrite in_map_iff. split.
  - intros (k & <- & Hk). apply in_seq in Hk. lia.
  - intros H. exists (Z.to_nat i). split; [lia|]. apply in_seq. lia.
Qed.

Lemma range_NoDup (n : Z) : NoDup (range n).
Proof.
  unfold range. apply Finite.Injective_map_NoDup; [|apply seq_NoDup].
  intros a b. lia.
Qed.

Lemma in_scored (documents : Z) (calls : list call) (p : Z * Z) :
  In p (scored documents calls) <->
  0 <= fst p < documents /\ 0 < snd p /\ snd p = total calls (fst p).
Proof.
  unfold scored. rewrite filter_In, in_map_iff. split.
  - intros [(d & <- & Hd) Hpos]. simpl in *. apply in_range in Hd.
    apply Z.ltb_lt in Hpos. tauto.
  - intros (Hd & Hpos & E). split; [|now apply Z.ltb_lt].
    exists (fst p). split; [|now apply in_range].
    destruct p; simpl in *. now rewrite E.
Qed.

Lemma scored_NoDup (documents : Z) (calls : list call) :
  NoDup (scored documents calls).
Proof.
  unfold scored. apply NoDup_filter.
  apply Finite.Injective_map_NoDup; [|apply range_NoDup].
  intros a b E. now inversion E.
Qed.

(** ** The iteration against the reference *)

Lemma firstn_app_exact {X : Type} (l1 l2 : list X) :
  firstn (List.length l1) (l1 ++ l2) = l1.
Proof. induction l1 as [|a l1 IH]; simpl; [now destruct l2 | now rewrite IH]. Qed.

Section Results.

Variable documents : Z.
Variable calls : list call.
Variable e : engine.
Hypothesis Hdoc : documents <= 2 ^ 31.
Hypothesis Hinv : invariant documents calls e.

Let T : array := total calls.
Let A : array := accumulators e.
Let P : array := accumulator_pointers e.
Let L : Z := results_list_length e.
Let K : Z := top_k e.
Let l : list Z := map P (range L).
Let cells : list Z := top_k_sort (List.length l) A l K.

Lemma in_l (c : Z) : In c l <-> tracked P L c.
Proof.
  unfold l, tracked. rewrite in_map_iff. split.
  - intros (i & E & Hi). apply in_range in Hi. now exists i.
  - intros (i & Hi & E). exists i. split; [exact E | now apply in_range].
Qed.

Lemma l_NoDup : NoDup l.
Proof.
  destruct Hinv as (_ & (_ & _ & _ & D & _)).
  unfold l. apply NoDup_map_NoDup_ForallPairs; [|apply range_NoDup].
  intros a b Ha Hb E. apply in_range in Ha, Hb. now apply D.
Qed.

Lemma l_length : Z.of_nat (List.length l) = L.
Proof.
  destruct Hinv as (_ & (_ & HL & _)).
  unfold l. rewrite length_map, range_length. fold L in HL. lia.
Qed.

Lemma tracked_facts (c : Z) :
  tracked P L c -> 0 <= c < documents /\ 0 < T c /\ A c = T c.
Proof.
  intros H. destruct Hinv as ((_ & _ & C & D) & (_ & _ & Htr & _)).
  apply Htr in H. destruct H as [Hc Hpos]. split; [exact Hc|].
  split; [exact Hpos|]. apply D; [exact Hc|].
  intros Z0. apply C in Z0; [|exact Hc]. lia.
Qed.

Lemma cells_sorted :
  Permutation cells l /\ StronglySorted (cell_ge A) cells.
Proof.
  destruct Hinv as (_ & (_ & HL & _)). fold L K in HL.
  apply (top_k_sort_correct A documents Hdoc).
  - lia.
  - rewrite l_length. lia.
  - apply Forall_forall. intros c Hc. apply in_l in Hc.
    now apply tracked_facts.
Qed.

Lemma in_cells (c : Z) : In c cells <-> tracked P L c.
Proof.
  destruct cells_sorted as [Perm _]. rewrite <- in_l. split.
  - apply (Permutation_in _ Perm).
  - apply (Permutation_in _ (Permutation_sym Perm)).
Qed.

Lemma cells_length : Z.of_nat (List.length cells) = L.
Proof.
  destruct cells_sorted as [Perm _].
  rewrite (Permutation_length Perm). apply l_length.
Qed.

Lemma results_shape :
  results e =
  map (fun c => (c, nth (Z.to_nat c) (primary_keys e) EmptyString, T c)) cells.
Proof.
  unfold results, sort, dereference. simpl. fold A P L K.
  unfold top_k_qsort. fold l. fold cells.
  rewrite <- (map_map (load P 0 cells)
                (fun c => (c, nth (Z.to_nat c) (primary_keys e) EmptyString, A c))).
  rewrite <- cells_length, load_range.
  apply map_ext_in. intros c Hc. apply in_cells, tracked_facts in Hc.
  destruct Hc as (_ & _ & ->). reflexivity.
Qed.

Let O : list (Z * Z) := map (fun c => (c, T c)) cells.
Let F : list (Z * Z) := sort_desc (scored documents calls).
Let R : list (Z * Z) :=
  filter (fun p => negb (existsb (Z.eqb (fst p)) cells)) F.

Lemma in_O (p : Z * Z) :
  In p O <-> tracked P L (fst p) /\ snd p = T (fst p).
Proof.
  unfold O. rewrite in_map_iff. split.
  - intros (c & <- & Hc). simpl. split; [now apply in_cells | reflexivity].
  - intros [Hc E]. exists (fst p). split; [|now apply in_cells].
    destruct p; simpl in *. now rewrite E.
Qed.

Lemma in_F (p : Z * Z) :
  In p F <-> 0 <= fst p < documents /\ 0 < snd p /\ snd p = T (fst p).
Proof.
  unfold F, T. rewrite <- in_scored. split.
  - apply (Permutation_in _ (sort_desc_perm _)).
  - apply (Permutation_in _ (Permutation_sym (sort_desc_perm _))).
Qed.

Lemma in_R (p : Z * Z) :
  In p R <-> In p F /\ ~ tracked P L (fst p).
Proof.
  unfold R. rewrite filter_In, negb_true_iff, <- not_true_iff_false.
  rewrite existsb_exists. split; intros [HF N]; (split; [exact HF|]).
  - intros Tr. apply N. exists (fst p). split; [now apply in_cells|].
    apply Z.eqb_refl.
  - intros (c & Hc & E). apply Z.eqb_eq in E. rewrite E in N.
    apply N. now apply in_cells.
Qed.

Lemma O_sorted : StronglySorted pair_ge O.
Proof.
  destruct cells_sorted as [_ S].
  assert (In_cells : forall c, In c cells -> A c = T c).
  { intros c Hc. apply in_cells, tracked_facts in Hc. tauto. }
  unfold O. induction S as [|c rest S IH Hc]; simpl; [constructor|].
  constructor.
  - apply IH. intros x Hx. apply In_cells. now right.
  - rewrite Forall_forall in *. intros p Hp. apply in_map_iff in Hp.
    destruct Hp as (y & <- & Hy). apply pair_ge_iff. simpl.
    pose proof (Hc y Hy) as G. unfold cell_ge, cell_le in G.
    rewrite (In_cells c), (In_cells y) in G; [lia | now right | now left].
Qed.

Lemma O_NoDup : NoDup O.
Proof.
  destruct cells_sorted as [Perm _].
  unfold O. apply Finite.Injective_map_NoDup.
  - intros a b E. now inversion E.
  - apply (Permutation_NoDup (Permutation_sym Perm)), l_NoDup.
Qed.

Lemma O_above_R (x y : Z * Z) : In x O -> In y R -> pair_ge x y.
Proof.
  intros Hx Hy. apply in_O in Hx. apply in_R in Hy.
  destruct Hx as [Tx Ex]. destruct Hy as [Hy Ny]. apply in_F in Hy.
  destruct Hy as (Vy & Py & Ey).
  destruct Hinv as (_ & (_ & HL & _ & _ & Hfill & _ & Hbelow)).
  fold T P L K in HL, Hfill, Hbelow.
  destruct (Z.eq_dec L K) as [Full | Not].
  - assert (B : cell_lt T (fst y) (fst x)).
    { apply Hbelow; try assumption. lia. }
    apply pair_ge_iff. unfold cell_lt in B. lia.
  - exfalso. apply Ny, Hfill; [lia | assumption | lia].
Qed.

Lemma F_splits : O ++ R = F.
Proof.
  apply (sorted_unique pair_ge pair_ge_antisym).
  - apply StronglySorted_app.
    + exact O_sorted.
    + apply StronglySorted_filter, sort_desc_sorted.
    + exact O_above_R.
  - apply sort_desc_sorted.
  - apply NoDup_Permutation.
    + apply NoDup_app; [exact O_NoDup | |].
      * apply NoDup_filter.
        apply (Permutation_NoDup (Permutation_sym (sort_desc_perm _))).
        apply scored_NoDup.
      * intros x Hx Hr. apply in_O in Hx. apply in_R in Hr. tauto.
    + apply (Permutation_NoDup (Permutation_sym (sort_desc_perm _))).
      apply scored_NoDup.
    + intros p. rewrite in_app_iff, in_O, in_R, in_F. split.
      * intros [[Tr E] | [H _]]; [|exact H].
        apply tracked_facts in Tr. rewrite E. tauto.
      * intros (V & Pos & E).
        destruct (tracked_dec L P (fst p)) as [Tr | N].
        { destruct Hinv as (_ & (_ & HL & _)). fold L in HL. lia. }
        { left. tauto. }
        { right. tauto. }
Qed.

Lemma R_empty : L < K -> R = [].
Proof.
  intros Hlt. destruct R as [|p R'] eqn:E; [reflexivity | exfalso].
  assert (Hp : In p R) by (rewrite E; now left).
  apply in_R in Hp. destruct Hp as [Hp N]. apply in_F in Hp.
  destruct Hinv as (_ & (_ & _ & _ & _ & Hfill & _)).
  apply N, Hfill; [exact Hlt | tauto | unfold T in Hp; lia].
Qed.

Lemma O_is_top : O = firstn (Z.to_nat K) F.
Proof.
  rewrite <- F_splits.
  assert (Len : Z.of_nat (List.length O) = L)
    by (unfold O; rewrite length_map; apply cells_length).
  destruct Hinv as (_ & (_ & HL & _)). fold L K in HL.
  destruct (Z.eq_dec L K) as [Full | Not].
  - replace (Z.to_nat K) with (List.length O) by lia.
    symmetry. apply firstn_app_exact.
  - rewrite R_empty by lia. rewrite app_nil_r.
    symmetry. apply firstn_all2. lia.
Qed.

(** The iteration yields the brute-force answer. *)
Lemma results_brute_force :
  results e = brute_force (primary_keys e) documents K calls.
Proof.
  rewrite results_shape. unfold brute_force. fold F.
  rewrite <- O_is_top. unfold O. rewrite map_map. reflexivity.
Qed.

End Results.

(** ** Engines built by the constructor *)

Lemma configured_after (documents : Z) (ops : list operation) :
  forall e, configured documents e -> configured documents (after e ops).
Proof.
  induction ops as [|o ops IH]; intros e C; [exact C|].
  simpl. apply IH. destruct o as [d s|]; simpl; [|exact C].
  destruct C as (G & HK & Hcover).
  destruct (add_rsv_frame e d s) as (F1 & F2 & F3 & F4 & _).
  split; [now apply geometry_add_rsv|]. split; [now rewrite F4|].
  intros x Hx. rewrite strip_of_add_rsv, F3. now apply Hcover.
Qed.

Lemma primary_keys_after (ops : list operation) :
  forall e, primary_keys (after e ops) = primary_keys e.
Proof.
  induction ops as [|o ops IH]; intros e; [reflexivity|].
  simpl. rewrite IH. destruct o as [d s|]; simpl; [|reflexivity].
  now destruct (add_rsv_frame e d s) as (_ & _ & _ & _ & F).
Qed.

Lemma top_k_after (ops : list operation) :
  forall e, top_k (after e ops) = top_k e.
Proof.
  induction ops as [|o ops IH]; intros e; [reflexivity|].
  simpl. rewrite IH. destruct o as [d s|]; simpl; [|reflexivity].
  now destruct (add_rsv_frame e d s) as (_ & _ & _ & F & _).
Qed.

Lemma constructor_configured (g : engine) keys (documents : Z) :
  1 <= documents < 2 ^ 31 ->
  configured documents (query_atire_global g keys documents heap_size).
Proof.
  intros H.
  destruct (constructor_fields g keys documents heap_size H)
    as (F1 & F2 & F3 & F4 & _).
  split; [now apply constructor_geometry|]. split; [rewrite F4; reflexivity|].
  intros d Hd. unfold strip_of. rewrite F1, F3.
  apply strip_index_bound; lia.
Qed.

Lemma run_frame (calls : list call) :
  forall e,
  primary_keys (run e calls) = primary_keys e /\
  top_k (run e calls) = top_k e.
Proof.
  induction calls as [|c calls IH]; intros e; [split; reflexivity|].
  simpl. destruct (IH (add_rsv e (fst c) (snd c))) as [F1 F2].
  rewrite F1, F2.
  destruct (add_rsv_frame e (fst c) (snd c)) as (_ & _ & _ & F3 & F4).
  split; assumption.
Qed.

(** The iteration after a rewind and a well-formed query on a configured
    engine. *)
Lemma query_brute_force (documents : Z) (e : engine) (calls : list call) :
  documents <= 2 ^ 31 -> configured documents e ->
  valid_calls documents calls -> no_overflow calls ->
  results (run (rewind e) calls) =
  brute_force (primary_keys e) documents (top_k e) calls.
Proof.
  intros Hdoc C V N.
  pose proof (invariant_run documents calls [] (rewind e) Hdoc
                (invariant_rewind documents e C) V N) as Inv.
  simpl in Inv.
  rewrite (results_brute_force documents calls _ Hdoc Inv).
  destruct (run_frame calls (rewind e)) as [F1 F2].
  rewrite F1, F2. reflexivity.
Qed.

(** A check of [no_overflow] that can be run. *)
Lemma no_overflow_check (calls : list call) :
  forallb (fun c => total calls (fst c) <? 2 ^ 16) calls = true ->
  no_overflow calls.
Proof.
  intros H d. rewrite forallb_forall in H.
  assert (G : forall l, (forall c, In c l -> fst c <> d) -> total l d = 0).
  { induction l as [|c l IH]; intros N; [reflexivity|]. simpl.
    destruct (Z.eqb_spec (fst c) d) as [E|_].
    - exfalso. apply (N c); [now left | exact E].
    - apply IH. intros c' Hc'. apply N. now right. }
  destruct (existsb (fun c => fst c =? d) calls) eqn:E.
  - apply existsb_exists in E. destruct E as (c & Hc & E).
    apply Z.eqb_eq in E. subst d. apply Z.ltb_lt. now apply H.
  - rewrite G; [reflexivity|]. intros c Hc Ed.
    assert (existsb (fun c => fst c =? d) calls = true); [|congruence].
    apply existsb_exists. exists c. split; [exact Hc | now apply Z.eqb_eq].
Qed.

(** ** The test of [add_rsv] against the invariant *)

Lemma invariant_touch
    (documents : Z) (calls : list call) (e : engine) (d : Z) :
  documents <= 2 ^ 31 -> invariant documents calls e ->
  0 <= d < documents ->
  invariant documents calls (touch e d) /\
  clean_flags (touch e d) (strip_of (touch e d) d) <> 0.
Proof.
  intros Hdoc (M & Ok) Hd.
  assert (P32 : 2 ^ 31 <= 2 ^ 32) by (apply Z.pow_le_mono_r; lia).
  destruct (memory_ok_touch documents calls e d ltac:(lia) M Hd) as [M' Dirty].
  split; [|exact Dirty]. split; [exact M'|].
  destruct (touch_frame e d) as (F1 & _ & _ & _ & F2 & F3 & _).
  rewrite F1, F2, F3. exact Ok.
Qed.

Section Membership.

Variable documents : Z.
Variable calls : list call.
Variable e : engine.
Hypothesis Hdoc : documents <= 2 ^ 31.
Hypothesis Hinv : invariant documents calls e.
Hypothesis Hfull : results_list_length e = top_k e.

Let T : array := total calls.
Let P : array := accumulator_pointers e.
Let K : Z := top_k e.

Lemma full_list : list_ok documents T P K K.
Proof.
  destruct Hinv as (_ & Ok). rewrite Hfull in Ok. exact Ok.
Qed.

Lemma root_tracked : tracked P K (P 0).
Proof. exact (full_root_tracked documents T P K full_list). Qed.

Lemma root_cell : 0 <= P 0 < documents.
Proof.
  apply (tracked_cell documents calls e Hinv). rewrite Hfull.
  exact root_tracked.
Qed.


(** The test of [add_rsv], made after the lazy clearing and before the
    addition, decides membership. *)
Lemma test_decides (d : Z) :
  0 <= d < documents ->
  (0 <= cmp (accumulators (touch e d)) d (P 0) <-> tracked P K d).
Proof.
  intros Hd.
  destruct (invariant_touch documents calls e d Hdoc Hinv Hd) as [Inv1 Dirty].
  destruct (touch_frame e d) as (F1 & _ & _ & _ & F2 & _).
  pose proof (before_here documents calls _ d Inv1 Hd Dirty) as Ed.
  assert (Er : accumulators (touch e d) (P 0) = T (P 0)).
  { apply (before_tracked documents calls _ Inv1). rewrite F1, F2, Hfull.
    exact root_tracked. }
  pose proof (near_cells documents d (P 0) Hdoc Hd root_cell) as Near.
  rewrite (cmp_nonnegative _ d (P 0) Near). split.
  - intros Le. apply (full_tracked documents T d Hd P K full_list).
    apply (cell_le_ext (accumulators (touch e d)));
      [now symmetry | now symmetry | exact Le].
  - intros Tr. apply (cell_le_ext T); [exact Er | exact Ed |].
    exact (full_root_minimal documents T P K d full_list Tr).
Qed.

End Membership.

Lemma query_state_invariant
    (g : engine) (keys : list string) (documents : Z)
    (ops : list operation) (calls : list call) :
  1 <= documents < 2 ^ 31 ->
  valid_calls documents calls -> no_overflow calls ->
  invariant documents calls (query_state g keys documents ops calls).
Proof.
  intros Hdocuments Hvalid Hfit. unfold query_state.
  apply (invariant_run documents calls []); try assumption; [lia|].
  apply invariant_rewind, configured_after, constructor_configured.
  exact Hdocuments.
Qed.

(** ** Inside the static arrays *)

Lemma strip_count_large (documents : Z) :
  256 <= documents -> 17 <= strip_count documents.
Proof.
  intros H. pose proof (strip_shift_spec documents ltac:(lia)) as [Lo Hi].
  pose proof (strip_shift_nonneg documents) as S0.
  set (S := strip_shift documents) in *.
  assert (S4 : 4 <= S).
  { destruct (Z.le_gt_cases 4 S) as [G|G]; [exact G | exfalso].
    assert (4 ^ (S + 1) <= 4 ^ 4) by (apply Z.pow_le_mono_r; lia).
    change (4 ^ 4) with 256 in *. lia. }
  rewrite strip_count_eq, strip_width_pow2. fold S.
  assert (W16 : 2 ^ 4 <= 2 ^ S) by (apply Z.pow_le_mono_r; lia).
  change (2 ^ 4) with 16 in W16.
  assert (Sq : 4 ^ S = 2 ^ S * 2 ^ S).
  { change 4 with (2 ^ 2). rewrite <- Z.pow_mul_r by lia.
    replace (2 * S) with (S + S) by lia. apply Z.pow_add_r; lia. }
  assert (2 ^ S <= documents / 2 ^ S).
  { apply Z.div_le_lower_bound; lia. }
  lia.
Qed.

Lemma strip_count_small_checked :
  forallb
    (fun n => Bool.eqb (strip_count n <=? clean_flags_length)
                ((n <=? 39) || ((64 <=? n) && (n <=? 79))))
    (map (fun n => n + 1) (range 255)) = true.
Proof. vm_compute. reflexivity. Qed.

Lemma strips_fit_checked :
  forallb
    (fun n => implb (strip_count n <=? clean_flags_length)
                (strip_width n * strip_count n <=? 80))
    (map (fun n => n + 1) (range 255)) = true.
Proof. vm_compute. reflexivity. Qed.

Lemma flags_fit_cells_fit (documents : Z) :
  1 <= documents -> strip_count documents <= clean_flags_length ->
  strip_width documents * strip_count documents <= accumulators_length.
Proof.
  intros H Hc.
  destruct (Z.le_gt_cases 256 documents) as [Big | Small].
  - pose proof (strip_count_large documents Big). unfold clean_flags_length in *.
    lia.
  - pose proof strips_fit_checked as C. rewrite forallb_forall in C.
    specialize (C documents). rewrite in_map_iff in C.
    assert (E : implb (strip_count documents <=? clean_flags_length)
                  (strip_width documents * strip_count documents <=? 80) = true).
    { apply C. exists (documents - 1). split; [lia|]. apply in_range. lia. }
    apply Z.leb_le in Hc. rewrite Hc in E. simpl in E. apply Z.leb_le in E.
    unfold accumulators_length. lia.
Qed.

Lemma constructor_inside (g : engine) keys (documents k : Z) :
  1 <= documents < 2 ^ 31 ->
  accumulators_height (query_atire_global g keys documents k)
    <= clean_flags_length ->
  heap_size <= k <= accumulator_pointers_length ->
  query_atire_global_defined g keys documents k = true /\
  inside_arrays documents (query_atire_global g keys documents k).
Proof.
  intros H Hflags Hk.
  destruct (constructor_fields g keys documents k H)
    as (F1 & F2 & F3 & F4 & _ & F6).
  assert (K : to_uint32 k = k).
  { apply to_uint32_small. unfold heap_size, accumulator_pointers_length in Hk.
    assert (P32 : 2 ^ 32 = 4294967296) by reflexivity. lia. }
  split.
  - unfold query_atire_global_defined, rewind_defined.
    apply Z.leb_le in Hflags. rewrite Hflags, andb_true_r.
    apply andb_true_iff. split; [apply Z.leb_le; lia|].
    apply Z.ltb_lt. pose proof (strip_shift_small documents ltac:(lia)).
    unfold strip_shift in *. lia.
  - split; [now apply constructor_geometry|].
    split; [rewrite F1; pose proof (strip_shift_small documents); lia|].
    split; [lia|]. split; [exact Hflags|]. split.
    + rewrite F2, F3. apply flags_fit_cells_fit; [lia|]. now rewrite <- F3.
    + split.
      * intros d Hd. unfold strip_of. rewrite F1, F3.
        apply strip_index_bound; lia.
      * rewrite F4, F6, K. unfold heap_size in *. lia.
Qed.

Lemma rewind_inside (documents : Z) (e : engine) :
  inside_arrays documents e ->
  rewind_defined e = true /\ inside_arrays documents (rewind e).
Proof.
  intros (G & Sh & D & H & C & S & K & L). split.
  - now apply Z.leb_le.
  - unfold inside_arrays, rewind; simpl.
    split; [exact G|]. split; [exact Sh|]. split; [exact D|]. split; [exact H|].
    split; [exact C|]. split; [exact S|]. split; [exact K|].
    unfold heap_size in *. lia.
Qed.

(** In the model the bounds survive every call. *)
Lemma add_rsv_keeps_inside (documents : Z) (e : engine) (d s : Z) :
  inside_arrays documents e -> inside_arrays documents (add_rsv e d s).
Proof.
  intros (G & Sh & D & H & C & S & K & L).
  assert (P32 : 2 ^ 32 = 4294967296) by reflexivity.
  destruct (add_rsv_frame e d s) as (F1 & F2 & F3 & F4 & _).
  split; [now apply geometry_add_rsv|].
  rewrite F1, F2, F3, F4. split; [exact Sh|]. split; [exact D|].
  split; [exact H|]. split; [exact C|]. split.
  - intros x Hx. rewrite strip_of_add_rsv. now apply S.
  - split; [exact K|].
    destruct (add_rsv_length e d s) as [E | [Hlt E]]; rewrite E; [exact L|].
    unfold accumulator_pointers_length in *.
    rewrite to_uint32_small by lia. lia.
Qed.

Lemma after_keeps_inside (documents : Z) (ops : list operation) :
  forall e, inside_arrays documents e -> inside_arrays documents (after e ops).
Proof.
  induction ops as [|o ops IH]; intros e I; [exact I|].
  simpl. apply IH. destruct o as [d s|]; simpl.
  - now apply add_rsv_keeps_inside.
  - now apply rewind_inside.
Qed.

Lemma run_keeps_inside (documents : Z) (calls : list call) :
  forall e, inside_arrays documents e -> inside_arrays documents (run e calls).
Proof.
  induction calls as [|c calls IH]; intros e I; [exact I|].
  simpl. apply IH. now apply add_rsv_keeps_inside.
Qed.

(** The lazy clearing for a valid document is inside the arrays. *)
Lemma touch_inside (documents : Z) (e : engine) (d : Z) :
  inside_arrays documents e -> 0 <= d < documents ->
  touch_defined e d = true /\ d < accumulators_length.
Proof.
  intros (G & Sh & D & H & C & S & K & L) Hd.
  assert (P31 : 2 ^ 31 = 2147483648) by reflexivity.
  assert (P32 : 2 ^ 32 = 4294967296) by reflexivity.
  pose proof (strip_bounds e G d) as B.
  pose proof (strip_nonneg e G d ltac:(lia)) as N.
  pose proof (width_pos e G) as W.
  pose proof (S d Hd) as Sd.
  assert (Cells : accumulators_width e * strip_of e d + accumulators_width e
                  <= accumulators_length) by nia.
  split; [|lia].
  unfold touch_defined. fold (strip_of e d).
  rewrite (strip_start_small e G d) by lia.
  destruct (Z.ltb_spec (accumulators_shift e) 32); [|lia].
  destruct (Z.leb_spec 0 (strip_of e d)); [|lia].
  destruct (Z.ltb_spec (strip_of e d) clean_flags_length); [|lia].
  destruct (_ =? 0); [|reflexivity]. simpl. now apply Z.leb_le.
Qed.

(** One call of a query: the list is not full, or the test of line 191
    passes only for a pointer that is in the heap. *)
Lemma add_rsv_inside (documents : Z) (calls : list call) (e : engine) (d : Z) :
  inside_arrays documents e -> invariant documents calls e ->
  0 <= d < documents ->
  add_rsv_defined e d = true.
Proof.
  intros I Inv Hd.
  destruct (touch_inside documents e d I Hd) as [T Hcell].
  destruct I as (G & Sh & D & H & C & S & K & L).
  unfold add_rsv_defined. rewrite T. cbn [andb].
  unfold maintain_heap_defined.
  destruct (touch_frame e d) as (F0 & _ & _ & _ & F4 & F5 & _).
  rewrite F0, F4, F5.
  destruct (Z.leb_spec 0 d); [|lia].
  destruct (Z.ltb_spec d accumulators_length); [|lia]. cbn [andb].
  assert (HK : (heap_size <=? top_k e) = true) by (apply Z.leb_le; lia).
  rewrite HK.
  destruct (Z.ltb_spec (results_list_length e) (top_k e)) as [Hlt | Hge].
  - destruct (_ =? 0); [|reflexivity].
    destruct (Z.ltb_spec (results_list_length e) accumulator_pointers_length);
      [|lia].
    cbn [andb]. destruct (_ =? _); reflexivity.
  - assert (Hfull : results_list_length e = top_k e) by lia.
    destruct (cmp (accumulators (touch e d)) d (accumulator_pointers e 0) >=? 0)
      eqn:Test; [|reflexivity].
    apply Z.geb_le in Test.
    apply (test_decides documents calls e D Inv Hfull d Hd) in Test.
    assert (Hheap : top_k e = heap_size)
      by (destruct Inv as (_ & (Hheap & _)); exact Hheap).
    rewrite Hheap in Test.
    apply (tracked_find heap_size) in Test; [|unfold heap_size; lia].
    cbn [andb]. unfold promote_defined.
    destruct (heap.find (Z.to_nat heap_size) (accumulator_pointers e) 0 d);
      [reflexivity | contradiction].
Qed.

Lemma run_inside (documents : Z) (rest : list call) :
  forall (calls : list call) (e : engine),
  inside_arrays documents e -> invariant documents calls e ->
  valid_calls documents rest -> no_overflow (calls ++ rest) ->
  run_defined e rest = true.
Proof.
  induction rest as [|c rest IH]; intros calls e I Inv Hvalid Hfit;
    [reflexivity|].
  inversion Hvalid as [|? ? [Hd Hs] Hvalid']; subst.
  destruct c as [d s]. simpl in Hd, Hs. simpl.
  rewrite (add_rsv_inside documents calls e d I Inv Hd). simpl.
  pose proof (app_assoc calls [(d, s)] rest) as E. simpl in E.
  rewrite E in Hfit.
  apply (IH (calls ++ [(d, s)])); try assumption.
  - now apply add_rsv_keeps_inside.
  - destruct I as (_ & _ & D & _).
    apply invariant_add_rsv; try assumption.
    pose proof (Hfit d) as F. rewrite total_concat, total_app in F.
    rewrite Z.eqb_refl in F.
    pose proof (valid_calls_nonneg documents rest d Hvalid'). lia.
Qed.

(** The bounds after construction, any earlier calls and a [rewind]. *)
Lemma rewound_inside
    (g : engine) (keys : list string) (documents k : Z)
    (ops : list operation) :
  1 <= documents < 2 ^ 31 ->
  accumulators_height (query_atire_global g keys documents k)
    <= clean_flags_length ->
  heap_size <= k <= accumulator_pointers_length ->
  query_atire_global_defined g keys documents k = true /\
  rewind_defined (after (query_atire_global g keys documents k) ops) = true /\
  inside_arrays documents
    (rewind (after (query_atire_global g keys documents k) ops)).
Proof.
  intros Hdocuments Hflags Hk.
  destruct (constructor_inside g keys documents k Hdocuments Hflags Hk)
    as [D0 I0].
  pose proof (after_keeps_inside documents ops _ I0) as I1.
  destruct (rewind_inside documents _ I1) as [D2 I2].
  split; [exact D0|]. split; [exact D2 | exact I2].
Qed.

(** Construction, earlier calls that were defined, a [rewind] and the
    calls of a query without overflow, with [top_k] equal to the size of
    the heap. *)
Lemma calls_inside
    (g : engine) (keys : list string) (documents : Z)
    (ops : list operation) (calls : list call) :
  1 <= documents < 2 ^ 31 ->
  accumulators_height (query_atire_global g keys documents heap_size)
    <= clean_flags_length ->
  after_defined (query_atire_global g keys documents heap_size) ops = true ->
  valid_calls documents calls -> no_overflow calls ->
  calls_defined g keys documents heap_size ops calls = true /\
  inside_arrays documents (query_state g keys documents ops calls).
Proof.
  intros Hdocuments Hflags Hops Hvalid Hfit.
  assert (Hk : heap_size <= heap_size <= accumulator_pointers_length)
    by (unfold heap_size, accumulator_pointers_length; lia).
  destruct (rewound_inside g keys documents heap_size ops Hdocuments Hflags Hk)
    as (D0 & D2 & I2).
  assert (Inv : invariant documents []
                  (rewind (after (query_atire_global g keys documents heap_size)
                             ops))).
  { apply invariant_rewind, configured_after, constructor_configured.
    exact Hdocuments. }
  split.
  - unfold calls_defined. cbv zeta. rewrite D0, Hops, D2. simpl.
    now apply (run_inside documents calls []).
  - unfold query_state. now apply run_keeps_inside.
Qed.

Lemma valid_calls_documents (documents : Z) (calls : list call) :
  valid_calls documents calls ->
  Forall (fun c => 0 <= fst c < documents) calls.
Proof.
  unfold valid_calls. rewrite !Forall_forall. intros H c Hc.
  now apply H.
Qed.

(** The iteration is defined when every document it yields has a cell
    and a key. *)
Lemma results_inside (documents : Z) (e : engine) :
  0 <= results_list_length e <= accumulator_pointers_length ->
  documents <= accumulators_length ->
  documents <= Z.of_nat (List.length (primary_keys e)) ->
  Forall (fun r : Z * string * Z => 0 <= fst (fst r) < documents) (results e) ->
  results_defined e = true.
Proof.
  intros HL Hcells Hkeys Hall. unfold results_defined.
  apply andb_true_iff. split; [apply Z.leb_le; lia|].
  apply forallb_forall. intros position Hp. apply in_range in Hp.
  rewrite Forall_forall in Hall.
  assert (Hid : 0 <= accumulator_pointers (sort e) position < documents).
  { apply (Hall (dereference (sort e) position)).
    unfold results. apply in_map. apply in_range. exact Hp. }
  unfold dereference_defined.
  change (primary_keys (sort e)) with (primary_keys e).
  repeat (apply andb_true_iff; split);
    try apply Z.leb_le; try apply Z.ltb_lt; lia.
Qed.

Lemma brute_force_documents keys documents k (calls : list call) :
  Forall (fun r : Z * string * Z => 0 <= fst (fst r) < documents)
    (brute_force keys documents k calls).
Proof.
  apply Forall_forall. intros r Hr. unfold brute_force in Hr.
  apply in_map_iff in Hr. destruct Hr as (p & <- & Hp). simpl.
  assert (In p (sort_desc (scored documents calls))).
  { rewrite <- (firstn_skipn (Z.to_nat k)). apply in_or_app. now left. }
  apply (Permutation_in _ (sort_desc_perm _)) in H.
  apply in_scored in H. tauto.
Qed.

(** ** Correctness against brute force *)

Lemma constructed_query_brute_force
    (g : engine) (keys : list string) (documents : Z)
    (ops : list operation) (calls : list call) :
  1 <= documents < 2 ^ 31 ->
  valid_calls documents calls -> no_overflow calls ->
  results
    (run (rewind (after (query_atire_global g keys documents heap_size) ops))
       calls) =
  brute_force keys documents heap_size calls.
Proof.
  intros Hdocuments Hvalid Hfit.
  set (e := after (query_atire_global g keys documents heap_size) ops).
  assert (C : configured documents e)
    by (apply configured_after, constructor_configured; exact Hdocuments).
  rewrite (query_brute_force documents e calls); try assumption; [|lia].
  unfold e. rewrite primary_keys_after, top_k_after.
  destruct (constructor_fields g keys documents heap_size Hdocuments)
    as (_ & _ & _ & F4 & F5 & _).
  rewrite F4, F5. reflexivity.
Qed.

Lemma documents_have_cells (documents : Z) (e : engine) :
  1 <= documents -> inside_arrays documents e ->
  documents <= accumulators_length.
Proof.
  intros H (G & _ & D & Hh & C & S & _).
  pose proof (strip_bounds e G (documents - 1)) as B.
  pose proof (S (documents - 1) ltac:(lia)) as Sd.
  pose proof (width_pos e G). nia.
Qed.

(** A whole query with [top_k] equal to the size of the heap, iteration
    included, stays inside the arrays. *)
Lemma query_inside
    (g : engine) (keys : list string) (documents : Z)
    (ops : list operation) (calls : list call) :
  1 <= documents < 2 ^ 31 ->
  accumulators_height (query_atire_global g keys documents heap_size)
    <= clean_flags_length ->
  documents <= Z.of_nat (List.length keys) ->
  after_defined (query_atire_global g keys documents heap_size) ops = true ->
  valid_calls documents calls -> no_overflow calls ->
  query_defined g keys documents heap_size ops calls = true.
Proof.
  intros Hdocuments Hflags Hkeys Hops Hvalid Hfit.
  destruct (calls_inside g keys documents ops calls Hdocuments Hflags Hops
              Hvalid Hfit) as [Def I].
  unfold query_defined. rewrite Def. cbn [andb].
  fold (query_state g keys documents ops calls).
  apply (results_inside documents).
  - destruct I as (_ & _ & _ & _ & _ & _ & K & L). lia.
  - apply (documents_have_cells documents _ ltac:(lia) I).
  - unfold query_state.
    destruct (run_frame calls
                (rewind (after (query_atire_global g keys documents heap_size)
                           ops))) as [F _].
    rewrite F.
    change (primary_keys (rewind ?x)) with (primary_keys x).
    rewrite primary_keys_after.
    destruct (constructor_fields g keys documents heap_size Hdocuments)
      as (_ & _ & _ & _ & F5 & _).
    rewrite F5. exact Hkeys.
  - unfold query_state.
    rewrite (constructed_query_brute_force g keys documents ops calls
               Hdocuments Hvalid Hfit).
    apply brute_force_documents.
Qed.

(** C1, as the claim states it, fails: two calls for one document whose
    scores sum to 65536 leave 0 in the 16-bit cell, and the iteration
    yields that instead of the total.  Every access of the run is inside
    the arrays. *)
Lemma iteration_wraps_total :
  let keys := repeat "key"%string 20 in
  valid_calls 20 [(3, 65535); (3, 1)] /\
  query_defined startup keys 20 10 [] [(3, 65535); (3, 1)] = true /\
  results (run (rewind (query_atire_global startup keys 20 10))
             [(3, 65535); (3, 1)]) = [(3, "key"%string, 0)] /\
  brute_force keys 20 10 [(3, 65535); (3, 1)] = [(3, "key"%string, 65536)] /\
  results (run (rewind (query_atire_global startup keys 20 10))
             [(3, 65535); (3, 1)]) <>
  brute_force keys 20 10 [(3, 65535); (3, 1)].
Proof.
  split; [repeat constructor; simpl; lia|].
  split; [vm_compute; reflexivity|].
  split; [vm_compute; reflexivity|].
  split; [vm_compute; reflexivity|].
  vm_compute. discriminate.
Qed.

(** C1, amended.  On an engine constructed for a collection whose strips
    fit the ten flags of [clean_flags], with a key for every document and
    [top_k] equal to the size of the heap, 10, whatever calls came before
    that were themselves defined: after [rewind] and any sequence of
    [add_rsv] calls with valid document identifiers and positive scores
    in which no total exceeds 65535, every access is inside the static
    arrays, and
    the iteration from [begin()] to [end()] yields the documents with a
    positive total that are greatest under the order (total, then
    identifier), greatest first, each with its key and its total; there
    are as many as the smaller of [top_k] and the number of documents
    with a positive total. *)
Theorem iteration_matches_brute_force
    (g : engine) (keys : list string) (documents : Z)
    (ops : list operation) (calls : list call)
    (Hdocuments : 1 <= documents < 2 ^ 31)
    (Hflags : accumulators_height
                (query_atire_global g keys documents heap_size)
              <= clean_flags_length)
    (Hkeys : documents <= Z.of_nat (List.length keys))
    (Hops : after_defined (query_atire_global g keys documents heap_size) ops
            = true)
    (Hvalid : valid_calls documents calls)
    (Hfit : no_overflow calls) :
  let e := after (query_atire_global g keys documents heap_size) ops in
  query_defined g keys documents heap_size ops calls = true /\
  results (run (rewind e) calls) = brute_force keys documents heap_size calls /\
  List.length (results (run (rewind e) calls)) =
    Nat.min (Z.to_nat heap_size) (List.length (scored documents calls)).
Proof.
  intros e.
  pose proof (constructed_query_brute_force g keys documents ops calls
                Hdocuments Hvalid Hfit) as E.
  fold e in E.
  split; [now apply query_inside|].
  split; [exact E|]. rewrite E. unfold brute_force.
  rewrite length_map, length_firstn.
  now rewrite (Permutation_length (sort_desc_perm _)).
Qed.

Lemma iteration_matches_brute_force_witness :
  results
    (run (rewind (after (query_atire_global startup (repeat "key"%string 20)
                           20 heap_size)
                    [op_add_rsv 3 7; op_add_rsv 12 1]))
       [(3, 5); (7, 2); (1, 9)]) =
  brute_force (repeat "key"%string 20) 20 heap_size [(3, 5); (7, 2); (1, 9)].
Proof.
  apply (iteration_matches_brute_force startup (repeat "key"%string 20) 20
           [op_add_rsv 3 7; op_add_rsv 12 1] [(3, 5); (7, 2); (1, 9)]).
  - split; [lia | reflexivity].
  - vm_compute. discriminate.
  - vm_compute. discriminate.
  - vm_compute. reflexivity.
  - repeat constructor; simpl; lia.
  - apply no_overflow_check. reflexivity.
Defined.

(** What the size of the heap does when it differs from [top_k]: with
    [top_k = 11] the eleventh pointer never enters the heap of 10, and
    a document with a greater total does not displace it. *)
Lemma heap_size_is_not_top_k :
  let keys := repeat "key"%string 20 in
  let calls := [(0, 10); (1, 10); (2, 10); (3, 10); (4, 10); (5, 10);
                (6, 10); (7, 10); (8, 10); (9, 10); (10, 1); (11, 5)] in
  query_defined startup keys 20 11 [] calls = true /\
  In (10, "key"%string, 1)
    (results (run (rewind (query_atire_global startup keys 20 11)) calls)) /\
  In (11, "key"%string, 5) (brute_force keys 20 11 calls) /\
  ~ In (10, "key"%string, 1) (brute_force keys 20 11 calls).
Proof.
  vm_compute. split; [reflexivity|]. split; [tauto|]. split; [tauto|].
  intros H. repeat (destruct H as [H | H]; [discriminate|]). exact H.
Qed.

(** ** Order independence *)

Lemma total_permutation (calls calls' : list call) (x : Z) :
  Permutation calls calls' -> total calls x = total calls' x.
Proof.
  induction 1 as [|c l l' _ IH|c c' l|l l' l'' _ IH1 _ IH2]; simpl.
  - reflexivity.
  - now rewrite IH.
  - destruct (fst c =? x), (fst c' =? x); lia.
  - now rewrite IH1.
Qed.

Lemma brute_force_totals keys documents k (calls calls' : list call) :
  (forall x, total calls x = total calls' x) ->
  brute_force keys documents k calls = brute_force keys documents k calls'.
Proof.
  intros H. unfold brute_force, scored.
  rewrite (map_ext (fun d => (d, total calls d))
             (fun d => (d, total calls' d))); [reflexivity|].
  intros d. now rewrite H.
Qed.

(** C2, as the claim states it, fails: the same three calls in two
    orders give different iterations when a cell wraps to zero.  Every
    access of both runs is inside the arrays. *)
Lemma iteration_depends_on_order :
  let keys := repeat "key"%string 20 in
  Permutation [(3, 65535); (3, 1); (3, 5)] [(3, 65535); (3, 5); (3, 1)] /\
  valid_calls 20 [(3, 65535); (3, 1); (3, 5)] /\
  query_defined startup keys 20 10 [] [(3, 65535); (3, 1); (3, 5)] = true /\
  query_defined startup keys 20 10 [] [(3, 65535); (3, 5); (3, 1)] = true /\
  results (run (rewind (query_atire_global startup keys 20 10))
             [(3, 65535); (3, 1); (3, 5)]) <>
  results (run (rewind (query_atire_global startup keys 20 10))
             [(3, 65535); (3, 5); (3, 1)]).
Proof.
  split; [apply perm_skip, perm_swap|].
  split; [repeat constructor; simpl; lia|].
  split; [vm_compute; reflexivity|].
  split; [vm_compute; reflexivity|].
  vm_compute. discriminate.
Qed.

(** C2, amended.  On an engine constructed for a collection whose strips
    fit the ten flags of [clean_flags], with a key for every document and
    [top_k] equal to the size of the heap, 10, after earlier calls that
    were themselves defined: for every sequence of [add_rsv] calls with
    valid document identifiers and positive scores in which no total
    exceeds 65535, and every permutation of it,
    [rewind] followed by the one and [rewind] followed by the other stay
    inside the static arrays and give the same iteration. *)
Theorem iteration_order_independent
    (g : engine) (keys : list string) (documents : Z)
    (ops : list operation) (calls calls' : list call)
    (Hdocuments : 1 <= documents < 2 ^ 31)
    (Hflags : accumulators_height
                (query_atire_global g keys documents heap_size)
              <= clean_flags_length)
    (Hkeys : documents <= Z.of_nat (List.length keys))
    (Hops : after_defined (query_atire_global g keys documents heap_size) ops
            = true)
    (Hperm : Permutation calls calls')
    (Hvalid : valid_calls documents calls)
    (Hfit : no_overflow calls) :
  let e := after (query_atire_global g keys documents heap_size) ops in
  query_defined g keys documents heap_size ops calls = true /\
  query_defined g keys documents heap_size ops calls' = true /\
  results (run (rewind e) calls) = results (run (rewind e) calls').
Proof.
  intros e.
  assert (Hvalid' : valid_calls documents calls').
  { unfold valid_calls in *. rewrite Forall_forall in *. intros c Hc.
    apply Hvalid. apply (Permutation_in _ (Permutation_sym Hperm) Hc). }
  assert (Hfit' : no_overflow calls').
  { intros d. rewrite <- (total_permutation calls calls' d Hperm).
    apply Hfit. }
  pose proof (constructed_query_brute_force g keys documents ops calls
                Hdocuments Hvalid Hfit) as E.
  pose proof (constructed_query_brute_force g keys documents ops calls'
                Hdocuments Hvalid' Hfit') as E'.
  fold e in E, E'.
  split; [now apply query_inside|]. split; [now apply query_inside|].
  rewrite E, E'.
  apply brute_force_totals. intros x. now apply total_permutation.
Qed.

Lemma iteration_order_independent_witness :
  results
    (run (rewind (after (query_atire_global startup (repeat "key"%string 20)
                           20 heap_size) []))
       [(3, 5); (7, 2); (3, 4)]) =
  results
    (run (rewind (after (query_atire_global startup (repeat "key"%string 20)
                           20 heap_size) []))
       [(7, 2); (3, 4); (3, 5)]).
Proof.
  apply (iteration_order_independent startup (repeat "key"%string 20) 20 []
           [(3, 5); (7, 2); (3, 4)] [(7, 2); (3, 4); (3, 5)]).
  - split; [lia | reflexivity].
  - vm_compute. discriminate.
  - vm_compute. discriminate.
  - reflexivity.
  - apply (Permutation_cons_app [(7, 2); (3, 4)] []). apply Permutation_refl.
  - repeat constructor; simpl; lia.
  - apply no_overflow_check. reflexivity.
Defined.

(** ** The test for membership in the heap *)




(** * Further properties of the code *)

(** ** The fixed-buffer allocator *)

Lemma to_size_t_idempotent (x : Z) : to_size_t (to_size_t x) = to_size_t x.
Proof. unfold to_size_t. apply Z.mod_mod. discriminate. Qed.

Lemma padding_bounds (u alignment : Z) :
  1 <= alignment ->
  let padding := if alignment =? 1 then 0 else realign u alignment in
  0 <= padding < alignment /\ (u + padding) mod alignment = 0.
Proof.
  intros Ha padding. unfold padding.
  destruct (Z.eqb_spec alignment 1) as [->|N].
  - split; [lia | apply Z.mod_1_r].
  - unfold realign.
    pose proof (Z.mod_pos_bound u alignment ltac:(lia)) as B.
    destruct (Z.eqb_spec (u mod alignment) 0) as [E|E].
    + split; [lia|]. now rewrite Z.add_0_r.
    + split; [lia|].
      pose proof (Z.div_mod u alignment ltac:(lia)) as D.
      replace (u + (alignment - u mod alignment))
        with ((u / alignment + 1) * alignment) by lia.
      apply Z.mod_mul. lia.
Qed.

(** X1.  When the padded request fits, [malloc] returns a block that
    starts at the padded watermark, lies wholly inside the buffer and
    starts at an offset that is a multiple of the alignment; the
    watermark moves by padding plus bytes and the capacity is
    unchanged. *)
Theorem malloc_returns_block_inside_buffer
    (a : allocator_memory) (bytes alignment : Z)
    (Hused : 0 <= used a) (Hbytes : 0 <= bytes) (Halign : 1 <= alignment)
    (Hcap : allocated a < 2 ^ 64)
    (Hfit : used a + (if alignment =? 1 then 0 else realign (used a) alignment)
            + bytes <= allocated a) :
  exists answer a',
    malloc a bytes alignment = returned (Some answer) a' /\
    buffer a + used a <= answer /\
    answer + bytes <= buffer a + allocated a /\
    (answer - buffer a) mod alignment = 0 /\
    size a' = answer - buffer a + bytes /\
    capacity a' = capacity a /\ buffer a' = buffer a.
Proof.
  destruct (malloc_success a bytes alignment Hused Hbytes Halign Hfit Hcap)
    as [E M].
  destruct (padding_bounds (used a) alignment Halign) as [[P0 P1] _].
  eexists. eexists. split; [exact E|]. simpl.
  unfold size, capacity. simpl.
  replace (buffer a + used a +
           (if alignment =? 1 then 0 else realign (used a) alignment) - buffer a)
    with (used a + (if alignment =? 1 then 0 else realign (used a) alignment))
    by lia.
  repeat split; lia.
Qed.

Lemma malloc_returns_block_inside_buffer_witness :
  exists answer a',
    malloc (mk_allocator 4096 3 1024) 20 8 = returned (Some answer) a' /\
    4096 + 3 <= answer /\ answer + 20 <= 4096 + 1024 /\
    (answer - 4096) mod 8 = 0 /\
    size a' = answer - 4096 + 20 /\
    capacity a' = 1024 /\ buffer a' = 4096.
Proof.
  apply (malloc_returns_block_inside_buffer (mk_allocator 4096 3 1024) 20 8);
    simpl; try lia; reflexivity.
Defined.

(** X2.  Within the range of [size_t], [malloc] ends the process exactly
    when the padded request exceeds the capacity, and in no case does it
    return [nullptr]. *)
Theorem malloc_exits_exactly_when_full
    (a : allocator_memory) (bytes alignment : Z)
    (Hused : 0 <= used a) (Hbytes : 0 <= bytes) (Halign : 1 <= alignment)
    (Hrange : used a + bytes + alignment <= 2 ^ 64) :
  (malloc a bytes alignment = exited <->
   used a + (if alignment =? 1 then 0 else realign (used a) alignment) + bytes
     > allocated a) /\
  (forall a', malloc a bytes alignment <> returned None a').
Proof.
  destruct (padding_bounds (used a) alignment Halign) as [[P0 P1] _].
  split; [|intros a'; apply malloc_never_null].
  unfold malloc.
  rewrite (to_size_t_small (used a + bytes)) by lia.
  rewrite to_size_t_small by lia.
  destruct (Z.gtb_spec
    (used a + bytes + (if alignment =? 1 then 0 else realign (used a) alignment))
    (allocated a)) as [G|G]; split; intros H;
    try reflexivity; try discriminate; lia.
Qed.

Lemma malloc_exits_exactly_when_full_witness :
  malloc (mk_allocator 4096 1000 1024) 20 8 = exited <->
  1000 + (if 8 =? 1 then 0 else realign 1000 8) + 20 > 1024.
Proof.
  apply (malloc_exits_exactly_when_full (mk_allocator 4096 1000 1024) 20 8);
    simpl; lia.
Defined.

Lemma malloc_returned (a a1 : allocator_memory) (bytes alignment p : Z) :
  0 <= used a -> 0 <= bytes -> 1 <= alignment ->
  used a + bytes + alignment <= 2 ^ 64 ->
  malloc a bytes alignment = returned (Some p) a1 ->
  buffer a + used a <= p /\
  used a1 = p - buffer a + bytes /\
  used a1 <= allocated a /\
  buffer a1 = buffer a /\ allocated a1 = allocated a.
Proof.
  intros Hu Hb Ha Hr E.
  destruct (padding_bounds (used a) alignment Ha) as [[P0 P1] _].
  unfold malloc in E.
  rewrite (to_size_t_small (used a + bytes)) in E by lia.
  rewrite to_size_t_small in E by lia.
  destruct (Z.gtb_spec
    (used a + bytes + (if alignment =? 1 then 0 else realign (used a) alignment))
    (allocated a)) as [G|G]; [discriminate|].
  inversion E; subst; simpl. repeat split; lia.
Qed.

(** X3.  Two allocations in a row never overlap: from a watermark
    inside the capacity, and with capacity, sizes and alignments that
    together stay within [size_t] (so that no request wraps the check),
    the second block starts at or after the end of the first, and both
    lie inside the buffer. *)
Theorem consecutive_blocks_do_not_overlap
    (a a1 a2 : allocator_memory) (bytes1 alignment1 bytes2 alignment2 p1 p2 : Z)
    (Hused : 0 <= used a <= allocated a)
    (Hbytes1 : 0 <= bytes1) (Halign1 : 1 <= alignment1)
    (Hbytes2 : 0 <= bytes2) (Halign2 : 1 <= alignment2)
    (Hcap : allocated a + bytes1 + bytes2 + alignment1 + alignment2 <= 2 ^ 64)
    (Hfirst : malloc a bytes1 alignment1 = returned (Some p1) a1)
    (Hsecond : malloc a1 bytes2 alignment2 = returned (Some p2) a2) :
  buffer a <= p1 /\ p1 + bytes1 <= p2 /\ p2 + bytes2 <= buffer a + allocated a.
Proof.
  destruct (malloc_returned a a1 bytes1 alignment1 p1)
    as (B1 & U1 & C1 & F1 & G1); try assumption; try lia.
  destruct (malloc_returned a1 a2 bytes2 alignment2 p2)
    as (B2 & U2 & C2 & F2 & G2); try assumption; lia.
Qed.

Lemma consecutive_blocks_do_not_overlap_witness :
  4096 <= 4096 /\ 4096 + 431 <= 4528 /\ 4528 + 8 <= 4096 + 1024.
Proof.
  apply (consecutive_blocks_do_not_overlap
           (mk_allocator 4096 0 1024) (mk_allocator 4096 431 1024)
           (mk_allocator 4096 440 1024) 431 1 8 8 4096 4528);
    simpl; try lia; reflexivity.
Defined.

(** X4.  The capacity check is made in [size_t] arithmetic: a request
    with alignment 1 so large that watermark plus bytes passes 2^64 wraps
    around, is accepted when the wrapped sum is within the capacity, and
    moves the watermark backwards. *)
Theorem malloc_accepts_wrapped_request
    (a : allocator_memory) (bytes : Z)
    (Hused : 0 <= used a < 2 ^ 64) (Hbytes : 0 <= bytes < 2 ^ 64)
    (Hwrap : 2 ^ 64 <= used a + bytes)
    (Hfit : used a + bytes - 2 ^ 64 <= allocated a) :
  malloc a bytes 1 =
    returned (Some (buffer a + used a))
      (mk_allocator (buffer a) (used a + bytes - 2 ^ 64) (allocated a)) /\
  used a + bytes - 2 ^ 64 < used a.
Proof.
  assert (E : to_size_t (used a + bytes) = used a + bytes - 2 ^ 64).
  { unfold to_size_t. symmetry. apply (Z.mod_unique _ _ 1); lia. }
  unfold malloc. simpl. rewrite !Z.add_0_r, to_size_t_idempotent, E.
  destruct (Z.gtb_spec (used a + bytes - 2 ^ 64) (allocated a)); [lia|].
  split; [reflexivity | lia].
Qed.

Lemma malloc_accepts_wrapped_request_witness :
  malloc (mk_allocator 4096 16 1024) (2 ^ 64 - 8) 1 =
    returned (Some (4096 + 16)) (mk_allocator 4096 (16 + (2 ^ 64 - 8) - 2 ^ 64) 1024).
Proof.
  apply (malloc_accepts_wrapped_request (mk_allocator 4096 16 1024) (2 ^ 64 - 8));
    simpl; lia.
Defined.

(** X5.  After [rewind] the allocator is empty with its capacity intact,
    and the next allocation starts again at the first byte of the
    buffer, whatever had been handed out before. *)
Theorem rewind_reuses_buffer (a : allocator_memory) (bytes : Z)
    (Hbytes : 0 <= bytes <= allocated a) (Hcap : allocated a < 2 ^ 64) :
  size (fixed_buffer.rewind a) = 0 /\
  capacity (fixed_buffer.rewind a) = capacity a /\
  malloc (fixed_buffer.rewind a) bytes 1 =
    returned (Some (buffer a)) (mk_allocator (buffer a) bytes (allocated a)).
Proof.
  split; [reflexivity|]. split; [reflexivity|].
  unfold malloc, fixed_buffer.rewind. simpl.
  rewrite !Z.add_0_r, to_size_t_idempotent, to_size_t_small by lia.
  destruct (Z.gtb_spec bytes (allocated a)); [lia | reflexivity].
Qed.

Lemma rewind_reuses_buffer_witness :
  malloc (fixed_buffer.rewind (mk_allocator 4096 432 1024)) 100 1 =
    returned (Some 4096) (mk_allocator 4096 100 1024).
Proof.
  apply (rewind_reuses_buffer (mk_allocator 4096 432 1024) 100); simpl; lia.
Defined.

(** ** The earlier revision of the fixed-buffer allocator *)

(** X6.  The two revisions of [malloc] agree when no alignment is asked
    for: [malloc(bytes)] of the earlier one does what [malloc(bytes, 1)]
    of the later one does, on every allocator and every size. *)
Theorem malloc_revisions_agree (a : allocator_memory) (bytes : Z) :
  fixed_buffer_earlier.malloc a bytes = malloc a bytes 1.
Proof.
  unfold fixed_buffer_earlier.malloc, malloc. simpl.
  rewrite !Z.add_0_r, to_size_t_idempotent. reflexivity.
Qed.

Lemma realign_used (boundary : Z) (a : allocator_memory) :
  0 < boundary -> 0 <= used a -> used a + boundary <= 2 ^ 64 ->
  used a <= used (fixed_buffer_earlier.realign boundary a) < used a + boundary /\
  used (fixed_buffer_earlier.realign boundary a) mod boundary = 0.
Proof.
  intros Hb Hu Hr. unfold fixed_buffer_earlier.realign. simpl.
  pose proof (Z.mod_pos_bound (used a) boundary Hb) as B.
  destruct (Z.eqb_spec (used a mod boundary) 0) as [E|E].
  - rewrite Z.add_0_r, to_size_t_small by lia. split; [lia | exact E].
  - rewrite to_size_t_small by lia. split; [lia|].
    pose proof (Z.div_mod (used a) boundary ltac:(lia)) as D.
    replace (used a + (boundary - used a mod boundary))
      with ((used a / boundary + 1) * boundary) by lia.
    apply Z.mod_mul. lia.
Qed.

(** X7.  [realign] moves the watermark up to the next multiple of the
    boundary, by less than one boundary, leaves buffer and capacity
    alone, and a second [realign] changes nothing. *)
Theorem realign_pads_to_boundary (boundary : Z) (a : allocator_memory)
    (Hboundary : 0 < boundary) (Hused : 0 <= used a)
    (Hrange : used a + boundary <= 2 ^ 64) :
  let a' := fixed_buffer_earlier.realign boundary a in
  used a <= used a' < used a + boundary /\
  used a' mod boundary = 0 /\
  buffer a' = buffer a /\ allocated a' = allocated a /\
  fixed_buffer_earlier.realign boundary a' = a'.
Proof.
  intros a'. destruct (realign_used boundary a Hboundary Hused Hrange) as [B M].
  fold a' in B, M. split; [exact B|]. split; [exact M|].
  split; [reflexivity|]. split; [reflexivity|].
  assert (U : 0 <= used a' < 2 ^ 64) by lia.
  unfold fixed_buffer_earlier.realign at 1. rewrite M.
  change (0 =? 0) with true. cbv iota.
  rewrite Z.add_0_r, (to_size_t_small (used a') U). reflexivity.
Qed.

Lemma realign_pads_to_boundary_witness :
  431 <= used (fixed_buffer_earlier.realign 8 (mk_allocator 4096 431 1024))
      < 431 + 8.
Proof.
  apply (realign_pads_to_boundary 8 (mk_allocator 4096 431 1024));
    simpl; lia.
Defined.

(** X8.  [realign] does not look at the capacity: when fewer bytes are
    left than the padding needs, the watermark passes the capacity, and
    every later [malloc], even of zero bytes, ends the process (for
    sizes that do not wrap the watermark around [size_t]). *)
Theorem realign_past_capacity_fails_next_malloc
    (boundary : Z) (a : allocator_memory) (bytes : Z)
    (Hboundary : 0 < boundary) (Hused : 0 <= used a <= allocated a)
    (Hrange : allocated a + boundary + bytes <= 2 ^ 64)
    (Hunaligned : used a mod boundary <> 0)
    (Hshort : allocated a - used a < boundary - used a mod boundary)
    (Hbytes : 0 <= bytes) :
  allocated a < used (fixed_buffer_earlier.realign boundary a) /\
  fixed_buffer_earlier.malloc (fixed_buffer_earlier.realign boundary a) bytes
    = exited.
Proof.
  pose proof (Z.mod_pos_bound (used a) boundary Hboundary) as B.
  assert (E : used (fixed_buffer_earlier.realign boundary a) =
              used a + (boundary - used a mod boundary)).
  { unfold fixed_buffer_earlier.realign. simpl.
    destruct (Z.eqb_spec (used a mod boundary) 0); [contradiction|].
    apply to_size_t_small. lia. }
  split; [lia|].
  unfold fixed_buffer_earlier.malloc. rewrite E.
  change (allocated (fixed_buffer_earlier.realign boundary a))
    with (allocated a).
  rewrite to_size_t_small by lia.
  destruct (Z.gtb_spec (used a + (boundary - used a mod boundary) + bytes)
              (allocated a)); [reflexivity | lia].
Qed.

Lemma realign_past_capacity_fails_next_malloc_witness :
  fixed_buffer_earlier.malloc
    (fixed_buffer_earlier.realign 8 (mk_allocator 4096 1021 1022)) 0 = exited.
Proof.
  apply (realign_past_capacity_fails_next_malloc 8
           (mk_allocator 4096 1021 1022) 0);
    try (simpl; lia); vm_compute; congruence.
Defined.

(** ** The chained allocator *)

(** X9.  While requests fit the current chunk, [allocator::malloc] hands
    out adjacent blocks: the second starts exactly where the first ends,
    [add_chunk] is not consulted, the size grows by the bytes asked for
    and the capacity stays as it was. *)
Theorem chained_blocks_are_adjacent
    (add_chunk : chained.allocator -> Z -> option chained.allocator)
    (a : chained.allocator) (bytes1 bytes2 : Z)
    (Hused : 0 <= chained.used a) (Hbytes1 : 0 <= bytes1)
    (Hbytes2 : 0 <= bytes2)
    (Hrange : chained.used a + bytes1 + bytes2 < 2 ^ 64)
    (Hfit : chained.chunk_at a + bytes1 + bytes2 <= chained.chunk_end a) :
  exists a1 a2,
    chained.malloc add_chunk a bytes1 = chained.returned (chained.chunk_at a) a1 /\
    chained.malloc add_chunk a1 bytes2 =
      chained.returned (chained.chunk_at a + bytes1) a2 /\
    chained.size a2 = chained.size a + bytes1 + bytes2 /\
    chained.capacity a2 = chained.capacity a /\
    chained.chunk_end a2 = chained.chunk_end a.
Proof.
  eexists. eexists. split; [|split].
  - unfold chained.malloc.
    destruct (Z.gtb_spec (chained.chunk_at a + bytes1) (chained.chunk_end a));
      [lia | reflexivity].
  - unfold chained.malloc. simpl.
    destruct (Z.gtb_spec (chained.chunk_at a + bytes1 + bytes2)
                (chained.chunk_end a)); [lia | reflexivity].
  - simpl. unfold chained.size, chained.capacity. simpl.
    rewrite (to_size_t_small (chained.used a + bytes1)) by lia.
    rewrite to_size_t_small by lia. repeat split; lia.
Qed.

Lemma chained_blocks_are_adjacent_witness :
  exists a1 a2,
    chained.malloc (fun _ _ => None) (chained.mk_allocator 0 4096 5120 0 1024 1024) 1
      = chained.returned 4096 a1 /\
    chained.malloc (fun _ _ => None) a1 4 = chained.returned (4096 + 1) a2 /\
    chained.size a2 = 0 + 1 + 4 /\
    chained.capacity a2 = 1024 /\
    chained.chunk_end a2 = 5120.
Proof.
  apply (chained_blocks_are_adjacent (fun _ _ => None)
           (chained.mk_allocator 0 4096 5120 0 1024 1024) 1 4); simpl; lia.
Defined.

(** ** The accumulators, whatever the list does *)

Lemma covers_after (documents : Z) (ops : list operation) :
  forall e, covers documents e -> covers documents (after e ops).
Proof.
  induction ops as [|o ops IH]; intros e C; [exact C|].
  simpl. apply IH. destruct o as [d s|]; simpl; [|exact C].
  destruct C as (G & Hcover).
  destruct (add_rsv_frame e d s) as (F1 & F2 & F3 & _).
  split; [now apply geometry_add_rsv|].
  intros x Hx. rewrite strip_of_add_rsv, F3. now apply Hcover.
Qed.

Lemma constructor_covers (g : engine) keys (documents k : Z) :
  1 <= documents < 2 ^ 31 ->
  covers documents (query_atire_global g keys documents k).
Proof.
  intros H.
  destruct (constructor_fields g keys documents k H) as (F1 & F2 & F3 & _).
  split; [now apply constructor_geometry|].
  intros d Hd. unfold strip_of. rewrite F1, F3.
  apply strip_index_bound; lia.
Qed.

Lemma memory_wraps_rewind (documents : Z) (e : engine) :
  covers documents e -> memory_wraps documents [] (rewind e).
Proof.
  intros (G & Hcover). split; [exact G|]. split.
  - intros d Hd _. reflexivity.
  - intros d Hd Hflag. exfalso. apply Hflag.
    change (strip_of (rewind e) d) with (strip_of e d).
    apply rewind_clean_flags. split; [|now apply Hcover].
    apply strip_nonneg; [exact G | lia].
Qed.

Lemma memory_wraps_add_rsv
    (documents : Z) (calls : list call) (e : engine) (d s : Z) :
  documents <= 2 ^ 32 ->
  memory_wraps documents calls e -> 0 <= d < documents ->
  memory_wraps documents (calls ++ [(d, s)]) (add_rsv e d s).
Proof.
  intros Hdoc (G & C & D) Hd.
  destruct (add_rsv_memory e d s) as [Fl Ac].
  split; [now apply geometry_add_rsv|]. split.
  - intros x Hx. rewrite strip_of_add_rsv, Fl, touch_clean_flags by assumption.
    rewrite total_app.
    destruct (Z.eqb_spec (strip_of e x) (strip_of e d)) as [E|NE].
    + destruct (Z.eqb_spec (clean_flags e (strip_of e x)) 0); [lia|].
      intros H. contradiction.
    + intros H. destruct (Z.eqb_spec d x) as [->|_]; [contradiction|].
      rewrite (C x Hx H). reflexivity.
  - intros x Hx. rewrite strip_of_add_rsv, Fl, Ac, touch_clean_flags by assumption.
    rewrite total_app. unfold store.
    rewrite !touch_accumulators by (assumption || lia).
    rewrite Z.eqb_refl, andb_true_r, (Z.eqb_sym x d).
    assert (Here : (if clean_flags e (strip_of e d) =? 0 then 0
                    else accumulators e d) = to_uint16 (total calls d)).
    { destruct (Z.eqb_spec (clean_flags e (strip_of e d)) 0) as [Z0|NZ].
      - rewrite (C d Hd Z0). reflexivity.
      - now apply D. }
    destruct (Z.eqb_spec d x) as [<-|Ndx].
    + intros _. rewrite Here. unfold to_uint16.
      apply Zplus_mod_idemp_l.
    + rewrite Z.add_0_r.
      destruct (Z.eqb_spec (strip_of e x) (strip_of e d)) as [E|NE].
      * rewrite andb_true_r, <- E.
        destruct (Z.eqb_spec (clean_flags e (strip_of e x)) 0) as [Z0|NZ].
        { intros _. rewrite (C x Hx Z0). reflexivity. }
        { intros _. now apply D. }
      * rewrite andb_false_r. now apply D.
Qed.

Lemma memory_wraps_run (documents : Z) (rest : list call) :
  forall (calls : list call) (e : engine),
  documents <= 2 ^ 32 ->
  memory_wraps documents calls e ->
  Forall (fun c => 0 <= fst c < documents) rest ->
  memory_wraps documents (calls ++ rest) (run e rest).
Proof.
  induction rest as [|c rest IH]; intros calls e Hdoc M Hvalid.
  - rewrite app_nil_r. exact M.
  - inversion Hvalid as [|? ? Hd Hvalid']; subst.
    destruct c as [d s]. simpl in Hd. simpl.
    pose proof (app_assoc calls [(d, s)] rest) as E. simpl in E.
    rewrite E. apply IH; try assumption.
    now apply memory_wraps_add_rsv.
Qed.

(** What a defined run says about the collection and about [top_k]. *)
Lemma defined_height
    (g : engine) (keys : list string) (documents k : Z)
    (ops : list operation) (calls : list call) :
  calls_defined g keys documents k ops calls = true ->
  query_atire_global_defined g keys documents k = true /\
  accumulators_height (query_atire_global g keys documents k)
    <= clean_flags_length.
Proof.
  intros Def. unfold calls_defined in Def. cbv zeta in Def.
  apply andb_true_iff in Def. destruct Def as [Def _].
  apply andb_true_iff in Def. destruct Def as [Def _].
  apply andb_true_iff in Def. destruct Def as [Def _].
  split; [exact Def|].
  unfold query_atire_global_defined in Def.
  apply andb_true_iff in Def. destruct Def as [_ Def].
  now apply Z.leb_le.
Qed.

(** X10.  With or without overflow, for every [top_k] and whatever the
    pointer list does: in every run of construction, earlier calls,
    [rewind] and calls for documents below [documents] in which every
    access is inside the static arrays and [promote] is given pointers of
    the heap, the strips fit the ten flags of [clean_flags], a document
    whose strip is still clean has received nothing, and the cell of a
    document whose strip is dirty holds the sum of the scores given for
    it, reduced to 16 bits. *)
Theorem cells_hold_wrapped_totals
    (g : engine) (keys : list string) (documents k : Z)
    (ops : list operation) (calls : list call) (d : Z)
    (Hdocuments : 1 <= documents < 2 ^ 31)
    (Hdefined : calls_defined g keys documents k ops calls = true)
    (Hcalls : Forall (fun c => 0 <= fst c < documents) calls)
    (Hd : 0 <= d < documents) :
  let e := run (rewind (after (query_atire_global g keys documents k) ops))
             calls in
  accumulators_height e <= clean_flags_length /\
  strip_of e d < accumulators_height e /\
  (clean_flags e (strip_of e d) = 0 -> total calls d = 0) /\
  (clean_flags e (strip_of e d) <> 0 ->
   accumulators e d = to_uint16 (total calls d)).
Proof.
  intros e.
  assert (P32 : 2 ^ 31 <= 2 ^ 32) by (apply Z.pow_le_mono_r; lia).
  assert (M : memory_wraps documents calls e).
  { apply (memory_wraps_run documents calls []); [lia | | exact Hcalls].
    apply memory_wraps_rewind, covers_after, constructor_covers.
    exact Hdocuments. }
  assert (C0 : covers documents (query_atire_global g keys documents k))
    by (now apply constructor_covers).
  assert (Hh : accumulators_height e =
               accumulators_height (query_atire_global g keys documents k)
               /\ strip_of e d < accumulators_height e).
  { assert (Gen : forall calls' e', covers documents e' ->
              accumulators_height (run e' calls') = accumulators_height e' /\
              covers documents (run e' calls')).
    { induction calls' as [|c cs IH]; intros e' Ce'; [now split|].
      simpl. destruct (add_rsv_frame e' (fst c) (snd c)) as (_ & _ & F3 & _).
      destruct (IH (add_rsv e' (fst c) (snd c))) as [E1 E2].
      - apply (covers_after documents [op_add_rsv (fst c) (snd c)] e' Ce').
      - split; [now rewrite E1 | exact E2]. }
    assert (Gen' : forall ops' e', covers documents e' ->
              accumulators_height (after e' ops') = accumulators_height e').
    { induction ops' as [|o os IH]; intros e' Ce'; [reflexivity|].
      simpl. rewrite IH by (apply (covers_after documents [o] e' Ce')).
      destruct o as [d' s'|]; simpl; [|reflexivity].
      now destruct (add_rsv_frame e' d' s') as (_ & _ & F3 & _). }
    destruct (Gen calls
                (rewind (after (query_atire_global g keys documents k) ops)))
      as [E1 [_ E2]].
    - apply (covers_after documents (ops ++ [op_rewind])
               (query_atire_global g keys documents k)) in C0.
      unfold after in C0. rewrite fold_left_app in C0. exact C0.
    - fold e in E1, E2. split; [|now apply E2].
      rewrite E1. change (accumulators_height (rewind ?x))
        with (accumulators_height x).
      now apply Gen'. }
  destruct Hh as [Hh Hs].
  split.
  { rewrite Hh.
    exact (proj2 (defined_height g keys documents k ops calls Hdefined)). }
  split; [exact Hs|].
  destruct M as (_ & C & D). split; [now apply C | now apply D].
Qed.

Lemma cells_hold_wrapped_totals_witness :
  accumulators
    (run (rewind (after (query_atire_global startup [] 20 12)
                    [op_add_rsv 3 9; op_add_rsv 16 65535]))
       [(3, 65535); (7, 2); (3, 6)]) 3 =
  to_uint16 (total [(3, 65535); (7, 2); (3, 6)] 3).
Proof.
  refine (proj2 (proj2 (proj2
            (cells_hold_wrapped_totals startup [] 20 12
               [op_add_rsv 3 9; op_add_rsv 16 65535]
               [(3, 65535); (7, 2); (3, 6)] 3 _ _ _ _))) _).
  - split; [lia | reflexivity].
  - vm_compute. reflexivity.
  - repeat constructor; simpl; lia.
  - lia.
  - vm_compute. discriminate.
Defined.

(** ** What the static arrays allow *)

Lemma height_fits (g : engine) keys (documents k : Z) :
  1 <= documents < 2 ^ 31 ->
  (accumulators_height (query_atire_global g keys documents k)
     <= clean_flags_length <->
   documents <= 39 \/ 64 <= documents <= 79).
Proof.
  intros Hdocuments.
  destruct (constructor_fields g keys documents k Hdocuments)
    as (_ & _ & F3 & _).
  rewrite F3.
  destruct (Z.le_gt_cases 256 documents) as [Big | Small].
  - pose proof (strip_count_large documents Big). unfold clean_flags_length.
    lia.
  - pose proof strip_count_small_checked as C.
    rewrite forallb_forall in C.
    specialize (C documents). rewrite in_map_iff in C.
    assert (E : Bool.eqb (strip_count documents <=? clean_flags_length)
                  ((documents <=? 39) || ((64 <=? documents) && (documents <=? 79)))
                = true).
    { apply C. exists (documents - 1). split; [lia|]. apply in_range. lia. }
    apply Bool.eqb_prop in E.
    rewrite <- Z.leb_le, E, orb_true_iff, andb_true_iff, !Z.leb_le.
    reflexivity.
Qed.

Lemma constructor_defined_height (g : engine) keys (documents k : Z) :
  1 <= documents < 2 ^ 31 ->
  (query_atire_global_defined g keys documents k = true <->
   accumulators_height (query_atire_global g keys documents k)
     <= clean_flags_length).
Proof.
  intros Hdocuments. unfold query_atire_global_defined, rewind_defined.
  pose proof (strip_shift_small documents) as S.
  assert (P31 : 2 ^ 31 = 2147483648) by reflexivity.
  assert (P32 : 2 ^ 32 = 4294967296) by reflexivity.
  unfold strip_shift in S.
  destruct (Z.leb_spec 1 documents); [|lia].
  destruct (Z.ltb_spec (log2_sqrt documents) 31); [|lia].
  simpl. apply Z.leb_le.
Qed.

(** X11.  The ten flags of [clean_flags] are enough for exactly the
    collections of 1 to 39 and of 64 to 79 documents: among the
    collections of fewer than [2 ^ 31] documents these are the ones for
    which the [accumulators_height] that the constructor stores is at
    most ten, and the ones for which the constructor, whose [rewind]
    clears [accumulators_height] flags, stays inside the array. *)
Theorem clean_flags_suffice_exactly
    (g : engine) (keys : list string) (documents k : Z)
    (Hdocuments : 1 <= documents < 2 ^ 31) :
  (accumulators_height (query_atire_global g keys documents k)
     <= clean_flags_length <->
   documents <= 39 \/ 64 <= documents <= 79) /\
  (query_atire_global_defined g keys documents k = true <->
   documents <= 39 \/ 64 <= documents <= 79).
Proof.
  split; [now apply height_fits|].
  rewrite (constructor_defined_height g keys documents k Hdocuments).
  now apply height_fits.
Qed.

Lemma clean_flags_suffice_exactly_witness :
  accumulators_height (query_atire_global startup [] 72 10)
    <= clean_flags_length <->
  72 <= 39 \/ 64 <= 72 <= 79.
Proof.
  apply (clean_flags_suffice_exactly startup [] 72 10).
  split; [lia | reflexivity].
Defined.

Lemma after_defined_app (ops ops' : list operation) :
  forall e,
  after_defined e (ops ++ ops') =
  after_defined e ops && after_defined (after e ops) ops'.
Proof.
  induction ops as [|o ops IH]; intros e; [reflexivity|].
  simpl. rewrite IH. now rewrite andb_assoc.
Qed.

Lemma after_calls (calls : list call) :
  forall e,
  after e (map (fun c => op_add_rsv (fst c) (snd c)) calls) = run e calls /\
  after_defined e (map (fun c => op_add_rsv (fst c) (snd c)) calls) =
    run_defined e calls.
Proof.
  induction calls as [|c calls IH]; intros e; [split; reflexivity|].
  simpl. destruct (IH (add_rsv e (fst c) (snd c))) as [E1 E2].
  split; [exact E1 | now rewrite E2].
Qed.

(** X22.  With [top_k] equal to the size of the heap, after earlier
    calls that were defined: construction, [rewind] and the [add_rsv]
    calls of a query with valid documents, positive scores and no total
    above 65535 make no access outside [clean_flags], [accumulators] and
    [accumulator_pointers], and give [promote] only pointers of the heap,
    exactly when the collection has 1 to 39 or 64 to 79 documents (among
    the collections of fewer than [2 ^ 31] documents); and then the
    earlier calls, the [rewind] and the query are together defined
    earlier calls for the next query. *)
Theorem calls_stay_inside_static_arrays
    (g : engine) (keys : list string) (documents : Z)
    (ops : list operation) (calls : list call)
    (Hdocuments : 1 <= documents < 2 ^ 31)
    (Hops : after_defined (query_atire_global g keys documents heap_size) ops
            = true)
    (Hvalid : valid_calls documents calls)
    (Hfit : no_overflow calls) :
  (calls_defined g keys documents heap_size ops calls = true <->
   documents <= 39 \/ 64 <= documents <= 79) /\
  (documents <= 39 \/ 64 <= documents <= 79 ->
   after_defined (query_atire_global g keys documents heap_size)
     (ops ++ op_rewind :: map (fun c => op_add_rsv (fst c) (snd c)) calls)
   = true).
Proof.
  assert (Fits : documents <= 39 \/ 64 <= documents <= 79 ->
                 calls_defined g keys documents heap_size ops calls = true).
  { intros R. apply (height_fits g keys documents heap_size Hdocuments) in R.
    exact (proj1 (calls_inside g keys documents ops calls Hdocuments R
                    Hops Hvalid Hfit)). }
  split; [split; [|exact Fits]|].
  - intros Def.
    apply (height_fits g keys documents heap_size Hdocuments).
    exact (proj2 (defined_height g keys documents heap_size ops calls Def)).
  - intros R. specialize (Fits R).
    unfold calls_defined in Fits. cbv zeta in Fits.
    apply andb_true_iff in Fits. destruct Fits as [Fits D3].
    apply andb_true_iff in Fits. destruct Fits as [_ D2].
    rewrite after_defined_app, Hops. simpl.
    rewrite D2. simpl.
    now rewrite (proj2 (after_calls calls _)).
Qed.

Lemma calls_stay_inside_static_arrays_witness :
  calls_defined startup [] 72 heap_size [op_add_rsv 71 9; op_rewind]
    [(64, 1); (0, 65534); (64, 7)] = true <->
  72 <= 39 \/ 64 <= 72 <= 79.
Proof.
  apply (calls_stay_inside_static_arrays startup [] 72
           [op_add_rsv 71 9; op_rewind] [(64, 1); (0, 65534); (64, 7)]).
  - split; [lia | reflexivity].
  - vm_compute. reflexivity.
  - repeat constructor; simpl; lia.
  - apply no_overflow_check. reflexivity.
Defined.

(** ** The lazy clearing inside the arrays *)

Lemma geometry_run (calls : list call) :
  forall e, geometry e -> geometry (run e calls).
Proof.
  induction calls as [|c cs IH]; intros e G; [exact G|].
  simpl. apply IH. now apply geometry_add_rsv.
Qed.

(** X12.  In every run of construction, earlier calls, [rewind] and
    calls for valid documents in which every access is inside the static
    arrays: the strips fit the ten flags of [clean_flags]; after the
    [rewind] the list is empty and the flags of all [accumulators_height]
    strips are zero; and the first [add_rsv] for a document after that
    [rewind], whatever calls for other documents come in between, finds
    zero in the cell and leaves the score it was given there. *)
Theorem lazy_clear_inside_static_arrays
    (g : engine) (keys : list string) (documents k : Z)
    (ops : list operation) (calls : list call) (d s : Z)
    (Hdocuments : 1 <= documents < 2 ^ 31)
    (Hdefined : calls_defined g keys documents k ops (calls ++ [(d, s)])
                = true)
    (Hd : 0 <= d < documents)
    (Hcalls : Forall (fun c => fst c <> d /\ 0 <= fst c < documents) calls) :
  let e := rewind (after (query_atire_global g keys documents k) ops) in
  accumulators_height e <= clean_flags_length /\
  strip_of e d < accumulators_height e /\
  results_list_length e = 0 /\
  (forall f, 0 <= f < accumulators_height e -> clean_flags e f = 0) /\
  old_value_read (run e calls) d = 0 /\
  accumulators (add_rsv (run e calls) d s) d = to_uint16 s.
Proof.
  intros e.
  assert (P31 : 2 ^ 31 = 2147483648) by reflexivity.
  assert (P32 : 2 ^ 32 = 4294967296) by reflexivity.
  assert (C : covers documents e).
  { apply (covers_after documents ops), constructor_covers.
    exact Hdocuments. }
  destruct C as [G Hcover].
  assert (Old : old_value_read (run e calls) d = 0).
  { apply reads_zero_old_value; [|lia|].
    - now apply geometry_run.
    - apply reads_zero_run; [exact G | lia | |].
      + rewrite Forall_forall in *. intros c Hc.
        destruct (Hcalls c Hc). split; [assumption | lia].
      + left. apply rewind_clean_flags.
        split; [apply strip_nonneg; [exact G | lia] | now apply Hcover]. }
  split.
  { assert (Gen : forall ops' e', covers documents e' ->
              accumulators_height (after e' ops') = accumulators_height e').
    { induction ops' as [|o os IH]; intros e' Ce'; [reflexivity|].
      simpl. rewrite IH by (apply (covers_after documents [o] e' Ce')).
      destruct o as [d' s'|]; simpl; [|reflexivity].
      now destruct (add_rsv_frame e' d' s') as (_ & _ & F3 & _). }
    change (accumulators_height e)
      with (accumulators_height
              (after (query_atire_global g keys documents k) ops)).
    rewrite Gen by (now apply constructor_covers).
    exact (proj2 (defined_height g keys documents k ops _ Hdefined)). }
  split; [now apply Hcover|].
  split; [reflexivity|].
  split; [intros f Hf; now apply rewind_clean_flags|].
  split; [exact Old|].
  destruct (add_rsv_memory (run e calls) d s) as [_ A]. rewrite A.
  unfold store. rewrite Z.eqb_refl.
  unfold old_value_read in Old. rewrite Old. reflexivity.
Qed.

Lemma lazy_clear_inside_static_arrays_witness :
  accumulators
    (add_rsv
       (run (rewind (after (query_atire_global startup [] 20 10)
                       [op_add_rsv 1 7; op_add_rsv 2 8]))
          [(3, 5); (2, 2)]) 1 4) 1 = to_uint16 4.
Proof.
  apply (lazy_clear_inside_static_arrays startup [] 20 10
           [op_add_rsv 1 7; op_add_rsv 2 8] [(3, 5); (2, 2)] 1 4).
  - split; [lia | reflexivity].
  - vm_compute. reflexivity.
  - lia.
  - repeat constructor; simpl; try lia; discriminate.
Defined.

(** ** The pointer list during a query *)

(** A query with [top_k] equal to the size of the heap, before the
    iteration, stays inside the arrays. *)
Lemma query_state_inside
    (g : engine) (keys : list string) (documents : Z)
    (ops : list operation) (calls : list call) :
  1 <= documents < 2 ^ 31 ->
  accumulators_height (query_atire_global g keys documents heap_size)
    <= clean_flags_length ->
  after_defined (query_atire_global g keys documents heap_size) ops = true ->
  valid_calls documents calls -> no_overflow calls ->
  calls_defined g keys documents heap_size ops calls = true.
Proof.
  intros Hdocuments Hflags Hops Hvalid Hfit.
  exact (proj1 (calls_inside g keys documents ops calls Hdocuments Hflags
                  Hops Hvalid Hfit)).
Qed.

(** X13.  During a query without overflow on a collection whose strips
    fit the ten flags of [clean_flags], every access is inside the
    static arrays and the tracked pointers name documents below
    [documents], each with a dirty strip and a positive cell that holds
    its total, and no document is tracked twice. *)
Theorem tracked_pointers_are_distinct_and_positive
    (g : engine) (keys : list string) (documents : Z)
    (ops : list operation) (calls : list call) (i j : Z)
    (Hdocuments : 1 <= documents < 2 ^ 31)
    (Hflags : accumulators_height
                (query_atire_global g keys documents heap_size)
              <= clean_flags_length)
    (Hops : after_defined (query_atire_global g keys documents heap_size) ops
            = true)
    (Hvalid : valid_calls documents calls)
    (Hfit : no_overflow calls)
    (Hi : 0 <= i < results_list_length (query_state g keys documents ops calls))
    (Hj : 0 <= j < results_list_length (query_state g keys documents ops calls)) :
  let e := query_state g keys documents ops calls in
  let which := accumulator_pointers e i in
  calls_defined g keys documents heap_size ops calls = true /\
  0 <= which < documents /\
  clean_flags e (strip_of e which) <> 0 /\
  0 < accumulators e which /\
  accumulators e which = total calls which /\
  (accumulator_pointers e i = accumulator_pointers e j -> i = j).
Proof.
  intros e which.
  pose proof (query_state_invariant g keys documents ops calls
                Hdocuments Hvalid Hfit) as Inv.
  fold e in Inv, Hi, Hj.
  assert (Tr : tracked (accumulator_pointers e) (results_list_length e) which)
    by (exists i; split; [exact Hi | reflexivity]).
  destruct (tracked_facts documents calls e Inv which Tr) as (V & Pos & E).
  destruct Inv as ((_ & _ & C & _) & (_ & _ & _ & D & _)).
  split; [now apply query_state_inside|].
  split; [exact V|]. split.
  - intros Z0. apply C in Z0; [lia | exact V].
  - split; [lia|]. split; [exact E|]. intros Eq. now apply D.
Qed.

Lemma tracked_pointers_are_distinct_and_positive_witness :
  let e := query_state startup [] 20 [] [(3, 5); (7, 2); (3, 4)] in
  0 <= accumulator_pointers e 1 < 20.
Proof.
  apply (tracked_pointers_are_distinct_and_positive startup [] 20 []
           [(3, 5); (7, 2); (3, 4)] 1 1).
  - split; [lia | reflexivity].
  - vm_compute. discriminate.
  - reflexivity.
  - repeat constructor; simpl; lia.
  - apply no_overflow_check. reflexivity.
  - vm_compute. split; [discriminate | reflexivity].
  - vm_compute. split; [discriminate | reflexivity].
Defined.

(** X14.  Once the list is full, during a query without overflow on a
    collection whose strips fit the ten flags of [clean_flags], the root
    of the heap holds the smallest score of all tracked cells. *)
Theorem root_holds_smallest_score
    (g : engine) (keys : list string) (documents : Z)
    (ops : list operation) (calls : list call) (i : Z)
    (Hdocuments : 1 <= documents < 2 ^ 31)
    (Hflags : accumulators_height
                (query_atire_global g keys documents heap_size)
              <= clean_flags_length)
    (Hops : after_defined (query_atire_global g keys documents heap_size) ops
            = true)
    (Hvalid : valid_calls documents calls)
    (Hfit : no_overflow calls)
    (Hfull : results_list_length (query_state g keys documents ops calls) =
             top_k (query_state g keys documents ops calls))
    (Hi : 0 <= i < top_k (query_state g keys documents ops calls)) :
  let e := query_state g keys documents ops calls in
  calls_defined g keys documents heap_size ops calls = true /\
  accumulators e (accumulator_pointers e 0) <=
  accumulators e (accumulator_pointers e i).
Proof.
  intros e.
  pose proof (query_state_invariant g keys documents ops calls
                Hdocuments Hvalid Hfit) as Inv.
  fold e in Inv, Hfull, Hi.
  split; [now apply query_state_inside|].
  pose proof (full_list documents calls e Inv Hfull) as Ok.
  assert (Ti : tracked (accumulator_pointers e) (top_k e) (accumulator_pointers e i))
    by (exists i; split; [exact Hi | reflexivity]).
  pose proof (full_root_minimal documents _ _ _ _ Ok Ti) as M.
  pose proof (root_tracked documents calls e Inv Hfull) as R.
  rewrite <- Hfull in Ti, R.
  destruct (tracked_facts documents calls e Inv _ Ti) as (_ & _ & Ei).
  destruct (tracked_facts documents calls e Inv _ R) as (_ & _ & Er).
  rewrite Ei, Er. unfold cell_le in M. lia.
Qed.

Lemma root_holds_smallest_score_witness :
  let e := query_state startup [] 20 []
             [(0, 9); (1, 2); (2, 3); (3, 4); (4, 5); (5, 6); (6, 7);
              (7, 8); (8, 1); (9, 10); (15, 7)] in
  accumulators e (accumulator_pointers e 0) <=
  accumulators e (accumulator_pointers e 4).
Proof.
  apply (root_holds_smallest_score startup [] 20 []
           [(0, 9); (1, 2); (2, 3); (3, 4); (4, 5); (5, 6); (6, 7);
            (7, 8); (8, 1); (9, 10); (15, 7)] 4).
  - split; [lia | reflexivity].
  - vm_compute. discriminate.
  - reflexivity.
  - repeat constructor; simpl; lia.
  - apply no_overflow_check. reflexivity.
  - vm_compute. reflexivity.
  - vm_compute. split; [discriminate | reflexivity].
Defined.

(** ** The order of the iteration *)

Lemma StronglySorted_firstn {X : Type} (R : X -> X -> Prop) (n : nat) :
  forall l : list X, StronglySorted R l -> StronglySorted R (firstn n l).
Proof.
  induction n as [|n IH]; intros l S; [constructor|].
  destruct S as [|a l S Ha]; simpl; [constructor|].
  constructor; [now apply IH|].
  rewrite Forall_forall in *. intros y Hy. apply Ha.
  rewrite <- (firstn_skipn n l). apply in_or_app. now left.
Qed.

Lemma StronglySorted_strict {X : Type} (R : X -> X -> Prop) (l : list X) :
  StronglySorted R l -> NoDup l ->
  StronglySorted (fun x y => R x y /\ x <> y) l.
Proof.
  induction 1 as [|a l S IH Ha]; intros N; [constructor|].
  inversion N as [|? ? Na N']; subst. constructor; [now apply IH|].
  rewrite Forall_forall in *. intros y Hy. split; [now apply Ha|].
  intros ->. contradiction.
Qed.

Lemma StronglySorted_map {X Y : Type} (R : X -> X -> Prop)
    (R' : Y -> Y -> Prop) (f : X -> Y) (l : list X) :
  (forall x y, R x y -> R' (f x) (f y)) ->
  StronglySorted R l -> StronglySorted R' (map f l).
Proof.
  intros H. induction 1 as [|a l S IH Ha]; simpl; [constructor|].
  constructor; [exact IH|].
  rewrite Forall_forall in *. intros y Hy. apply in_map_iff in Hy.
  destruct Hy as (x & <- & Hx). now apply H, Ha.
Qed.

Lemma brute_force_descending keys documents k (calls : list call) :
  StronglySorted result_above (brute_force keys documents k calls).
Proof.
  unfold brute_force.
  apply (StronglySorted_map (fun x y => pair_ge x y /\ x <> y)).
  - intros x y [G N]. apply pair_ge_iff in G. unfold result_above. simpl.
    destruct x as [dx tx], y as [dy ty]. simpl in *.
    assert (dx <> dy \/ tx <> ty).
    { destruct (Z.eq_dec dx dy) as [->|]; [right | now left].
      intros ->. now apply N. }
    lia.
  - apply StronglySorted_firstn, StronglySorted_strict.
    + apply sort_desc_sorted.
    + apply (Permutation_NoDup (Permutation_sym (sort_desc_perm _))).
      apply scored_NoDup.
Qed.

Lemma scored_documents_NoDup (documents : Z) (calls : list call) :
  NoDup (map fst (scored documents calls)).
Proof.
  unfold scored. generalize (range_NoDup documents).
  generalize (range documents). intros l N.
  induction N as [|d l Hd N IH]; simpl; [constructor|].
  destruct (0 <? total calls d); simpl; [|exact IH].
  constructor; [|exact IH]. intros Hin. apply Hd.
  apply in_map_iff in Hin. destruct Hin as (p & E & Hp).
  apply filter_In in Hp. destruct Hp as [Hp _].
  apply in_map_iff in Hp. destruct Hp as (d' & <- & Hd'). simpl in E.
  now subst d'.
Qed.

Lemma brute_force_documents_NoDup keys documents k (calls : list call) :
  NoDup (map (fun r : Z * string * Z => fst (fst r))
           (brute_force keys documents k calls)).
Proof.
  unfold brute_force. rewrite map_map. simpl.
  change (fun x : Z * Z => fst x) with (@fst Z Z).
  set (F := sort_desc (scored documents calls)).
  assert (N : NoDup (map fst F)).
  { apply (Permutation_NoDup
             (Permutation_map fst (Permutation_sym (sort_desc_perm _)))).
    apply scored_documents_NoDup. }
  rewrite <- (firstn_skipn (Z.to_nat k) F), map_app in N.
  now apply NoDup_app_remove_r in N.
Qed.

(** X15.  After a query without overflow on a collection whose strips
    fit the ten flags of [clean_flags], with a key for every document,
    the whole query stays inside the static arrays and the iteration is
    strictly descending: every result has a greater score than each
    later one, or the same score and a greater document identifier; so
    documents with equal scores come highest identifier first, and no
    document is yielded twice. *)
Theorem iteration_is_strictly_descending
    (g : engine) (keys : list string) (documents : Z)
    (ops : list operation) (calls : list call)
    (Hdocuments : 1 <= documents < 2 ^ 31)
    (Hflags : accumulators_height
                (query_atire_global g keys documents heap_size)
              <= clean_flags_length)
    (Hkeys : documents <= Z.of_nat (List.length keys))
    (Hops : after_defined (query_atire_global g keys documents heap_size) ops
            = true)
    (Hvalid : valid_calls documents calls)
    (Hfit : no_overflow calls) :
  query_defined g keys documents heap_size ops calls = true /\
  StronglySorted result_above
    (results (query_state g keys documents ops calls)) /\
  NoDup (map (fun r => fst (fst r))
           (results (query_state g keys documents ops calls))).
Proof.
  split; [now apply query_inside|].
  unfold query_state.
  rewrite (constructed_query_brute_force g keys documents ops calls
             Hdocuments Hvalid Hfit).
  split; [apply brute_force_descending | apply brute_force_documents_NoDup].
Qed.

Lemma iteration_is_strictly_descending_witness :
  StronglySorted result_above
    (results (query_state startup (repeat "key"%string 20) 20 []
                [(2, 5); (4, 5); (1, 5)])).
Proof.
  apply (iteration_is_strictly_descending startup (repeat "key"%string 20) 20
           [] [(2, 5); (4, 5); (1, 5)]).
  - split; [lia | reflexivity].
  - vm_compute. discriminate.
  - vm_compute. discriminate.
  - reflexivity.
  - repeat constructor; simpl; lia.
  - apply no_overflow_check. reflexivity.
Defined.

Lemma cell_ge_antisym (A : array) (x y : Z) :
  cell_ge A x y -> cell_ge A y x -> x = y.
Proof. unfold cell_ge, cell_le. lia. Qed.

Lemma dereference_through_pointers (e : engine) (l : list Z) :
  map (dereference e) l =
  map (fun c => (c, nth (Z.to_nat c) (primary_keys e) EmptyString,
                 accumulators e c))
    (map (accumulator_pointers e) l).
Proof. rewrite map_map. reflexivity. Qed.

Lemma sort_twice (documents : Z) (calls : list call) (e : engine) :
  documents <= 2 ^ 31 -> invariant documents calls e ->
  results (sort e) = results e.
Proof.
  intros Hdoc Inv.
  destruct (cells_sorted documents calls e Hdoc Inv) as [Perm Sorted].
  pose proof (cells_length documents calls e Hdoc Inv) as Len.
  pose proof (in_cells documents calls e Hdoc Inv) as In_cells.
  set (cells := top_k_sort
         (List.length (map (accumulator_pointers e) (range (results_list_length e))))
         (accumulators e)
         (map (accumulator_pointers e) (range (results_list_length e)))
         (top_k e)) in *.
  assert (Read : forall P, map (load P 0 cells) (range (results_list_length e))
                           = cells).
  { intros P. rewrite <- Len. apply load_range. }
  assert (Again : top_k_sort (List.length cells) (accumulators e) cells (top_k e)
                  = cells).
  { assert (HL : 0 <= results_list_length e <= top_k e)
      by (destruct Inv as (_ & (_ & HL & _)); exact HL).
    destruct (top_k_sort_correct (accumulators e) documents Hdoc
                (List.length cells) cells (top_k e)) as [Perm' Sorted'].
    - lia.
    - lia.
    - apply Forall_forall. intros c Hc. apply In_cells in Hc.
      now apply (tracked_facts documents calls e Inv).
    - apply (sorted_unique (cell_ge (accumulators e))
               (cell_ge_antisym (accumulators e))); assumption. }
  unfold results, sort, top_k_qsort. simpl. fold cells.
  rewrite !Read. rewrite Again.
  rewrite !dereference_through_pointers. simpl.
  rewrite !Read. reflexivity.
Qed.

(** The second iteration reads the pointers, cells and keys that the
    first one read. *)
Lemma second_iteration_inside
    (g : engine) (keys : list string) (documents : Z)
    (ops : list operation) (calls : list call) :
  1 <= documents < 2 ^ 31 ->
  accumulators_height (query_atire_global g keys documents heap_size)
    <= clean_flags_length ->
  documents <= Z.of_nat (List.length keys) ->
  after_defined (query_atire_global g keys documents heap_size) ops = true ->
  valid_calls documents calls -> no_overflow calls ->
  results_defined (sort (query_state g keys documents ops calls)) = true.
Proof.
  intros Hdocuments Hflags Hkeys Hops Hvalid Hfit.
  destruct (calls_inside g keys documents ops calls Hdocuments Hflags Hops
              Hvalid Hfit) as [_ I].
  pose proof (query_state_invariant g keys documents ops calls
                Hdocuments Hvalid Hfit) as Inv.
  apply (results_inside documents).
  - change (results_list_length (sort ?x)) with (results_list_length x).
    destruct I as (_ & _ & _ & _ & _ & _ & K & L). lia.
  - apply (documents_have_cells documents _ ltac:(lia) I).
  - change (primary_keys (sort ?x)) with (primary_keys x).
    unfold query_state.
    destruct (run_frame calls
                (rewind (after (query_atire_global g keys documents heap_size)
                           ops))) as [F _].
    rewrite F.
    change (primary_keys (rewind ?x)) with (primary_keys x).
    rewrite primary_keys_after.
    destruct (constructor_fields g keys documents heap_size Hdocuments)
      as (_ & _ & _ & _ & F5 & _).
    rewrite F5. exact Hkeys.
  - rewrite (sort_twice documents calls) by (lia || exact Inv).
    unfold query_state.
    rewrite (constructed_query_brute_force g keys documents ops calls
               Hdocuments Hvalid Hfit).
    apply brute_force_documents.
Qed.

(** X16.  After a query without overflow on a collection whose strips
    fit the ten flags of [clean_flags], with a key for every document, a
    second [begin()] stays inside the static arrays and yields what the
    first did: sorting the sorted list changes nothing. *)
Theorem begin_twice_yields_the_same
    (g : engine) (keys : list string) (documents : Z)
    (ops : list operation) (calls : list call)
    (Hdocuments : 1 <= documents < 2 ^ 31)
    (Hflags : accumulators_height
                (query_atire_global g keys documents heap_size)
              <= clean_flags_length)
    (Hkeys : documents <= Z.of_nat (List.length keys))
    (Hops : after_defined (query_atire_global g keys documents heap_size) ops
            = true)
    (Hvalid : valid_calls documents calls)
    (Hfit : no_overflow calls) :
  query_defined g keys documents heap_size ops calls = true /\
  results_defined (sort (query_state g keys documents ops calls)) = true /\
  results (sort (query_state g keys documents ops calls)) =
  results (query_state g keys documents ops calls).
Proof.
  split; [now apply query_inside|].
  split; [now apply second_iteration_inside|].
  apply (sort_twice documents calls); [lia|].
  now apply query_state_invariant.
Qed.

Lemma begin_twice_yields_the_same_witness :
  results (sort (query_state startup (repeat "key"%string 20) 20 []
                   [(2, 5); (4, 5); (1, 7)])) =
  results (query_state startup (repeat "key"%string 20) 20 []
             [(2, 5); (4, 5); (1, 7)]).
Proof.
  apply (begin_twice_yields_the_same startup (repeat "key"%string 20) 20 []
           [(2, 5); (4, 5); (1, 7)]).
  - split; [lia | reflexivity].
  - vm_compute. discriminate.
  - vm_compute. discriminate.
  - reflexivity.
  - repeat constructor; simpl; lia.
  - apply no_overflow_check. reflexivity.
Defined.

(** * The predecessor *)

(** ** Its comparator and its heap *)

Lemma compare_h_sign (A : array) (a b : Z) :
  - 2 ^ 31 <= a - b < 2 ^ 31 ->
  (add_rsv_compare_h A a b <? 0) = (cmp A a b <? 0) /\
  (add_rsv_compare_h A a b >=? 0) = (cmp A a b >=? 0) /\
  (add_rsv_compare_h A a b >? 0) = (cmp A a b >? 0).
Proof.
  intros near. rewrite (cmp_unfold A a b near). unfold add_rsv_compare_h.
  rewrite !Z.geb_leb, !Z.gtb_ltb.
  destruct (Z.ltb_spec (A b) (A a)); [repeat split; reflexivity|].
  destruct (Z.ltb_spec (A a) (A b)); [repeat split; reflexivity|].
  destruct (Z.ltb_spec b a).
  - repeat split; symmetry;
      [apply Z.ltb_ge | apply Z.leb_le | apply Z.ltb_lt]; lia.
  - destruct (Z.ltb_spec a b).
    + repeat split; symmetry;
        [apply Z.ltb_lt | apply Z.leb_gt | apply Z.ltb_ge]; lia.
    + repeat split; symmetry;
        [apply Z.ltb_ge | apply Z.leb_le | apply Z.ltb_ge]; lia.
Qed.

Section PredecessorHeap.

Variable A : array.
Variable n : Z.
Variable bound : Z.
Hypothesis bound_int : bound <= 2 ^ 31.

Lemma near_below (x y : Z) :
  0 <= x < bound -> 0 <= y < bound -> - 2 ^ 31 <= x - y < 2 ^ 31.
Proof.
  assert (P31 : 2 ^ 31 = 2147483648) by reflexivity. lia.
Qed.

Lemma smallest_agrees (P : array) (i : Z) :
  cells_below P n bound -> 0 <= i < n ->
  ANT_heap.smallest A P n i = heap.smallest A P n i.
Proof.
  intros B Hi. unfold ANT_heap.smallest, heap.smallest. cbv zeta.
  pose proof (B i Hi) as Bi.
  destruct (Z.ltb_spec (2 * i + 1) n) as [Hl|Hl];
  destruct (Z.ltb_spec (2 * i + 2) n) as [Hr|Hr]; cbn [andb]; try lia.
  - pose proof (B (2 * i + 1) ltac:(lia)) as Bl.
    pose proof (B (2 * i + 2) ltac:(lia)) as Br.
    destruct (compare_h_sign A (P (2 * i + 1)) (P i) (near_below _ _ Bl Bi))
      as (E1 & _). rewrite E1.
    destruct (cmp A (P (2 * i + 1)) (P i) <? 0).
    + destruct (compare_h_sign A (P (2 * i + 2)) (P (2 * i + 1))
                  (near_below _ _ Br Bl)) as (E2 & _). now rewrite E2.
    + destruct (compare_h_sign A (P (2 * i + 2)) (P i)
                  (near_below _ _ Br Bi)) as (E2 & _). now rewrite E2.
  - pose proof (B (2 * i + 1) ltac:(lia)) as Bl.
    destruct (compare_h_sign A (P (2 * i + 1)) (P i) (near_below _ _ Bl Bi))
      as (E1 & _). now rewrite E1.
Qed.

Lemma heapify_rearranged (fuel : nat) :
  forall (P : array) (i : Z),
  cells_below P n bound -> 0 <= i < n ->
  rearranged P (heap.heapify fuel A P n i) n.
Proof.
  induction fuel as [|fuel IH]; intros P i B Hi; [apply rearranged_refl|].
  cbn [heap.heapify]. cbv zeta.
  destruct (smallest_spec A n bound bound_int P i B Hi)
    as [[E _] | (Hc & Hmn & _)].
  - rewrite E, Z.eqb_refl. apply rearranged_refl.
  - set (m := heap.smallest A P n i) in *.
    assert (Hm : i < m) by (unfold child in Hc; lia).
    destruct (Z.eqb_spec m i); [lia|].
    assert (R : rearranged P (heap.swap P i m) n)
      by (apply rearranged_swap; lia).
    apply (rearranged_trans n P (heap.swap P i m)); [exact R|].
    apply IH; [|lia]. now apply (cells_below_rearranged n bound P).
Qed.

Lemma heapify_agrees (fuel : nat) :
  forall (P : array) (i : Z),
  cells_below P n bound -> 0 <= i < n ->
  ANT_heap.heapify fuel A P n i = heap.heapify fuel A P n i.
Proof.
  induction fuel as [|fuel IH]; intros P i B Hi; [reflexivity|].
  cbn [ANT_heap.heapify heap.heapify]. cbv zeta.
  rewrite smallest_agrees by assumption.
  destruct (smallest_spec A n bound bound_int P i B Hi)
    as [[E _] | (Hc & Hmn & _)].
  - now rewrite E, Z.eqb_refl.
  - set (m := heap.smallest A P n i) in *.
    assert (Hm : i < m) by (unfold child in Hc; lia).
    destruct (Z.eqb_spec m i); [lia|].
    apply IH; [|lia].
    apply (cells_below_rearranged n bound P); [|exact B].
    apply rearranged_swap; lia.
Qed.

Lemma sift_down_agrees (P : array) (i : Z) :
  cells_below P n bound -> 0 <= i < n ->
  ANT_heap.sift_down A P n i = heap.sift_down A P n i.
Proof. intros B Hi. now apply heapify_agrees. Qed.

Lemma build_from_agrees (k : nat) :
  forall P : array,
  Z.of_nat k <= n -> cells_below P n bound ->
  ANT_heap.build_from k A P n = heap.make_heap_from k A P n.
Proof.
  induction k as [|k IH]; intros P Hk B; [reflexivity|].
  cbn [ANT_heap.build_from heap.make_heap_from].
  rewrite sift_down_agrees by (assumption || lia).
  apply IH; [lia|].
  apply (cells_below_rearranged n bound P); [|exact B].
  apply heapify_rearranged; [exact B | lia].
Qed.

Lemma build_min_heap_agrees (P : array) :
  0 <= n -> cells_below P n bound ->
  ANT_heap.build_min_heap A P n = heap.make_heap A P n.
Proof.
  intros Hn B. unfold ANT_heap.build_min_heap, heap.make_heap.
  apply build_from_agrees; [|exact B].
  rewrite Z2Nat.id by (apply Z.div_pos; lia).
  pose proof (Z.div_mod n 2 ltac:(lia)).
  pose proof (Z.mod_pos_bound n 2 ltac:(lia)). lia.
Qed.

Lemma min_update_agrees (P : array) (x : Z) :
  cells_below P n bound ->
  ANT_heap.min_update A P n x = heap.promote A P n x.
Proof.
  intros B. unfold ANT_heap.min_update, heap.promote.
  destruct (heap.find (Z.to_nat n) P 0 x) as [j|] eqn:Ej; [|reflexivity].
  apply find_some in Ej. apply sift_down_agrees; [exact B | lia].
Qed.

Lemma min_insert_agrees (P : array) (x : Z) :
  0 < n -> cells_below (store P 0 x) n bound ->
  ANT_heap.min_insert A P n x = heap.push_back A P n x.
Proof.
  intros Hn B. unfold ANT_heap.min_insert, heap.push_back.
  apply sift_down_agrees; [exact B | lia].
Qed.

End PredecessorHeap.

(** ** One call against a pointer list with a heap of its own size *)

Lemma sized_list_ok_intro (documents : Z) (T P : array) (L K : Z) :
  0 < K -> 0 <= L <= K ->
  (forall x, tracked P L x -> 0 <= x < documents) ->
  (forall x, tracked P L x -> 0 < T x) ->
  distinct P L ->
  (L < K -> forall d, 0 <= d < documents -> 0 < T d -> tracked P L d) ->
  (L = K -> heap_ok T P K 0) ->
  (L = K -> forall d x, 0 <= d < documents -> 0 < T d ->
     ~ tracked P L d -> tracked P L x -> cell_lt T d x) ->
  list_ok_sized documents T P L K.
Proof.
  intros H1 H2 H3 H4 H5 H6 H7 H8. unfold list_ok_sized.
  split; [exact H1|]. split; [exact H2|].
  split; [intros x Hx; split; [now apply H3 | now apply H4]|].
  split; [exact H5|]. split; [exact H6|]. split; [exact H7 | exact H8].
Qed.

Section StepSized.

Variable documents : Z.
Variables T T' : array.
Variables d s : Z.
Hypothesis Hd : 0 <= d < documents.
Hypothesis Hs : 0 < s.
Hypothesis HT' : forall x, T' x = T x + (if d =? x then s else 0).
Hypothesis Hnonneg : forall x, 0 <= T x.

Lemma sized_T'_here : T' d = T d + s.
Proof. rewrite HT', Z.eqb_refl. reflexivity. Qed.

Lemma sized_T'_elsewhere (x : Z) : x <> d -> T' x = T x.
Proof. intros N. rewrite HT'. destruct (Z.eqb_spec d x); lia. Qed.

Lemma sized_T'_grows (x : Z) : T x <= T' x.
Proof. rewrite HT'. destruct (d =? x); lia. Qed.

Lemma sized_T'_positive (x : Z) : 0 < T' x -> x = d \/ 0 < T x.
Proof. rewrite HT'. destruct (Z.eqb_spec d x); [left; lia | right; lia]. Qed.

(** The list is not full and the document is already in it. *)
Lemma sized_step_accumulate (P : array) (L K : Z) :
  list_ok_sized documents T P L K -> L < K -> T d <> 0 ->
  list_ok_sized documents T' P L K.
Proof.
  intros (HK & HL & Htr & Hdis & Hfill & _ & _) Hlt Hold.
  apply sized_list_ok_intro; try assumption; try lia.
  - intros x H. now apply Htr.
  - intros x H. pose proof (sized_T'_grows x). apply Htr in H. lia.
  - intros _ x Hx Hpos. destruct (sized_T'_positive x Hpos) as [-> | Hp].
    + apply Hfill; try assumption. pose proof (Hnonneg d). lia.
    + now apply Hfill.
Qed.

(** The list is not full and the document is new. *)
Lemma sized_step_append (P : array) (L K : Z) :
  list_ok_sized documents T P L K -> L < K -> T d = 0 -> L + 1 < K ->
  list_ok_sized documents T' (store P L d) (L + 1) K.
Proof.
  intros (HK & HL & Htr & Hdis & Hfill & _ & _) Hlt Hold Hnext.
  assert (Nd : ~ tracked P L d) by (intros H; apply Htr in H; lia).
  apply sized_list_ok_intro; try assumption; try lia.
  - intros x H. apply tracked_append in H; [|lia].
    destruct H as [H | ->]; [|lia]. now apply Htr.
  - intros x H. apply tracked_append in H; [|lia]. destruct H as [H | ->].
    + pose proof (sized_T'_grows x). apply Htr in H. lia.
    + rewrite sized_T'_here. lia.
  - apply distinct_append; [lia | assumption | assumption].
  - intros _ x Hx Hpos. apply tracked_append; [lia|].
    destruct (sized_T'_positive x Hpos) as [-> | Hp]; [now right | left].
    now apply Hfill.
Qed.

(** The new document fills the list, and the heap is built. *)
Lemma sized_step_fill (P P3 : array) (L K : Z) :
  list_ok_sized documents T P L K -> L < K -> T d = 0 -> L + 1 = K ->
  heap_ok T' P3 K 0 -> rearranged (store P L d) P3 K ->
  list_ok_sized documents T' P3 K K.
Proof.
  intros (HK & HL & Htr & Hdis & Hfill & _ & _) Hlt Hold Hnext Hheap
    (_ & Hset & Hdis3).
  assert (Nd : ~ tracked P L d) by (intros H; apply Htr in H; lia).
  assert (Tr : forall x, tracked P3 K x <-> tracked P L x \/ x = d).
  { intros x. rewrite <- Hset, <- Hnext. apply tracked_append. lia. }
  apply sized_list_ok_intro; try assumption; try lia.
  - intros x H. apply Tr in H. destruct H as [H | ->]; [|lia].
    now apply Htr.
  - intros x H. apply Tr in H. destruct H as [H | ->].
    + pose proof (sized_T'_grows x). apply Htr in H. lia.
    + rewrite sized_T'_here. lia.
  - apply Hdis3. rewrite <- Hnext.
    apply distinct_append; [lia | assumption | assumption].
  - intros _. exact Hheap.
  - intros _ x y Hx Hpos Nx _. exfalso. apply Nx, Tr.
    destruct (sized_T'_positive x Hpos) as [-> | Hp]; [now right | left].
    now apply Hfill.
Qed.

(** From here on the list is full. *)

Lemma sized_full_root_tracked (P : array) (K : Z) :
  list_ok_sized documents T P K K -> tracked P K (P 0).
Proof.
  intros (HK & _). exists 0. split; [lia | reflexivity].
Qed.

Lemma sized_full_root_minimal (P : array) (K x : Z) :
  list_ok_sized documents T P K K -> tracked P K x -> cell_le T (P 0) x.
Proof.
  intros (HK & HL & Htr & Hdis & _ & Hheap & _) (i & Hi & <-).
  apply (root_minimal T K); [now apply Hheap | assumption].
Qed.

Lemma sized_full_untracked (P : array) (K : Z) :
  list_ok_sized documents T P K K -> cell_lt T d (P 0) -> ~ tracked P K d.
Proof.
  intros Ok Hlt Tr. pose proof (sized_full_root_minimal P K d Ok Tr). order.
Qed.

Lemma sized_full_tracked (P : array) (K : Z) :
  list_ok_sized documents T P K K -> cell_le T (P 0) d -> tracked P K d.
Proof.
  intros Ok Hle.
  destruct (sized_full_root_tracked P K Ok) as (i0 & Hi0 & E0).
  destruct Ok as (HK & HL & Htr & Hdis & _ & Hheap & Hbelow).
  assert (R : 0 < T (P 0)) by (apply Htr; now exists i0).
  destruct (tracked_dec K P d ltac:(lia)) as [Tr | N]; [exact Tr | exfalso].
  assert (cell_lt T d (P 0)).
  { apply Hbelow; try assumption; try reflexivity; [order | now exists i0]. }
  order.
Qed.

(** The document is not in the full list and stays below the root. *)
Lemma sized_step_skip (P : array) (K : Z) :
  list_ok_sized documents T P K K -> cell_lt T d (P 0) -> cell_le T' d (P 0) ->
  list_ok_sized documents T' P K K.
Proof.
  intros Ok Hlt Hle.
  pose proof (sized_full_untracked P K Ok Hlt) as Nd.
  pose proof (sized_full_root_tracked P K Ok) as R.
  destruct Ok as (HK & HL & Htr & Hdis & _ & Hheap & Hbelow).
  assert (Same : forall x, tracked P K x -> T' x = T x).
  { intros x Hx. apply sized_T'_elsewhere. intros ->. contradiction. }
  assert (Hheap' : heap_ok T' P K 0).
  { apply (heap_ok_ext T); [|now apply Hheap].
    intros i Hi. apply Same. now exists i. }
  apply sized_list_ok_intro; try assumption; try lia.
  - intros x H. now apply Htr.
  - intros x H. pose proof (sized_T'_grows x). apply Htr in H. lia.
  - intros _. exact Hheap'.
  - intros _ x y Hx Hpos Nx Hy.
    destruct (Z.eq_dec x d) as [-> | N].
    + destruct Hy as (i & Hi & <-).
      pose proof (root_minimal T' K P Hheap' i Hi) as M.
      assert (d <> P i) by (intros E; apply Nd; exists i; now split).
      order.
    + destruct (sized_T'_positive x Hpos) as [-> | Hp]; [contradiction|].
      pose proof (Hbelow eq_refl x y Hx Hp Nx Hy) as B.
      pose proof (Same y Hy). pose proof (sized_T'_elsewhere x N). order.
Qed.

(** The document is in the full list: its entry becomes a hole for
    [promote], and any heap over the same pointers satisfies the
    invariant again. *)
Lemma sized_step_promote_hole (P : array) (K i : Z) :
  list_ok_sized documents T P K K -> 0 <= i < K -> P i = d ->
  heap_hole T' P K 0 i.
Proof.
  intros (HK & HL & Htr & Hdis & _ & Hheap & _) Hi E.
  specialize (Hheap eq_refl).
  assert (Other : forall j, 0 <= j < K -> j <> i -> T' (P j) = T (P j)).
  { intros j Hj N. apply sized_T'_elsewhere. intros E'. apply N.
    apply Hdis; [assumption | assumption | congruence]. }
  pose proof sized_T'_here as Here. split.
  - intros j c Hj N Hc Hcn. pose proof Hc as Hc'. unfold child in Hc'.
    pose proof (Hheap j c Hj Hc Hcn) as Le.
    pose proof (Other j ltac:(lia) N) as Ej.
    destruct (Z.eq_dec c i) as [-> | Nc].
    + rewrite E in *. order.
    + pose proof (Other c ltac:(lia) Nc). order.
  - intros p c Hp Hip Hc Hcn. pose proof Hc as Hc'. unfold child in Hc'.
    pose proof Hip as Hip'. unfold child in Hip'.
    pose proof (Hheap p i Hp Hip ltac:(lia)) as Le1.
    pose proof (Hheap i c ltac:(lia) Hc Hcn) as Le2.
    pose proof (Other p ltac:(lia) ltac:(lia)).
    pose proof (Other c ltac:(lia) ltac:(lia)). order.
Qed.

Lemma sized_step_promote (P P3 : array) (K : Z) :
  list_ok_sized documents T P K K -> tracked P K d ->
  heap_ok T' P3 K 0 -> rearranged P P3 K ->
  list_ok_sized documents T' P3 K K.
Proof.
  intros (HK & HL & Htr & Hdis & _ & _ & Hbelow) Trd Hheap3
    (_ & Hset & Hdis3).
  pose proof sized_T'_here as Here.
  apply sized_list_ok_intro; try assumption; try lia.
  - intros x H. apply Hset in H. now apply Htr.
  - intros x H. apply Hset in H. pose proof (sized_T'_grows x).
    apply Htr in H. lia.
  - now apply Hdis3.
  - intros _. exact Hheap3.
  - intros _ x y Hx Hpos Nx Hy.
    assert (Nx' : ~ tracked P K x) by (intros H; apply Nx, Hset, H).
    assert (N : x <> d) by (intros ->; contradiction).
    destruct (sized_T'_positive x Hpos) as [-> | Hp]; [contradiction|].
    apply Hset in Hy.
    pose proof (Hbelow eq_refl x y Hx Hp Nx' Hy) as B.
    pose proof (sized_T'_elsewhere x N).
    destruct (Z.eq_dec y d) as [-> | Ny]; [order|].
    pose proof (sized_T'_elsewhere y Ny). order.
Qed.

(** The document replaces the root of the full list. *)

Lemma sized_tracked_replace_root (P : array) (K x : Z) :
  0 < K ->
  (tracked (store P 0 d) K x <->
   x = d \/ exists i, 0 < i < K /\ P i = x).
Proof.
  intros HK. unfold tracked, store. split.
  - intros (i & Hi & E). destruct (Z.eqb_spec i 0).
    + left. congruence.
    + right. exists i. split; [lia | exact E].
  - intros [-> | (i & Hi & E)].
    + exists 0. split; [lia | reflexivity].
    + exists i. split; [lia|]. destruct (Z.eqb_spec i 0); [lia | exact E].
Qed.

Lemma sized_step_push_hole (P : array) (K : Z) :
  list_ok_sized documents T P K K -> ~ tracked P K d ->
  heap_hole T' (store P 0 d) K 0 0.
Proof.
  intros (HK & HL & Htr & Hdis & _ & Hheap & _) Nd.
  specialize (Hheap eq_refl).
  assert (Same : forall j, 0 <= j < K -> T' (P j) = T (P j)).
  { intros j Hj. apply sized_T'_elsewhere. intros E. apply Nd. now exists j. }
  split.
  - intros i c Hi N Hc Hcn. pose proof Hc as Hc'. unfold child in Hc'.
    unfold store.
    destruct (Z.eqb_spec i 0); [lia|]. destruct (Z.eqb_spec c 0); [lia|].
    apply (cell_le_ext T); [apply Same; lia | apply Same; lia |].
    now apply Hheap.
  - intros p c Hp H0p. unfold child in H0p. lia.
Qed.

Lemma sized_step_push (P P3 : array) (K : Z) :
  list_ok_sized documents T P K K ->
  cell_lt T d (P 0) -> cell_lt T' (P 0) d ->
  heap_ok T' P3 K 0 -> rearranged (store P 0 d) P3 K ->
  list_ok_sized documents T' P3 K K.
Proof.
  intros Ok Hlt Hgt Hheap3 (_ & Hset & Hdis3).
  pose proof (sized_full_untracked P K Ok Hlt) as Nd.
  pose proof (sized_full_root_tracked P K Ok) as R.
  pose proof (sized_full_root_minimal P K) as Min. specialize (fun x => Min x Ok).
  destruct Ok as (HK & HL & Htr & Hdis & _ & _ & Hbelow).
  assert (K0 : 0 < K) by lia.
  assert (Same : forall x, tracked P K x -> T' x = T x).
  { intros x Hx. apply sized_T'_elsewhere. intros ->. contradiction. }
  assert (Tr : forall x, tracked P3 K x <->
                 x = d \/ exists i, 0 < i < K /\ P i = x).
  { intros x. rewrite <- Hset. now apply sized_tracked_replace_root. }
  assert (Old : forall x, (exists i, 0 < i < K /\ P i = x) -> tracked P K x).
  { intros x (i & Hi & E). exists i. split; [lia | exact E]. }
  pose proof sized_T'_here as Here.
  apply sized_list_ok_intro; try assumption; try lia.
  - intros x H. apply Tr in H. destruct H as [-> | H]; [lia|].
    now apply Htr, Old.
  - intros x H. apply Tr in H. destruct H as [-> | H].
    + pose proof (Hnonneg d). lia.
    + pose proof (sized_T'_grows x). apply Old, Htr in H. lia.
  - apply Hdis3. intros i j Hi Hj. unfold store.
    destruct (Z.eqb_spec i 0); destruct (Z.eqb_spec j 0); intros E.
    + lia.
    + exfalso. apply Nd. exists j. split; [lia | congruence].
    + exfalso. apply Nd. exists i. split; [lia | congruence].
    + apply Hdis; [lia | lia | exact E].
  - intros _. exact Hheap3.
  - intros _ x y Hx Hpos Nx Hy.
    assert (N : x <> d) by (intros ->; apply Nx, Tr; now left).
    destruct (sized_T'_positive x Hpos) as [-> | Hp]; [contradiction|].
    pose proof (sized_T'_elsewhere x N) as Ex.
    pose proof (Same (P 0) R) as Er.
    apply Tr in Hy.
    destruct (Z.eq_dec x (P 0)) as [-> | Nr].
    + destruct Hy as [-> | (i & Hi & <-)]; [exact Hgt|].
      assert (Ti : tracked P K (P i)) by (exists i; split; [lia | reflexivity]).
      pose proof (Min (P i) Ti) as M. pose proof (Same (P i) Ti).
      assert (P 0 <> P i).
      { intros E. apply Hdis in E; lia. }
      order.
    + assert (Nx' : ~ tracked P K x).
      { intros (i & Hi & E). destruct (Z.eq_dec i 0) as [-> | Ni].
        - congruence.
        - apply Nx, Tr. right. exists i. split; [lia | exact E]. }
      pose proof (Hbelow eq_refl x (P 0) Hx Hp Nx' R) as B0.
      destruct Hy as [-> | Hy]; [order|].
      apply Old in Hy.
      pose proof (Hbelow eq_refl x y Hx Hp Nx' Hy) as B.
      pose proof (Same y Hy). order.
Qed.

End StepSized.

(** ** One call of the predecessor's [add_rsv] *)

Section MaintainPredecessor.

Variable documents : Z.
Variable calls : list call.
Variable e : engine.
Variables d s : Z.
Hypothesis Hdoc : documents <= 2 ^ 31.
Hypothesis Hinv : invariant_sized documents calls e.
Hypothesis Htop : top_k e < 2 ^ 64.
Hypothesis Hd : 0 <= d < documents.
Hypothesis Hdirty : clean_flags e (strip_of e d) <> 0.
Hypothesis Hs : 0 < s.
Hypothesis Hfit : total calls d + s < 2 ^ 16.

Let T : array := total calls.
Let T' : array := total (calls ++ [(d, s)]).
Let A : array := accumulators e.
Let A2 : array := accumulators (add_score e d s).
Let P : array := accumulator_pointers e.
Let L : Z := results_list_length e.
Let K : Z := top_k e.

Lemma h_step_totals : forall x, T' x = T x + (if d =? x then s else 0).
Proof. intros x. apply total_app. Qed.

Lemma h_step_nonneg : forall x, 0 <= T x.
Proof. destruct Hinv as ((_ & N & _) & _). exact N. Qed.

Lemma h_step_list : list_ok_sized documents T P L K.
Proof. destruct Hinv as (_ & H). exact H. Qed.

Lemma h_step_memory : memory_ok documents (calls ++ [(d, s)]) (add_score e d s).
Proof.
  destruct Hinv as (M & _). now apply memory_ok_add_score.
Qed.

(** Before the addition the cell of the document and the tracked cells
    hold their totals. *)
Lemma h_before_here : A d = T d.
Proof. destruct Hinv as ((_ & _ & _ & D) & _). now apply D. Qed.

Lemma h_before_tracked (x : Z) : tracked P L x -> A x = T x.
Proof.
  intros H. destruct Hinv as ((_ & _ & C & D) & (_ & _ & Htr & _)).
  apply Htr in H. destruct H as [Hx Hpos]. apply D; [assumption|].
  intros Hc. apply C in Hc; [|assumption]. unfold T in *. lia.
Qed.

(** After the addition they hold the new totals. *)
Lemma h_after_here : A2 d = T' d.
Proof.
  destruct h_step_memory as (_ & _ & _ & D). apply D; assumption.
Qed.

Lemma h_after_tracked (x : Z) : tracked P L x -> A2 x = T' x.
Proof.
  intros H. destruct h_step_memory as (_ & _ & _ & D).
  destruct Hinv as ((_ & _ & C & _) & (_ & _ & Htr & _)).
  apply Htr in H. destruct H as [Hx Hpos]. apply D; [assumption|].
  intros Hc. apply C in Hc; [|assumption]. unfold T in *. lia.
Qed.

Lemma h_tracked_cell (x : Z) : tracked P L x -> 0 <= x < documents.
Proof.
  intros H. destruct Hinv as (_ & (_ & _ & Htr & _)). now apply Htr.
Qed.

Lemma h_cells_below_list : cells_below P L documents.
Proof. intros i Hi. apply h_tracked_cell. now exists i. Qed.

Lemma h_finish (e' : engine) :
  same_memory (add_score e d s) e' ->
  list_ok_sized documents T' (accumulator_pointers e') (results_list_length e')
    (top_k e') ->
  invariant_sized documents (calls ++ [(d, s)]) e'.
Proof.
  intros Same Ok. split; [|exact Ok].
  apply (memory_ok_same _ _ (add_score e d s)); [exact Same|].
  exact h_step_memory.
Qed.

Lemma h_K_is_heap_size : 0 < K.
Proof. destruct h_step_list as (H & _). exact H. Qed.

Lemma h_L_range : 0 <= L <= K.
Proof. destruct h_step_list as (_ & H & _). exact H. Qed.

Lemma h_after_relevant (Q : array) (n : Z) :
  (forall x, tracked Q n x -> x = d \/ tracked P L x) ->
  forall i, 0 <= i < n -> T' (Q i) = A2 (Q i).
Proof.
  intros H i Hi. destruct (H (Q i)) as [-> | Tr]; [now exists i | |].
  - symmetry. exact h_after_here.
  - symmetry. now apply h_after_tracked.
Qed.

Lemma h_cells_below_relevant (Q : array) (n : Z) :
  (forall x, tracked Q n x -> x = d \/ tracked P L x) ->
  cells_below Q n documents.
Proof.
  intros H i Hi. destruct (H (Q i)) as [-> | Tr]; [now exists i | |].
  - exact Hd.
  - now apply h_tracked_cell.
Qed.

Lemma h_maintain_invariant :
  invariant_sized documents (calls ++ [(d, s)]) (predecessor.maintain_heap e d s).
Proof.
  pose proof h_step_list as Ok. pose proof h_K_is_heap_size as HK.
  pose proof h_L_range as HL. pose proof h_before_here as Bd.
  pose proof h_after_here as Ad.
  pose proof h_step_totals as Tot. pose proof h_step_nonneg as Nn.
  assert (HK64 : K < 2 ^ 64) by exact Htop.
  unfold predecessor.maintain_heap. fold L K A P.
  destruct (Z.ltb_spec L K) as [Hlt | Hge].
  - destruct (Z.eqb_spec (A d) 0) as [Hz | Hnz].
    + cbn [results_list_length top_k with_results_list_length
           with_accumulator_pointers add_score with_accumulators].
      fold L K. rewrite to_size_t_small by lia.
      assert (Rel : forall x, tracked (store P L d) (L + 1) x ->
                      x = d \/ tracked P L x).
      { intros x H. apply tracked_append in H; [tauto | lia]. }
      destruct (Z.eqb_spec (L + 1) K) as [Hfull | Hnot].
      * apply h_finish; [repeat split; reflexivity|]. simpl. fold A2 P L K.
        rewrite Hfull in *.
        rewrite (build_min_heap_agrees A2 K documents Hdoc)
          by (lia || now apply h_cells_below_relevant).
        destruct (make_heap_correct A2 K documents Hdoc (store P L d))
          as [Hheap R]; [lia | |].
        { now apply h_cells_below_relevant. }
        apply (sized_step_fill documents T T' d s Hd Hs Tot P _ L K);
          try assumption; try lia.
        apply (heap_ok_ext A2); [|exact Hheap].
        apply h_after_relevant. intros x H. apply Rel.
        destruct R as (_ & Hset & _). now apply Hset.
      * apply h_finish; [repeat split; reflexivity|]. simpl. fold P L K.
        apply (sized_step_append documents T T' d s Hd Hs Tot); try assumption; lia.
    + change (results_list_length (add_score e d s)) with L.
      change (top_k (add_score e d s)) with K.
      destruct (Z.eqb_spec L K); [lia|].
      apply h_finish; [repeat split; reflexivity|]. simpl. fold P L K.
      apply (sized_step_accumulate documents T T' d s Hs Tot Nn);
        try assumption; lia.
  - assert (HLK : L = K) by lia. rewrite HLK in Ok.
    pose proof (sized_full_root_tracked documents T P K Ok) as Root.
    rewrite <- HLK in Root.
    pose proof (h_tracked_cell _ Root) as Hroot.
    pose proof (h_before_tracked _ Root) as Broot.
    pose proof (h_after_tracked _ Root) as Aroot.
    pose proof (near_cells documents d (P 0) Hdoc Hd Hroot) as Near.
    destruct (compare_h_sign A d (P 0) Near) as (_ & Ege & _). rewrite Ege.
    rewrite Z.geb_leb.
    destruct (Z.leb_spec 0 (cmp A d (P 0))) as [Hin | Hout].
    + apply cmp_nonnegative in Hin; [|exact Near].
      assert (Hin' : cell_le T (P 0) d)
        by (apply (cell_le_ext A); [now symmetry | now symmetry | exact Hin]).
      pose proof (sized_full_tracked documents T d Hd P K Ok Hin') as Trd.
      apply h_finish; [repeat split; reflexivity|]. simpl. fold A2 P L K.
      rewrite HLK.
      assert (Rel : forall x, tracked P K x -> x = d \/ tracked P L x)
        by (intros x H; right; now rewrite HLK).
      rewrite (min_update_agrees A2 K documents Hdoc)
        by (rewrite <- HLK; exact h_cells_below_list).
      destruct (promote_correct A2 K documents Hdoc P d) as [Hheap R];
        try lia; try assumption.
      { rewrite <- HLK. exact h_cells_below_list. }
      { intros i Hi E. apply (heap_hole_ext T').
        - intros j Hj. symmetry. now apply (h_after_relevant P K).
        - now apply (sized_step_promote_hole documents T T' d s Hs Tot). }
      apply (sized_step_promote documents T T' d s Hs Tot P); try assumption.
      apply (heap_ok_ext A2); [|exact Hheap].
      apply h_after_relevant. intros x H. apply Rel.
      destruct R as (_ & Hset & _). now apply Hset.
    + apply cmp_negative in Hout; [|exact Near].
      assert (Hout' : cell_lt T d (P 0))
        by (apply (cell_lt_ext A); [now symmetry | now symmetry | exact Hout]).
      change (accumulator_pointers (add_score e d s) 0) with (P 0).
      fold A2.
      destruct (compare_h_sign A2 d (P 0) Near) as (_ & _ & Egt). rewrite Egt.
      rewrite Z.gtb_ltb.
      destruct (Z.ltb_spec 0 (cmp A2 d (P 0))) as [Hup | Hlow].
      * apply cmp_positive in Hup; [|exact Near].
        assert (Hup' : cell_lt T' (P 0) d)
          by (apply (cell_lt_ext A2); [now symmetry | now symmetry | exact Hup]).
        pose proof (sized_full_untracked documents T d P K Ok Hout') as Nd.
        apply h_finish; [repeat split; reflexivity|]. simpl. fold A2 P L K.
        rewrite HLK.
        assert (Rel : forall x, tracked (store P 0 d) K x ->
                        x = d \/ tracked P L x).
        { intros x H. apply tracked_replace_root in H; [|lia].
          destruct H as [-> | (i & Hi & E)]; [now left | right].
          exists i. split; [lia | exact E]. }
        rewrite (min_insert_agrees A2 K documents Hdoc)
          by (lia || now apply h_cells_below_relevant).
        destruct (push_back_correct A2 K documents Hdoc P d) as [Hheap R];
          try lia.
        { now apply h_cells_below_relevant. }
        { apply (heap_hole_ext T').
          - intros j Hj. symmetry. now apply (h_after_relevant _ K).
          - now apply (sized_step_push_hole documents T T' d s Hd Hs Tot). }
        apply (sized_step_push documents T T' d s Hd Hs Tot Nn P); try assumption.
        apply (heap_ok_ext A2); [|exact Hheap].
        apply h_after_relevant. intros x H. apply Rel.
        destruct R as (_ & Hset & _). now apply Hset.
      * assert (Hlow' : cell_le T' d (P 0)).
        { apply (cell_le_ext A2); [now symmetry | now symmetry |].
          apply cmp_nonnegative.
          - pose proof (near_cells documents (P 0) d Hdoc Hroot Hd). lia.
          - destruct (cell_le_or_lt A2 d (P 0)) as [H | H]; [|exfalso].
            + apply cmp_nonnegative; [|exact H].
              pose proof (near_cells documents (P 0) d Hdoc Hroot Hd). lia.
            + apply cmp_positive in H; [lia | exact Near]. }
        apply h_finish; [repeat split; reflexivity|]. simpl. fold P L K.
        rewrite HLK.
        apply (sized_step_skip documents T T' d s Hd Hs Tot P K); assumption.
Qed.

End MaintainPredecessor.

(** ** The predecessor's sorted list against the reference *)

Section PredecessorRanking.

Variable documents : Z.
Variable calls : list call.
Variable e : engine.
Hypothesis Hdoc : documents <= 2 ^ 31.
Hypothesis Hinv : invariant_sized documents calls e.

Let T : array := total calls.
Let A : array := accumulators e.
Let P : array := accumulator_pointers e.
Let L : Z := results_list_length e.
Let K : Z := top_k e.
Let l : list Z := map P (range L).
Let cells : list Z := top_k_sort (List.length l) A l K.

Lemma h_in_l (c : Z) : In c l <-> tracked P L c.
Proof.
  unfold l, tracked. rewrite in_map_iff. split.
  - intros (i & E & Hi). apply in_range in Hi. now exists i.
  - intros (i & Hi & E). exists i. split; [exact E | now apply in_range].
Qed.

Lemma h_l_NoDup : NoDup l.
Proof.
  destruct Hinv as (_ & (_ & _ & _ & D & _)).
  unfold l. apply NoDup_map_NoDup_ForallPairs; [|apply range_NoDup].
  intros a b Ha Hb E. apply in_range in Ha, Hb. now apply D.
Qed.

Lemma h_l_length : Z.of_nat (List.length l) = L.
Proof.
  destruct Hinv as (_ & (_ & HL & _)).
  unfold l. rewrite length_map, range_length. fold L in HL. lia.
Qed.

Lemma h_tracked_facts (c : Z) :
  tracked P L c -> 0 <= c < documents /\ 0 < T c /\ A c = T c.
Proof.
  intros H. destruct Hinv as ((_ & _ & C & D) & (_ & _ & Htr & _)).
  apply Htr in H. destruct H as [Hc Hpos]. split; [exact Hc|].
  split; [exact Hpos|]. apply D; [exact Hc|].
  intros Z0. apply C in Z0; [|exact Hc]. lia.
Qed.

Lemma h_cells_sorted :
  Permutation cells l /\ StronglySorted (cell_ge A) cells.
Proof.
  destruct Hinv as (_ & (_ & HL & _)). fold L K in HL.
  apply (top_k_sort_correct A documents Hdoc).
  - lia.
  - rewrite h_l_length. lia.
  - apply Forall_forall. intros c Hc. apply h_in_l in Hc.
    now apply h_tracked_facts.
Qed.

Lemma h_in_cells (c : Z) : In c cells <-> tracked P L c.
Proof.
  destruct h_cells_sorted as [Perm _]. rewrite <- h_in_l. split.
  - apply (Permutation_in _ Perm).
  - apply (Permutation_in _ (Permutation_sym Perm)).
Qed.

Lemma h_cells_length : Z.of_nat (List.length cells) = L.
Proof.
  destruct h_cells_sorted as [Perm _].
  rewrite (Permutation_length Perm). apply h_l_length.
Qed.

Lemma h_results_shape :
  predecessor.ranking e = map (fun c => (c, T c)) cells.
Proof.
  unfold predecessor.ranking, predecessor.sort. simpl. fold A P L K.
  unfold top_k_qsort. fold l. fold cells.
  rewrite <- (map_map (load P 0 cells) (fun c => (c, A c))).
  rewrite <- h_cells_length, load_range.
  apply map_ext_in. intros c Hc. apply h_in_cells, h_tracked_facts in Hc.
  destruct Hc as (_ & _ & ->). reflexivity.
Qed.

Let O : list (Z * Z) := map (fun c => (c, T c)) cells.
Let F : list (Z * Z) := sort_desc (scored documents calls).
Let R : list (Z * Z) :=
  filter (fun p => negb (existsb (Z.eqb (fst p)) cells)) F.

Lemma h_in_O (p : Z * Z) :
  In p O <-> tracked P L (fst p) /\ snd p = T (fst p).
Proof.
  unfold O. rewrite in_map_iff. split.
  - intros (c & <- & Hc). simpl. split; [now apply h_in_cells | reflexivity].
  - intros [Hc E]. exists (fst p). split; [|now apply h_in_cells].
    destruct p; simpl in *. now rewrite E.
Qed.

Lemma h_in_F (p : Z * Z) :
  In p F <-> 0 <= fst p < documents /\ 0 < snd p /\ snd p = T (fst p).
Proof.
  unfold F, T. rewrite <- in_scored. split.
  - apply (Permutation_in _ (sort_desc_perm _)).
  - apply (Permutation_in _ (Permutation_sym (sort_desc_perm _))).
Qed.

Lemma h_in_R (p : Z * Z) :
  In p R <-> In p F /\ ~ tracked P L (fst p).
Proof.
  unfold R. rewrite filter_In, negb_true_iff, <- not_true_iff_false.
  rewrite existsb_exists. split; intros [HF N]; (split; [exact HF|]).
  - intros Tr. apply N. exists (fst p). split; [now apply h_in_cells|].
    apply Z.eqb_refl.
  - intros (c & Hc & E). apply Z.eqb_eq in E. rewrite E in N.
    apply N. now apply h_in_cells.
Qed.

Lemma h_O_sorted : StronglySorted pair_ge O.
Proof.
  destruct h_cells_sorted as [_ S].
  assert (In_cells : forall c, In c cells -> A c = T c).
  { intros c Hc. apply h_in_cells, h_tracked_facts in Hc. tauto. }
  unfold O. induction S as [|c rest S IH Hc]; simpl; [constructor|].
  constructor.
  - apply IH. intros x Hx. apply In_cells. now right.
  - rewrite Forall_forall in *. intros p Hp. apply in_map_iff in Hp.
    destruct Hp as (y & <- & Hy). apply pair_ge_iff. simpl.
    pose proof (Hc y Hy) as G. unfold cell_ge, cell_le in G.
    rewrite (In_cells c), (In_cells y) in G; [lia | now right | now left].
Qed.

Lemma h_O_NoDup : NoDup O.
Proof.
  destruct h_cells_sorted as [Perm _].
  unfold O. apply Finite.Injective_map_NoDup.
  - intros a b E. now inversion E.
  - apply (Permutation_NoDup (Permutation_sym Perm)), h_l_NoDup.
Qed.

Lemma h_O_above_R (x y : Z * Z) : In x O -> In y R -> pair_ge x y.
Proof.
  intros Hx Hy. apply h_in_O in Hx. apply h_in_R in Hy.
  destruct Hx as [Tx Ex]. destruct Hy as [Hy Ny]. apply h_in_F in Hy.
  destruct Hy as (Vy & Py & Ey).
  destruct Hinv as (_ & (_ & HL & _ & _ & Hfill & _ & Hbelow)).
  fold T P L K in HL, Hfill, Hbelow.
  destruct (Z.eq_dec L K) as [Full | Not].
  - assert (B : cell_lt T (fst y) (fst x)).
    { apply Hbelow; try assumption. lia. }
    apply pair_ge_iff. unfold cell_lt in B. lia.
  - exfalso. apply Ny, Hfill; [lia | assumption | lia].
Qed.

Lemma h_F_splits : O ++ R = F.
Proof.
  apply (sorted_unique pair_ge pair_ge_antisym).
  - apply StronglySorted_app.
    + exact h_O_sorted.
    + apply StronglySorted_filter, sort_desc_sorted.
    + exact h_O_above_R.
  - apply sort_desc_sorted.
  - apply NoDup_Permutation.
    + apply NoDup_app; [exact h_O_NoDup | |].
      * apply NoDup_filter.
        apply (Permutation_NoDup (Permutation_sym (sort_desc_perm _))).
        apply scored_NoDup.
      * intros x Hx Hr. apply h_in_O in Hx. apply h_in_R in Hr. tauto.
    + apply (Permutation_NoDup (Permutation_sym (sort_desc_perm _))).
      apply scored_NoDup.
    + intros p. rewrite in_app_iff, h_in_O, h_in_R, h_in_F. split.
      * intros [[Tr E] | [H _]]; [|exact H].
        apply h_tracked_facts in Tr. rewrite E. tauto.
      * intros (V & Pos & E).
        destruct (tracked_dec L P (fst p)) as [Tr | N].
        { destruct Hinv as (_ & (_ & HL & _)). fold L in HL. lia. }
        { left. tauto. }
        { right. tauto. }
Qed.

Lemma h_R_empty : L < K -> R = [].
Proof.
  intros Hlt. destruct R as [|p R'] eqn:E; [reflexivity | exfalso].
  assert (Hp : In p R) by (rewrite E; now left).
  apply h_in_R in Hp. destruct Hp as [Hp N]. apply h_in_F in Hp.
  destruct Hinv as (_ & (_ & _ & _ & _ & Hfill & _)).
  apply N, Hfill; [exact Hlt | tauto | unfold T in Hp; lia].
Qed.

Lemma h_O_is_top : O = firstn (Z.to_nat K) F.
Proof.
  rewrite <- h_F_splits.
  assert (Len : Z.of_nat (List.length O) = L)
    by (unfold O; rewrite length_map; apply h_cells_length).
  destruct Hinv as (_ & (_ & HL & _)). fold L K in HL.
  destruct (Z.eq_dec L K) as [Full | Not].
  - replace (Z.to_nat K) with (List.length O) by lia.
    symmetry. apply firstn_app_exact.
  - rewrite h_R_empty by lia. rewrite app_nil_r.
    symmetry. apply firstn_all2. lia.
Qed.

(** The sorted list is the top of the scored documents. *)
Lemma h_results_brute_force :
  predecessor.ranking e = top_scored documents K calls.
Proof.
  rewrite h_results_shape. unfold top_scored. fold F.
  rewrite <- h_O_is_top. reflexivity.
Qed.

End PredecessorRanking.

(** ** A whole query of the predecessor *)

Lemma touch_agrees (e : engine) (d : Z) :
  geometry e -> 0 <= d < 2 ^ 32 -> predecessor.touch e d = touch e d.
Proof.
  intros G Hd. unfold predecessor.touch, touch. fold (strip_of e d).
  rewrite (strip_start_small e G d Hd).
  rewrite to_size_t_small; [reflexivity|].
  pose proof (strip_bounds e G d). pose proof (strip_nonneg e G d ltac:(lia)).
  pose proof (width_pos e G).
  assert (2 ^ 32 < 2 ^ 64) by reflexivity. nia.
Qed.

Lemma h_add_rsv_frame (e : engine) (d s : Z) :
  accumulators_shift (predecessor.add_rsv e d s) = accumulators_shift e /\
  accumulators_width (predecessor.add_rsv e d s) = accumulators_width e /\
  accumulators_height (predecessor.add_rsv e d s) = accumulators_height e /\
  top_k (predecessor.add_rsv e d s) = top_k e /\
  primary_keys (predecessor.add_rsv e d s) = primary_keys e.
Proof.
  assert (F : accumulators_shift (predecessor.touch e d) = accumulators_shift e /\
              accumulators_width (predecessor.touch e d) = accumulators_width e /\
              accumulators_height (predecessor.touch e d) = accumulators_height e /\
              top_k (predecessor.touch e d) = top_k e /\
              primary_keys (predecessor.touch e d) = primary_keys e).
  { unfold predecessor.touch. destruct (_ =? 0); simpl; repeat split; reflexivity. }
  destruct F as (F1 & F2 & F3 & F5 & F6).
  unfold predecessor.add_rsv, predecessor.maintain_heap.
  repeat match goal with
  | |- context [if ?c then _ else _] => destruct c; simpl
  end; repeat split; assumption.
Qed.

Lemma h_invariant_add_rsv
    (documents : Z) (calls : list call) (e : engine) (d s : Z) :
  documents <= 2 ^ 31 ->
  invariant_sized documents calls e -> top_k e < 2 ^ 64 ->
  0 <= d < documents -> 0 < s -> total calls d + s < 2 ^ 16 ->
  invariant_sized documents (calls ++ [(d, s)]) (predecessor.add_rsv e d s).
Proof.
  intros Hdoc (M & Ok) Htop Hd Hs Hfit. unfold predecessor.add_rsv.
  assert (P32 : 2 ^ 31 <= 2 ^ 32) by (apply Z.pow_le_mono_r; lia).
  assert (G : geometry e) by (destruct M as (G & _); exact G).
  rewrite touch_agrees by (assumption || lia).
  destruct (memory_ok_touch documents calls e d ltac:(lia) M Hd) as [M' Dirty].
  destruct (touch_frame e d) as (F1 & _ & _ & _ & F2 & F3 & _).
  apply h_maintain_invariant; try assumption.
  - split; [exact M'|]. rewrite F1, F2, F3. exact Ok.
  - now rewrite F3.
Qed.

Lemma h_invariant_rewind (documents : Z) (e : engine) :
  configured_sized documents e ->
  invariant_sized documents [] (predecessor.rewind e).
Proof.
  intros (G & HK & Hcover). split.
  - change (predecessor.rewind e) with (rewind e).
    split; [exact G|]. split; [intros d; simpl; lia|]. split.
    + intros d Hd _. reflexivity.
    + intros d Hd Hflag. exfalso. apply Hflag.
      change (strip_of (rewind e) d) with (strip_of e d).
      apply rewind_clean_flags. split; [|now apply Hcover].
      apply strip_nonneg; [exact G | lia].
  - apply sized_list_ok_intro; simpl; try lia.
    + intros x (i & Hi & _). lia.
    + intros x (i & Hi & _). lia.
    + intros i j Hi. lia.
Qed.

Lemma h_invariant_run (documents : Z) (rest : list call) :
  forall (calls : list call) (e : engine),
  documents <= 2 ^ 31 ->
  invariant_sized documents calls e -> top_k e < 2 ^ 64 ->
  valid_calls documents rest -> no_overflow (calls ++ rest) ->
  invariant_sized documents (calls ++ rest) (predecessor.run e rest).
Proof.
  induction rest as [|c rest IH]; intros calls e Hdoc Hinv Htop Hvalid Hfit.
  - rewrite app_nil_r. exact Hinv.
  - inversion Hvalid as [|? ? [Hd Hs] Hvalid']; subst.
    destruct c as [d s]. simpl in Hd, Hs. simpl.
    pose proof (app_assoc calls [(d, s)] rest) as E. simpl in E.
    rewrite E in Hfit. rewrite E.
    apply IH; try assumption.
    + apply h_invariant_add_rsv; try assumption.
      pose proof (Hfit d) as F. rewrite total_concat, total_app in F.
      rewrite Z.eqb_refl in F.
      pose proof (valid_calls_nonneg documents rest d Hvalid'). lia.
    + destruct (h_add_rsv_frame e d s) as (_ & _ & _ & F & _). now rewrite F.
Qed.

Lemma h_run_top_k (calls : list call) :
  forall e, top_k (predecessor.run e calls) = top_k e.
Proof.
  induction calls as [|c calls IH]; intros e; [reflexivity|].
  simpl. rewrite IH.
  now destruct (h_add_rsv_frame e (fst c) (snd c)) as (_ & _ & _ & F & _).
Qed.

(** ** The predecessor's constructor *)

Lemma h_constructor_fields
    (g : engine) (np na nf : array) keys (documents k : Z) :
  1 <= documents < 2 ^ 31 ->
  let e := predecessor.query_atire_global g np na nf keys documents k in
  accumulators_shift e = strip_shift documents /\
  accumulators_width e = strip_width documents /\
  accumulators_height e = strip_count documents /\
  top_k e = to_size_t k.
Proof.
  intros H e. unfold e, predecessor.query_atire_global. simpl.
  assert (P31 : 2 ^ 31 = 2147483648) by reflexivity.
  assert (P64 : 2 ^ 64 = 18446744073709551616) by reflexivity.
  assert (P15 : 2 ^ 15 = 32768) by reflexivity.
  assert (P32 : 2 ^ 32 = 4294967296) by reflexivity.
  pose proof (strip_shift_nonneg documents) as S0.
  pose proof (strip_shift_small documents ltac:(lia)) as S1.
  fold (strip_shift documents).
  rewrite (to_size_t_small (strip_shift documents)) by lia.
  fold (strip_width documents).
  assert (W : 0 < strip_width documents <= 2 ^ 15).
  { split; [apply strip_width_pos|]. rewrite strip_width_pow2.
    apply Z.pow_le_mono_r; lia. }
  rewrite (to_int_small (strip_width documents)) by lia.
  rewrite (to_size_t_small (strip_width documents)) by lia.
  rewrite to_size_t_small by lia.
  repeat split; reflexivity.
Qed.

Lemma h_constructor_configured
    (g : engine) (np na nf : array) keys (documents k : Z) :
  1 <= documents < 2 ^ 31 -> 1 <= k < 2 ^ 64 ->
  configured_sized documents
    (predecessor.query_atire_global g np na nf keys documents k).
Proof.
  intros H Hk.
  destruct (h_constructor_fields g np na nf keys documents k H)
    as (F1 & F2 & F3 & F4).
  split; [|split].
  - unfold geometry. rewrite F1, F2.
    split; [apply strip_shift_nonneg | apply strip_width_pow2].
  - rewrite F4, to_size_t_small by lia. lia.
  - intros d Hd. unfold strip_of. rewrite F1, F3.
    apply strip_index_bound; lia.
Qed.

Lemma h_configured_after (documents : Z) (ops : list operation) :
  forall e, configured_sized documents e ->
  configured_sized documents (predecessor_after e ops).
Proof.
  induction ops as [|o ops IH]; intros e C; [exact C|].
  simpl. apply IH. destruct o as [d s|]; simpl; [|exact C].
  destruct C as (G & HK & Hcover).
  destruct (h_add_rsv_frame e d s) as (F1 & F2 & F3 & F4 & _).
  split; [|split].
  - unfold geometry. now rewrite F1, F2.
  - now rewrite F4.
  - intros x Hx. unfold strip_of. rewrite F1, F3. now apply Hcover.
Qed.

Lemma h_top_k_after (ops : list operation) :
  forall e, top_k (predecessor_after e ops) = top_k e.
Proof.
  induction ops as [|o ops IH]; intros e; [reflexivity|].
  simpl. rewrite IH. destruct o as [d s|]; simpl; [|reflexivity].
  now destruct (h_add_rsv_frame e d s) as (_ & _ & _ & F & _).
Qed.

Lemma predecessor_query_invariant
    (g : engine) (np na nf : array) (keys : list string) (documents k : Z)
    (ops : list operation) (calls : list call) :
  1 <= documents < 2 ^ 31 -> 1 <= k < 2 ^ 64 ->
  valid_calls documents calls -> no_overflow calls ->
  invariant_sized documents calls
    (predecessor_query g np na nf keys documents k ops calls) /\
  top_k (predecessor_query g np na nf keys documents k ops calls) = k.
Proof.
  intros Hdocuments Hk Hvalid Hfit. unfold predecessor_query.
  set (e0 := predecessor.query_atire_global g np na nf keys documents k).
  assert (C : configured_sized documents (predecessor_after e0 ops))
    by (apply h_configured_after, h_constructor_configured; assumption).
  assert (K : top_k (predecessor_after e0 ops) = k).
  { rewrite h_top_k_after. unfold e0.
    destruct (h_constructor_fields g np na nf keys documents k Hdocuments)
      as (_ & _ & _ & F). rewrite F. apply to_size_t_small. lia. }
  split.
  - apply (h_invariant_run documents calls []); try assumption; [lia | |].
    + now apply h_invariant_rewind.
    + change (top_k (predecessor_after e0 ops) < 2 ^ 64). lia.
  - rewrite h_run_top_k. exact K.
Qed.

Lemma predecessor_query_ranking
    (g : engine) (np na nf : array) (keys : list string) (documents k : Z)
    (ops : list operation) (calls : list call) :
  1 <= documents < 2 ^ 31 -> 1 <= k < 2 ^ 64 ->
  valid_calls documents calls -> no_overflow calls ->
  predecessor.ranking (predecessor_query g np na nf keys documents k ops calls)
  = top_scored documents k calls.
Proof.
  intros Hdocuments Hk Hvalid Hfit.
  destruct (predecessor_query_invariant g np na nf keys documents k ops calls
              Hdocuments Hk Hvalid Hfit) as [Inv K].
  rewrite (h_results_brute_force documents calls _ ltac:(lia) Inv).
  now rewrite K.
Qed.

(** X17.  The predecessor, whose heap has the size of the list, is right
    for every [top_k >= 1]: after construction, any earlier calls (in
    the program, calls for valid documents), [rewind] and a query with
    valid documents, positive scores and no total above 65535, the sorted pointer list names the documents with
    the greatest positive totals, greatest first (ties by identifier),
    each with its total in its cell, and there are as many as the
    smaller of [top_k] and the number of documents scored. *)
Theorem predecessor_ranks_top_k
    (g : engine) (np na nf : array) (keys : list string) (documents k : Z)
    (ops : list operation) (calls : list call)
    (Hdocuments : 1 <= documents < 2 ^ 31) (Hk : 1 <= k < 2 ^ 64)
    (Hvalid : valid_calls documents calls) (Hfit : no_overflow calls) :
  let e := predecessor_query g np na nf keys documents k ops calls in
  predecessor.ranking e = top_scored documents k calls /\
  List.length (predecessor.ranking e) =
    Nat.min (Z.to_nat k) (List.length (scored documents calls)).
Proof.
  intros e.
  pose proof (predecessor_query_ranking g np na nf keys documents k ops calls
                Hdocuments Hk Hvalid Hfit) as E.
  fold e in E. split; [exact E|]. rewrite E. unfold top_scored.
  rewrite length_firstn.
  now rewrite (Permutation_length (sort_desc_perm _)).
Qed.

Lemma predecessor_ranks_top_k_witness :
  predecessor.ranking
    (predecessor_query startup (fun _ => 7) (fun _ => 9) (fun _ => 1) [] 10 2 []
       [(0, 1); (1, 2); (2, 3); (3, 4)]) =
  top_scored 10 2 [(0, 1); (1, 2); (2, 3); (3, 4)].
Proof.
  apply (predecessor_ranks_top_k startup (fun _ => 7) (fun _ => 9) (fun _ => 1)
           [] 10 2 [] [(0, 1); (1, 2); (2, 3); (3, 4)]).
  - split; [lia | reflexivity].
  - split; [lia | reflexivity].
  - repeat constructor; simpl; lia.
  - apply no_overflow_check. reflexivity.
Defined.

(** X18.  In the predecessor the answer does not depend on the order of
    the calls, for every [top_k >= 1] and every query without
    overflow. *)
Theorem predecessor_order_independent
    (g : engine) (np na nf : array) (keys : list string) (documents k : Z)
    (ops : list operation) (calls calls' : list call)
    (Hdocuments : 1 <= documents < 2 ^ 31) (Hk : 1 <= k < 2 ^ 64)
    (Hperm : Permutation calls calls')
    (Hvalid : valid_calls documents calls) (Hfit : no_overflow calls) :
  predecessor.ranking (predecessor_query g np na nf keys documents k ops calls)
  = predecessor.ranking
      (predecessor_query g np na nf keys documents k ops calls').
Proof.
  assert (Hvalid' : valid_calls documents calls').
  { unfold valid_calls in *. rewrite Forall_forall in *. intros c Hc.
    apply Hvalid. apply (Permutation_in _ (Permutation_sym Hperm) Hc). }
  assert (Hfit' : no_overflow calls').
  { intros d. rewrite <- (total_permutation calls calls' d Hperm).
    apply Hfit. }
  rewrite !predecessor_query_ranking by assumption.
  unfold top_scored, scored.
  rewrite (map_ext (fun d => (d, total calls d))
             (fun d => (d, total calls' d))); [reflexivity|].
  intros d. now rewrite (total_permutation calls calls' d Hperm).
Qed.

Lemma predecessor_order_independent_witness :
  predecessor.ranking
    (predecessor_query startup (fun _ => 7) (fun _ => 9) (fun _ => 1) [] 10 2 []
       [(0, 1); (1, 2); (2, 3); (0, 4)]) =
  predecessor.ranking
    (predecessor_query startup (fun _ => 7) (fun _ => 9) (fun _ => 1) [] 10 2 []
       [(2, 3); (0, 4); (0, 1); (1, 2)]).
Proof.
  apply (predecessor_order_independent startup (fun _ => 7) (fun _ => 9)
           (fun _ => 1) [] 10 2 []
           [(0, 1); (1, 2); (2, 3); (0, 4)] [(2, 3); (0, 4); (0, 1); (1, 2)]).
  - split; [lia | reflexivity].
  - split; [lia | reflexivity].
  - apply (Permutation_app_comm [(0, 1); (1, 2)] [(2, 3); (0, 4)]).
  - repeat constructor; simpl; lia.
  - apply no_overflow_check. reflexivity.
Defined.

(** ** The predecessor's comparator *)

Lemma h_compare_negative (A : array) (a b : Z) :
  add_rsv_compare_h A a b < 0 <-> cell_lt A a b.
Proof.
  unfold add_rsv_compare_h, cell_lt.
  destruct (Z.gtb_spec (A a) (A b)); [lia|].
  destruct (Z.ltb_spec (A a) (A b)); [lia|].
  destruct (Z.gtb_spec a b); [lia|].
  destruct (Z.ltb_spec a b); lia.
Qed.

Lemma h_compare_nonnegative (A : array) (a b : Z) :
  0 <= add_rsv_compare_h A a b <-> cell_le A b a.
Proof.
  unfold add_rsv_compare_h, cell_le.
  destruct (Z.gtb_spec (A a) (A b)); [lia|].
  destruct (Z.ltb_spec (A a) (A b)); [lia|].
  destruct (Z.gtb_spec a b); [lia|].
  destruct (Z.ltb_spec a b); lia.
Qed.

(** X19.  The comparator of the predecessor is exact and antisymmetric
    for all pointers: it returns 1, -1 or 0 as the first cell is above,
    below or the same as the second in the order (score, then address),
    and exchanging the arguments negates the result. *)
Theorem predecessor_comparator_is_exact (A : array) (a b : Z) :
  (add_rsv_compare_h A a b = 1 <-> cell_lt A b a) /\
  (add_rsv_compare_h A a b = -1 <-> cell_lt A a b) /\
  (add_rsv_compare_h A a b = 0 <-> a = b) /\
  add_rsv_compare_h A b a = - add_rsv_compare_h A a b.
Proof.
  unfold add_rsv_compare_h, cell_lt.
  destruct (Z.gtb_spec (A a) (A b)); destruct (Z.gtb_spec (A b) (A a));
    try lia;
  destruct (Z.ltb_spec (A a) (A b)); destruct (Z.ltb_spec (A b) (A a));
    try lia;
  try (repeat split; intros; try lia; subst; lia).
  destruct (Z.gtb_spec a b); destruct (Z.gtb_spec b a); try lia;
  destruct (Z.ltb_spec a b); destruct (Z.ltb_spec b a); try lia;
  repeat split; intros; lia.
Qed.

(** ** The predecessor's arrays *)

(** X20.  In the predecessor every index computed for a valid document
    lies inside the arrays the constructor allocates: the strip index is
    below the number of flags, the strip that the lazy clearing zeroes
    lies inside the [width * height] cells, and the cell of the document
    lies inside that strip. *)
Theorem predecessor_indices_inside_allocations
    (g : engine) (np na nf : array) (keys : list string) (documents k d : Z)
    (Hdocuments : 1 <= documents < 2 ^ 31) (Hd : 0 <= d < documents) :
  let e := predecessor.query_atire_global g np na nf keys documents k in
  let strip := strip_of e d in
  0 <= strip < accumulators_height e /\
  0 <= accumulators_width e * strip /\
  accumulators_width e * strip + accumulators_width e
    <= accumulators_width e * accumulators_height e /\
  accumulators_width e * strip <= d
    < accumulators_width e * strip + accumulators_width e.
Proof.
  intros e strip.
  destruct (h_constructor_fields g np na nf keys documents k Hdocuments)
    as (F1 & F2 & F3 & _). fold e in F1, F2, F3.
  assert (G : geometry e).
  { unfold geometry. rewrite F1, F2.
    split; [apply strip_shift_nonneg | apply strip_width_pow2]. }
  pose proof (strip_bounds e G d) as B.
  pose proof (strip_nonneg e G d ltac:(lia)) as N.
  pose proof (width_pos e G) as W.
  assert (S : strip < accumulators_height e).
  { unfold strip, strip_of. rewrite F1, F3.
    apply strip_index_bound; lia. }
  fold strip in B, N. repeat split; try lia; nia.
Qed.

Lemma predecessor_indices_inside_allocations_witness :
  let e := predecessor.query_atire_global startup (fun _ => 7) (fun _ => 9)
             (fun _ => 1) [] 1024 10 in
  0 <= strip_of e 1023 < accumulators_height e.
Proof.
  apply (predecessor_indices_inside_allocations startup (fun _ => 7)
           (fun _ => 9) (fun _ => 1) [] 1024 10 1023);
    (split; [lia | reflexivity]).
Defined.

(** ** The predecessor's test for membership in the heap *)

(** X21.  In the predecessor, for every [top_k >= 1], in a query without
    overflow: once the list is full, a dirty positive cell outside the
    list compares strictly below the root, and the test
    [cmp(which, accumulator_pointers[0]) >= 0] that [add_rsv] makes
    before the addition holds exactly for the tracked cells. *)
Theorem predecessor_membership_test
    (g : engine) (np na nf : array) (keys : list string) (documents k : Z)
    (ops : list operation) (calls : list call) (d : Z)
    (Hdocuments : 1 <= documents < 2 ^ 31) (Hk : 1 <= k < 2 ^ 64)
    (Hvalid : valid_calls documents calls) (Hfit : no_overflow calls)
    (Hfull :
       results_list_length
         (predecessor_query g np na nf keys documents k ops calls) = k)
    (Hd : 0 <= d < documents) :
  let e := predecessor_query g np na nf keys documents k ops calls in
  let root := accumulator_pointers e 0 in
  (clean_flags e (strip_of e d) <> 0 -> 0 < accumulators e d ->
   ~ tracked (accumulator_pointers e) k d ->
   add_rsv_compare_h (accumulators e) d root < 0) /\
  (0 <= add_rsv_compare_h (accumulators (predecessor.touch e d)) d root <->
   tracked (accumulator_pointers e) k d).
Proof.
  intros e root.
  destruct (predecessor_query_invariant g np na nf keys documents k ops calls
              Hdocuments Hk Hvalid Hfit) as [Inv K].
  fold e in Inv, K, Hfull.
  assert (P32 : 2 ^ 31 <= 2 ^ 32) by (apply Z.pow_le_mono_r; lia).
  assert (Ok : list_ok_sized documents (total calls) (accumulator_pointers e) k k).
  { destruct Inv as (_ & Ok). rewrite Hfull, K in Ok. exact Ok. }
  pose proof (sized_full_root_tracked documents _ _ _ Ok) as R.
  assert (R' : tracked (accumulator_pointers e) (results_list_length e) root)
    by (rewrite Hfull; exact R).
  pose proof (h_before_tracked documents calls e Inv root R') as Er.
  split.
  - intros Dirty Pos N.
    pose proof (h_before_here documents calls e d Inv Hd Dirty) as Ed.
    destruct Ok as (_ & _ & _ & _ & _ & _ & Below).
    apply h_compare_negative.
    apply (cell_lt_ext (total calls)); [exact Ed | exact Er |].
    apply Below; try assumption; [reflexivity | lia].
  - assert (G : geometry e) by (destruct Inv as ((G & _) & _); exact G).
    rewrite touch_agrees by (assumption || lia).
    destruct Inv as (M & L).
    destruct (memory_ok_touch documents calls e d ltac:(lia) M Hd)
      as [M' Dirty].
    destruct (touch_frame e d) as (F1 & _ & _ & _ & F2 & F3 & _).
    assert (Inv1 : invariant_sized documents calls (touch e d)).
    { split; [exact M'|]. rewrite F1, F2, F3. exact L. }
    pose proof (h_before_here documents calls _ d Inv1 Hd Dirty) as Ed.
    assert (Er1 : accumulators (touch e d) root = total calls root).
    { apply (h_before_tracked documents calls _ Inv1). rewrite F1, F2.
      exact R'. }
    rewrite h_compare_nonnegative. split.
    + intros Le. apply (sized_full_tracked documents (total calls) d Hd _ _ Ok).
      apply (cell_le_ext (accumulators (touch e d)));
        [now symmetry | now symmetry | exact Le].
    + intros Tr. apply (cell_le_ext (total calls)); [exact Er1 | exact Ed |].
      exact (sized_full_root_minimal documents _ _ _ d Ok Tr).
Qed.

Lemma predecessor_membership_test_witness :
  let e := predecessor_query startup (fun _ => 7) (fun _ => 9) (fun _ => 1)
             [] 10 2 [] [(0, 1); (1, 2); (2, 3); (3, 4)] in
  (0 <= add_rsv_compare_h (accumulators (predecessor.touch e 1)) 1
          (accumulator_pointers e 0) <->
   tracked (accumulator_pointers e) 2 1).
Proof.
  apply (predecessor_membership_test startup (fun _ => 7) (fun _ => 9)
           (fun _ => 1) [] 10 2 [] [(0, 1); (1, 2); (2, 3); (3, 4)] 1).
  - split; [lia | reflexivity].
  - split; [lia | reflexivity].
  - repeat constructor; simpl; lia.
  - apply no_overflow_check. reflexivity.
  - vm_compute. reflexivity.
  - lia.
Defined.

(** ** The strips of both revisions *)



